(** * neural_surface: surface sampling and training-target synthesis

    A shallow embedding of [src/neural_surface/neural_surface.cu]:
    the two device kernels [generate_face_positions] and
    [generate_training_target], the host-side face-area CDF and vertex
    adjacency construction of [main], and the loss-logging schedule of
    [trainAndEvaluate]; then [splitString], the serialized layout of
    the adjacency lists, [loadTexture] with the material loop of
    [main], the reported [res.MSE] and the image kernel [to_ldr].

    Conventions.
    - A [float] is an IEEE-754 binary32 value; a NaN keeps its payload, so
      that the pointer casts between [float] and [uint32_t] of lines 206
      and 248 are conversions between a value and its 32-bit pattern.
      Arithmetic is the Standard Library's [SpecFloat] at precision 24,
      round to nearest even, one rounding per operation.
    - [uint32_t] and [int] values are [Z]; wrap-around is written out
      where the source computes in unsigned arithmetic.
    - Device and host buffers are lists.  An access outside a buffer is
      undefined behaviour in the source and [None] here. *)

From Stdlib Require Import ZArith List Bool Lia QArith Reals Lra.
From Stdlib Require Import Floats.SpecFloat.
From Stdlib Require Strings.String Strings.Ascii.
From stdpp Require Import base option list.

Open Scope Z_scope.

(** ** Binary32 values *)

Module Float32.

Definition prec : Z := 24.
Definition emax : Z := 128.

(** A binary32 value: mantissa [m] and exponent [e] stand for
    [m * 2^e].  A NaN keeps its sign and fraction bits, so that every
    32-bit pattern is the pattern of one value. *)
Inductive float : Type :=
| Fzero (s : bool)
| Finfinity (s : bool)
| Fnan (s : bool) (payload : Z)
| Ffinite (s : bool) (m : positive) (e : Z).

Definition to_spec (f : float) : spec_float :=
  match f with
  | Fzero s => S754_zero s
  | Finfinity s => S754_infinity s
  | Fnan _ _ => S754_nan
  | Ffinite s m e => S754_finite s m e
  end.

(** Which NaN an operation returns is a platform choice; only [is_nan]
    is used below. *)
Definition of_spec (v : spec_float) : float :=
  match v with
  | S754_zero s => Fzero s
  | S754_infinity s => Finfinity s
  | S754_nan => Fnan false (2 ^ 22)
  | S754_finite s m e => Ffinite s m e
  end.

(** The three fields of a 32-bit pattern. *)
Record fields := mkFields { fsign : bool; fexpo : Z; ffrac : Z }.

Definition well_formed (b : fields) : Prop :=
  0 <= fexpo b < 2 ^ 8 /\ 0 <= ffrac b < 2 ^ 23.

Definition uint_fields (n : Z) : fields :=
  {| fsign := Z.testbit n 31;
     fexpo := Z.land (Z.shiftr n 23) (Z.ones 8);
     ffrac := Z.land n (Z.ones 23) |}.

Definition fields_uint (b : fields) : Z :=
  Z.lor (Z.shiftl (Z.b2z (fsign b)) 31)
        (Z.lor (Z.shiftl (fexpo b) 23) (ffrac b)).

(** The value a pattern stands for. *)
Definition decode (b : fields) : float :=
  if fexpo b =? 255 then
    if ffrac b =? 0 then Finfinity (fsign b) else Fnan (fsign b) (ffrac b)
  else if fexpo b =? 0 then
    if ffrac b =? 0 then Fzero (fsign b)
    else Ffinite (fsign b) (Z.to_pos (ffrac b)) (-149)
  else Ffinite (fsign b) (Z.to_pos (ffrac b + 2 ^ 23)) (fexpo b - 150).

(** The pattern of a value. *)
Definition encode (f : float) : fields :=
  match f with
  | Fzero s => mkFields s 0 0
  | Finfinity s => mkFields s 255 0
  | Fnan s payload => mkFields s 255 payload
  | Ffinite s m e =>
      if Z.pos m <? 2 ^ 23 then mkFields s 0 (Z.pos m)
      else mkFields s (e + 150) (Z.pos m - 2 ^ 23)
  end.

(** Line 206: the 32 bits of a [uint32_t] read as a [float]. *)
Definition uint_as_float (n : Z) : float := decode (uint_fields n).

(** Line 248: the 32 bits of a [float] read as a [uint32_t]. *)
Definition float_as_uint (f : float) : Z := fields_uint (encode f).

(** Conversion of a [uint32_t] to [int]: the same 32 bits, two's
    complement. *)
Definition uint_to_int (n : Z) : Z := (n + 2 ^ 31) mod 2 ^ 32 - 2 ^ 31.

(** Conversion of an [int] to [uint32_t]. *)
Definition int_to_uint (n : Z) : Z := n mod 2 ^ 32.

Definition is_nan (f : float) : bool :=
  match f with Fnan _ _ => true | _ => false end.

Definition is_zero (f : float) : bool :=
  match f with Fzero _ => true | _ => false end.

(** The literals [0.f], [0.5f] and [1.0f]. *)
Definition fzero : float := Fzero false.
Definition fhalf : float := Ffinite false (2 ^ 23) (-24).
Definition fone : float := Ffinite false (2 ^ 23) (-23).

Definition fadd (a b : float) : float :=
  of_spec (SFadd prec emax (to_spec a) (to_spec b)).

Definition fsub (a b : float) : float :=
  of_spec (SFsub prec emax (to_spec a) (to_spec b)).

Definition fmul (a b : float) : float :=
  of_spec (SFmul prec emax (to_spec a) (to_spec b)).

Definition fdiv (a b : float) : float :=
  of_spec (SFdiv prec emax (to_spec a) (to_spec b)).

Definition fsqrt (a : float) : float :=
  of_spec (SFsqrt prec emax (to_spec a)).

(** [a < b] and [a <= b]; false when an operand is a NaN. *)
Definition fltb (a b : float) : bool := SFltb (to_spec a) (to_spec b).
Definition fleb (a b : float) : bool := SFleb (to_spec a) (to_spec b).

(** [(float) n] for an unsigned integer [n]. *)
Definition of_uint (n : Z) : float :=
  of_spec (binary_normalize prec emax n 0 false).

(** [(uint32_t) f]: truncation toward zero; undefined when the truncated
    value is not representable. *)
Definition to_uint (f : float) : option Z :=
  match f with
  | Fzero _ => Some 0
  | Ffinite s m e =>
      let t := if 0 <=? e then Z.pos m * 2 ^ e else Z.pos m / 2 ^ (- e) in
      if t =? 0 then Some 0
      else if s then None
      else if t <? 2 ^ 32 then Some t else None
  | _ => None
  end.

(** [fmodf(x, 1.0f)]: the fractional part of [x], with the sign of [x];
    the result is exact. *)
Definition fmodf_one (x : float) : float :=
  match x with
  | Fzero s => Fzero s
  | Ffinite s m e =>
      if 0 <=? e then Fzero s
      else of_spec (binary_normalize prec emax
                      (cond_Zopp s (Z.pos m mod 2 ^ (- e))) e s)
  | _ => of_spec S754_nan
  end.

(** The exact value of a finite float, as a rational and as a real. *)
Definition to_Q (f : float) : option Q :=
  match f with
  | Fzero _ => Some 0%Q
  | Ffinite s m e =>
      Some (if 0 <=? e then inject_Z (cond_Zopp s (Z.pos m) * 2 ^ e)
            else Qmake (cond_Zopp s (Z.pos m)) (Z.to_pos (2 ^ (- e))))
  | _ => None
  end.

Definition to_R (f : float) : R :=
  match f with
  | Ffinite s m e => (IZR (cond_Zopp s (Z.pos m)) * powerRZ 2 e)%R
  | _ => 0%R
  end.

(** *** Classes of values, to follow a rounding *)

(** A zero, a finite value or an infinity of sign [sx]; not a NaN. *)
Definition signed (sx : bool) (v : spec_float) : Prop :=
  match v with
  | S754_zero s | S754_infinity s | S754_finite s _ _ => s = sx
  | S754_nan => False
  end.

(** A zero or a finite value of sign [sx] and of magnitude at most 1. *)
Definition at_most_one (sx : bool) (v : spec_float) : Prop :=
  match v with
  | S754_zero s => s = sx
  | S754_finite s m e => s = sx /\ e <= 0 /\ Z.pos m <= 2 ^ (- e)
  | _ => False
  end.

(** A zero of either sign, or a positive value at most 1. *)
Definition small (v : spec_float) : Prop :=
  match v with
  | S754_zero _ => True
  | S754_finite false m e => e <= 0 /\ Z.pos m <= 2 ^ (- e)
  | _ => False
  end.

(** [0 <= v] as the float comparison has it. *)
Definition nonneg (v : spec_float) : Prop :=
  SFleb (S754_zero false) v = true.

(** A zero, or a positive binary32 value at most 1: a mantissa below
    2^24 at an exponent from -149 to 0. *)
Definition weight (v : spec_float) : Prop :=
  match v with
  | S754_zero _ => True
  | S754_finite false m e =>
      -149 <= e <= 0 /\ Z.pos m < 2 ^ 24 /\ Z.pos m <= 2 ^ (- e)
  | _ => False
  end.

(** The value of a finite float in units of 2^-149, the least positive
    binary32 value. *)
Definition units (v : spec_float) : Z :=
  match v with
  | S754_finite s m e => cond_Zopp s (Z.pos m) * 2 ^ (e + 149)
  | _ => 0
  end.

End Float32.

Import Float32.

(** ** Buffers *)

Module Buffer.

(** [buf[i]] read. *)
Definition load {A : Type} (buf : list A) (i : Z) : option A :=
  if i <? 0 then None else buf !! Z.to_nat i.

(** [buf[i] = v]. *)
Definition store {A : Type} (buf : list A) (i : Z) (v : A)
    : option (list A) :=
  if (0 <=? i) && (i <? Z.of_nat (length buf))
  then Some (<[Z.to_nat i := v]> buf) else None.

End Buffer.

Import Buffer.

Definition N_INPUT_DIMS : Z := 3.
Definition N_OUTPUT_DIMS : Z := 6.

(** ** Mesh and material data *)

(** [tinyobj::index_t]: one corner of a face. *)
Record index_t := mkIndex
  { vertex_index : Z; normal_index : Z; texcoord_index : Z }.

Module Cuda.

(** CUDA's [float4]. *)
Record float4 := mkFloat4 { x : float; y : float; z : float; w : float }.

End Cuda.

(** [struct Texture], without the host-side descriptors and the image
    buffer, which the kernels do not read. *)
Record Texture := mkTexture
  { valid : bool; texture : Z; width : Z; height : Z }.

(** [struct Material]; [diffuse] is the array of three floats. *)
Record Material := mkMaterial
  { diffuse : float * float * float; map_Kd : Texture; map_Bump : Texture }.

(** ** Loops *)

(** [for (i = start; ...; ++i) s = body(i, s)], [count] iterations, with
    a body that can be undefined. *)
Fixpoint for_loop {S : Type} (body : Z -> S -> option S)
    (count : nat) (i : Z) (s : S) : option S :=
  match count with
  | O => Some s
  | Datatypes.S c => s' ← body i s; for_loop body c (i + 1) s'
  end.

(** The same with a total body. *)
Fixpoint iterate {S : Type} (body : Z -> S -> S)
    (count : nat) (i : Z) (s : S) : S :=
  match count with
  | O => s
  | Datatypes.S c => iterate body c (i + 1) (body i s)
  end.

(** ** Surface Point Sampler: [generate_face_positions] *)

Module Sampler.

(** The two barycentric weights written on lines 213-214, from the
    draws [r1] and [r2]. *)
Definition barycentric (r1 r2 : float) : float * float :=
  (fsub fone (fsqrt r1), fmul (fsqrt r1) (fsub fone r2)).

(** One thread of the kernel.  [u0], [u1], [u2] are the three successive
    [curand_uniform] draws of the thread's generator. *)
Definition generate_face_positions (n_elements n_faces : Z)
    (u0 u1 u2 : float) (idx : Z) (result : list float)
    : option (list float) :=
  if idx >=? n_elements then Some result
  else
    let output_idx := idx * 3 in
    let r := fmodf_one u0 in
    faceId ← to_uint (fmul r (of_uint n_faces));
    result ← store result (output_idx + 0) (uint_as_float faceId);
    let r1 := u1 in
    let r2 := u2 in
    result ← store result (output_idx + 1) (fst (barycentric r1 r2));
    store result (output_idx + 2) (snd (barycentric r1 r2)).

(** The two formulas of lines 213-214 with every float operation read as
    the exact real operation it rounds. *)
Definition barycentric_exact (r1 r2 : R) : R * R :=
  ((1 - sqrt r1)%R, (sqrt r1 * (1 - r2))%R).

(** [w1 >= 0], [w2 >= 0] and [w1 + w2 <= 1] on the exact values of two
    stored weights. *)
Definition in_simplex (w1 w2 : float) : bool :=
  match to_Q w1, to_Q w2 with
  | Some q1, Some q2 =>
      Qle_bool 0 q1 && Qle_bool 0 q2 && Qle_bool (q1 + q2) 1
  | _, _ => false
  end.

(** [r] lies in the interval from 0 (included) to 1 (excluded). *)
Definition unit_draw (r : float) : bool :=
  match r with
  | Fzero _ => true
  | Ffinite false m e => (e <? 0) && (Z.pos m <? 2 ^ (- e))
  | _ => false
  end.

(** 2^-33, the least value [curand_uniform] returns. *)
Definition least_draw : float := Ffinite false (2 ^ 23) (-56).

End Sampler.

(** ** Texture-Backed Target Resolver: [generate_training_target] *)

Module Resolver.

Section Kernel.

(** [tex2D<float4>(texture, x, y)]: the device's filtered fetch. *)
Variable tex2D : Z -> float -> float -> Cuda.float4.

(** Line 248: the slot [training_batch[input_idx + 0]] read as a
    [uint32_t] and stored in the [int faceId]. *)
Definition decode_faceId (training_batch : list float) (input_idx : Z)
    : option Z :=
  slot ← load training_batch (input_idx + 0);
  Some (uint_to_int (float_as_uint slot)).

(** Line 249: [faceId < 0 || faceId >= n_faces], the second comparison
    being unsigned since [n_faces] is a [uint32_t]. *)
Definition out_of_range (faceId n_faces : Z) : bool :=
  (faceId <? 0) || (int_to_uint faceId >=? n_faces).

(** Lines 260-273: the interpolated texture coordinate. *)
Definition uv_interp (training_batch : list float)
    (indices : list index_t) (texcoords : list float)
    (input_idx faceId : Z) : option (float * float) :=
  i1 ← load indices (3 * faceId + 0);
  i2 ← load indices (3 * faceId + 1);
  i3 ← load indices (3 * faceId + 2);
  let iv1 := texcoord_index i1 in
  let iv2 := texcoord_index i2 in
  let iv3 := texcoord_index i3 in
  w1 ← load training_batch (input_idx + 1);
  w2 ← load training_batch (input_idx + 2);
  let w3 := fsub (fsub fone w1) w2 in
  uv1x ← load texcoords (2 * iv1 + 0);
  uv1y ← load texcoords (2 * iv1 + 1);
  uv2x ← load texcoords (2 * iv2 + 0);
  uv2y ← load texcoords (2 * iv2 + 1);
  uv3x ← load texcoords (2 * iv3 + 0);
  uv3y ← load texcoords (2 * iv3 + 1);
  Some (fadd (fadd (fmul w1 uv1x) (fmul w2 uv2x)) (fmul w3 uv3x),
        fadd (fadd (fmul w1 uv1y) (fmul w2 uv2y)) (fmul w3 uv3y)).

(** Lines 250-256. *)
Definition write_zero_target (result : list float) (output_idx : Z)
    : option (list float) :=
  result ← store result (output_idx + 0) fzero;
  result ← store result (output_idx + 1) fzero;
  result ← store result (output_idx + 2) fzero;
  result ← store result (output_idx + 3) fzero;
  result ← store result (output_idx + 4) fzero;
  store result (output_idx + 5) fzero.

(** Lines 286-297: channels 0..2. *)
Definition write_diffuse (mat : Material) (uv : float * float)
    (result : list float) (output_idx : Z) : option (list float) :=
  if valid (map_Kd mat) then
    let texture_diffuse := texture (map_Kd mat) in
    let val_diff := tex2D texture_diffuse (fst uv) (fsub fone (snd uv)) in
    result ← store result (output_idx + 0) (Cuda.x val_diff);
    result ← store result (output_idx + 1) (Cuda.y val_diff);
    store result (output_idx + 2) (Cuda.z val_diff)
  else
    result ← store result (output_idx + 0) (fst (fst (diffuse mat)));
    result ← store result (output_idx + 1) (snd (fst (diffuse mat)));
    store result (output_idx + 2) (snd (diffuse mat)).

(** Lines 298-309: channels 3..5. *)
Definition write_bump (mat : Material) (uv : float * float)
    (result : list float) (output_idx : Z) : option (list float) :=
  if valid (map_Bump mat) then
    let texture_bump := texture (map_Bump mat) in
    let val_bump := tex2D texture_bump (fst uv) (fsub fone (snd uv)) in
    result ← store result (output_idx + 3) (Cuda.x val_bump);
    result ← store result (output_idx + 4) (Cuda.y val_bump);
    store result (output_idx + 5) (Cuda.z val_bump)
  else
    result ← store result (output_idx + 3) fhalf;
    result ← store result (output_idx + 4) fhalf;
    store result (output_idx + 5) fone.

(** [materials[material_ids[faceId]]]. *)
Definition face_material (materials : list Material)
    (material_ids : list Z) (faceId : Z) : option Material :=
  mid ← load material_ids faceId;
  load materials mid.

(** One thread of the kernel. *)
Definition generate_training_target (n_elements n_faces : Z)
    (materials : list Material) (material_ids : list Z)
    (training_batch : list float) (indices : list index_t)
    (texcoords : list float) (idx : Z) (result : list float)
    : option (list float) :=
  if idx >=? n_elements then Some result
  else
    let input_idx := idx * N_INPUT_DIMS in
    let output_idx := idx * N_OUTPUT_DIMS in
    faceId ← decode_faceId training_batch input_idx;
    if out_of_range faceId n_faces then
      write_zero_target result output_idx
    else
      uv ← uv_interp training_batch indices texcoords input_idx faceId;
      mat ← face_material materials material_ids faceId;
      result ← write_diffuse mat uv result output_idx;
      write_bump mat uv result output_idx.

End Kernel.

End Resolver.

(** ** Face-Area CDF: lines 565-592 of [main] *)

Module Cdf.

(** [area_sum] after the loop of lines 568-584; [histogram] holds the
    per-face areas [0.5f * length(cross(v2 - v1, v3 - v1))]. *)
Definition area_sum (histogram : list float) : float :=
  foldl fadd fzero histogram.

(** Lines 589-592, from the running [c_prob]. *)
Fixpoint cdf_loop (area_sum c_prob : float) (histogram : list float)
    : list float :=
  match histogram with
  | [] => []
  | h :: rest =>
      let c_prob := fadd c_prob (fdiv h area_sum) in
      c_prob :: cdf_loop area_sum c_prob rest
  end.

(** [cdf_host] after line 592. *)
Definition build_cdf (histogram : list float) : list float :=
  cdf_loop (area_sum histogram) fzero histogram.

(** What [main] has done when the CDF stage is over: left the process
    with a status, or gone on with a value. *)
Inductive outcome (A : Type) : Type :=
| Exit (status : Z)
| Continue (a : A).

Arguments Exit {A} status.
Arguments Continue {A} a.

(** [main] up to line 592: the usage check of line 513, the result [ret]
    of [tinyobj::LoadObj] on line 550, then the CDF. *)
Definition main_cdf (argc : Z) (ret : bool) (histogram : list float)
    : outcome (list float) :=
  if negb (argc =? 4) then Exit 1
  else if negb ret then Exit 1
  else Continue (build_cdf histogram).

End Cdf.

(** ** Mesh Adjacency Builder: lines 594-673 of [main] *)

Module Adjacency.

(** The mark of a record with no second face, [0xFFFFFFFF]. *)
Definition NO_FACE : Z := 0xFFFFFFFF.

(** [std::find(e.begin(), e.end(), x)], as the distance from
    [e.begin()]; [None] is [e.end()]. *)
Fixpoint find (e : list Z) (x : Z) : option nat :=
  match e with
  | [] => None
  | y :: e' => if y =? x then Some O else S <$> find e' x
  end.

(** [adj[v].push_back(i)]. *)
Definition push_back (adj : list (list Z)) (v i : Z)
    : option (list (list Z)) :=
  l ← load adj v;
  store adj v (l ++ [i]).

(** Lines 614-627, for the edge between [a] and [b] of face [i]; the
    same text serves the three edges. *)
Definition add_edge (n_vertices i a b : Z) (adjEdges : list (list Z))
    : option (list (list Z)) :=
  let vmin := Z.min a b in
  let vmax := Z.max a b in
  e ← load adjEdges vmin;
  let it := if bool_decide (e = []) then None else find e vmax in
  match it with
  | None =>
      store adjEdges vmin
        (e ++ [vmax; int_to_uint (n_vertices + i); NO_FACE])
  | Some d =>
      let ind := (d + 2)%nat in
      if bool_decide (ind < length e)%nat
      then store adjEdges vmin (<[ind := int_to_uint (n_vertices + i)]> e)
      else None
  end.

(** The body of the loop over faces, lines 601-661. *)
Definition add_face (n_vertices : Z) (indices : list index_t) (i : Z)
    (adj : list (list Z) * list (list Z))
    : option (list (list Z) * list (list Z)) :=
  let '(adjFaces, adjEdges) := adj in
  i0 ← load indices (3 * i + 0);
  i1 ← load indices (3 * i + 1);
  i2 ← load indices (3 * i + 2);
  let v0 := int_to_uint (vertex_index i0) in
  let v1 := int_to_uint (vertex_index i1) in
  let v2 := int_to_uint (vertex_index i2) in
  adjFaces ← push_back adjFaces v0 i;
  adjFaces ← push_back adjFaces v1 i;
  adjFaces ← push_back adjFaces v2 i;
  adjEdges ← add_edge n_vertices i v0 v1 adjEdges;
  adjEdges ← add_edge n_vertices i v0 v2 adjEdges;
  adjEdges ← add_edge n_vertices i v1 v2 adjEdges;
  Some (adjFaces, adjEdges).

(** [adjFaces] and [adjEdges] after the loop. *)
Definition build (n_vertices n_faces : Z) (indices : list index_t)
    : option (list (list Z) * list (list Z)) :=
  for_loop (add_face n_vertices indices) (Z.to_nat n_faces) 0
    (replicate (Z.to_nat n_vertices) [], replicate (Z.to_nat n_vertices) []).

(** One of the two loops of lines 663-673: vertex [i]'s list goes to
    the end of [meta_host], behind its length, and its start is
    recorded at [offsets_host[base + i]]. *)
Definition serialize_vertex (base : Z) (adj : list (list Z)) (i : Z)
    (om : list Z * list Z) : option (list Z * list Z) :=
  let '(offsets_host, meta_host) := om in
  offsets_host ←
    store offsets_host (base + i) (int_to_uint (Z.of_nat (length meta_host)));
  l ← load adj i;
  Some (offsets_host,
        meta_host ++ [int_to_uint (Z.of_nat (length l))] ++ l).

(** A product of two [int]s, such as the [2 * n_vertices] of line 595;
    signed overflow is undefined. *)
Definition int_mul (a b : Z) : option Z :=
  if (- 2 ^ 31 <=? a * b) && (a * b <? 2 ^ 31) then Some (a * b) else None.

(** [std::vector<uint32_t> v(n)] for an [int] [n]: [n] zeros.  A
    negative [n] converts to a [size_t] above [max_size()], and the
    constructor throws. *)
Definition new_vector (n : Z) : option (list Z) :=
  if n <? 0 then None else Some (replicate (Z.to_nat n) 0).

(** [offsets_host] and [meta_host] as handed to the encoding: line 595,
    then the two loops. *)
Definition serialize (n_vertices : Z) (adjFaces adjEdges : list (list Z))
    : option (list Z * list Z) :=
  size ← int_mul 2 n_vertices;
  offsets_host ← new_vector size;
  om ← for_loop (serialize_vertex 0 adjFaces) (Z.to_nat n_vertices) 0
         (offsets_host, []);
  for_loop (serialize_vertex n_vertices adjEdges) (Z.to_nat n_vertices) 0 om.

(** An edge list read as its records
    [(other_vertex, face_a, face_b or NO_FACE)]. *)
Fixpoint records (e : list Z) : list (Z * Z * Z) :=
  match e with
  | o :: a :: b :: e' => (o, a, b) :: records e'
  | _ => []
  end.

(** The edge list written out from its records. *)
Fixpoint flatten (rs : list (Z * Z * Z)) : list Z :=
  match rs with
  | [] => []
  | (o, a, b) :: rs' => o :: a :: b :: flatten rs'
  end.

(** The stored record of the edge between [a] and [b], found the way
    lines 614-617 look it up. *)
Definition edge_record (adjEdges : list (list Z)) (a b : Z)
    : option (Z * Z * Z) :=
  let vmin := Z.min a b in
  let vmax := Z.max a b in
  e ← load adjEdges vmin;
  d ← find e vmax;
  match drop d e with
  | o :: fa :: fb :: _ => Some (o, fa, fb)
  | _ => None
  end.

(** The records of vertex [v]'s list whose other endpoint is [o]. *)
Definition incident_records (adjEdges : list (list Z)) (v o : Z)
    : list (Z * Z * Z) :=
  match load adjEdges v with
  | Some e => List.filter (fun r => r.1.1 =? o) (records e)
  | None => []
  end.

(** Every record held for the edge between [a] and [b], under either
    endpoint. *)
Definition edge_records_of (adjEdges : list (list Z)) (a b : Z)
    : list (Z * Z * Z) :=
  incident_records adjEdges a b ++ incident_records adjEdges b a.

(** The other endpoints recorded in an edge list. *)
Definition others_of (e : list Z) : list Z := (fun r => r.1.1) <$> records e.

(** The edge between [a] and [b] has a record under its smaller
    endpoint. *)
Definition edge_stored (adjEdges : list (list Z)) (a b : Z) : Prop :=
  exists e, load adjEdges (Z.min a b) = Some e /\ Z.max a b ∈ others_of e.

(** The index buffer of the triangles given by their vertex indices. *)
Definition mesh_of (faces : list (Z * Z * Z)) : list index_t :=
  flat_map (fun '(a, b, c) =>
              [mkIndex a (-1) (-1); mkIndex b (-1) (-1); mkIndex c (-1) (-1)])
           faces.

(** *** Well-formed meshes *)

(** Face [i] has its three corners in the index buffer, with vertex
    indices below [n] and pairwise distinct. *)
Definition face_ok (n : Z) (indices : list index_t) (i : Z) : Prop :=
  exists i0 i1 i2,
    load indices (3 * i + 0) = Some i0 /\
    load indices (3 * i + 1) = Some i1 /\
    load indices (3 * i + 2) = Some i2 /\
    0 <= vertex_index i0 < n /\
    0 <= vertex_index i1 < n /\
    0 <= vertex_index i2 < n /\
    vertex_index i0 <> vertex_index i1 /\
    vertex_index i0 <> vertex_index i2 /\
    vertex_index i1 <> vertex_index i2.

Definition mesh_ok (n_vertices n_faces : Z) (indices : list index_t) : Prop :=
  forall i, 0 <= i < n_faces -> face_ok n_vertices indices i.

(** The three edges of face [i] are stored. *)
Definition face_edges_stored (indices : list index_t)
    (adjEdges : list (list Z)) (i : Z) : Prop :=
  exists i0 i1 i2,
    load indices (3 * i + 0) = Some i0 /\
    load indices (3 * i + 1) = Some i1 /\
    load indices (3 * i + 2) = Some i2 /\
    edge_stored adjEdges (vertex_index i0) (vertex_index i1) /\
    edge_stored adjEdges (vertex_index i0) (vertex_index i2) /\
    edge_stored adjEdges (vertex_index i1) (vertex_index i2).

(** *** The representation invariant of [adjEdges] *)

(** Face slots hold values from [n] up, so that [find] never takes one
    for a vertex index. *)
Definition face_slots_ok (n : Z) (r : Z * Z * Z) : Prop :=
  n <= r.1.2 /\ n <= r.2.

(** A record of vertex [v]'s list: other endpoint above [v]. *)
Definition record_ok (n v : Z) (r : Z * Z * Z) : Prop :=
  v < r.1.1 < n /\ face_slots_ok n r.

Definition edge_list_ok (n v : Z) (e : list Z) : Prop :=
  exists rs, e = flatten rs /\ Forall (record_ok n v) rs.

Definition edges_ok (n : Z) (adjEdges : list (list Z)) : Prop :=
  Z.of_nat (length adjEdges) = n /\
  forall v e, load adjEdges v = Some e -> edge_list_ok n v e.

(** What holds of [adjFaces] and [adjEdges] when the loop reaches
    face [i]. *)
Definition build_inv (n : Z) (indices : list index_t) (i : Z)
    (adj : list (list Z) * list (list Z)) : Prop :=
  Z.of_nat (length adj.1) = n /\
  edges_ok n adj.2 /\
  forall j, 0 <= j < i -> face_edges_stored indices adj.2 j.

(** *** Two triangles on four vertices *)

Definition in_mesh (n : Z) (f : Z * Z * Z) : Prop :=
  0 <= f.1.1 < n /\ 0 <= f.1.2 < n /\ 0 <= f.2 < n.

Definition nondegenerate (f : Z * Z * Z) : Prop :=
  f.1.1 <> f.1.2 /\ f.1.1 <> f.2 /\ f.1.2 <> f.2.

Definition on_face (v : Z) (f : Z * Z * Z) : Prop :=
  v = f.1.1 \/ v = f.1.2 \/ v = f.2.

(** [f0] and [f1] are triangles over the vertices 0..3 that have the
    edge between [u] and [w] in common and are not the same triangle. *)
Definition shares_edge (f0 f1 : Z * Z * Z) (u w : Z) : Prop :=
  in_mesh 4 f0 /\ in_mesh 4 f1 /\ nondegenerate f0 /\ nondegenerate f1 /\
  u <> w /\ on_face u f0 /\ on_face w f0 /\ on_face u f1 /\ on_face w f1 /\
  ~ (on_face f1.1.1 f0 /\ on_face f1.1.2 f0 /\ on_face f1.2 f0).

(** The builder holds one record for the shared edge, with both faces,
    and finds it from either order of the endpoints. *)
Definition shared_edge_ok (f0 f1 : Z * Z * Z) (u w : Z) : Prop :=
  match build 4 2 (mesh_of [f0; f1]) with
  | Some (_, adjEdges) =>
      edge_records_of adjEdges u w = [(Z.max u w, 4 + 0, 4 + 1)] /\
      edge_record adjEdges u w = Some (Z.max u w, 4 + 0, 4 + 1) /\
      edge_record adjEdges w u = Some (Z.max u w, 4 + 0, 4 + 1)
  | None => False
  end.

#[global] Instance shares_edge_dec f0 f1 u w : Decision (shares_edge f0 f1 u w).
Proof. unfold shares_edge, in_mesh, nondegenerate, on_face. apply _. Defined.

#[global] Instance shared_edge_ok_dec f0 f1 u w :
  Decision (shared_edge_ok f0 f1 u w).
Proof.
  unfold shared_edge_ok.
  destruct (build 4 2 (mesh_of [f0; f1])) as [[? ?]|]; apply _.
Defined.

Definition vertices4 : list Z := [0; 1; 2; 3].

Definition two_triangles_check (a0 a1 a2 b0 b1 b2 u w : Z) : bool :=
  if bool_decide (shares_edge (a0, a1, a2) (b0, b1, b2) u w)
  then bool_decide (shared_edge_ok (a0, a1, a2) (b0, b1, b2) u w)
  else true.

End Adjacency.

(** ** Training Loop Driver: the logging schedule, lines 374-457 *)

Module Training.

Section Loop.

(** [model->loss(training_stream, *ctx_obj)] at step [i]. *)
Variable loss : Z -> float.

(** The variables of lines 374, 375 and 384, and the lines written to
    the standard output so far (step and printed average), latest last. *)
Record state := mkState
  { interval : Z;
    tmp_loss : float;
    tmp_loss_counter : Z;
    printed : list (Z * float) }.

Definition initial : state :=
  {| interval := 10; tmp_loss := fzero; tmp_loss_counter := 0;
     printed := [] |}.

(** Line 387. *)
Definition print_loss (i : Z) (st : state) : bool :=
  i mod interval st =? 0.

(** The test of line 409. *)
Definition accumulates (i : Z) (st : state) : bool :=
  i mod Z.min (interval st) 100 =? 0.

(** One iteration of the loop of line 386, as far as the loss
    bookkeeping goes. *)
Definition step (i : Z) (st : state) : state :=
  let print_loss := print_loss i st in
  let st1 :=
    if accumulates i st
    then {| interval := interval st;
            tmp_loss := fadd (tmp_loss st) (loss i);
            tmp_loss_counter := (tmp_loss_counter st + 1) mod 2 ^ 32;
            printed := printed st |}
    else st in
  let st2 :=
    if print_loss
    then {| interval := interval st1;
            tmp_loss := fzero;
            tmp_loss_counter := 0;
            printed :=
              printed st1 ++
              [(i, fdiv (tmp_loss st1) (of_uint (tmp_loss_counter st1)))] |}
    else st1 in
  if print_loss && (0 <? i) && (interval st2 <? 1000)
  then {| interval := (interval st2 * 10) mod 2 ^ 32;
          tmp_loss := tmp_loss st2;
          tmp_loss_counter := tmp_loss_counter st2;
          printed := printed st2 |}
  else st2.

(** The state when the loop has run [n] iterations. *)
Definition run (n : Z) : state :=
  iterate step (Z.to_nat n) 0 initial.

End Loop.

(** Line 342. *)
Definition n_training_steps (training_iterations : Z) : Z :=
  (training_iterations + 1) mod 2 ^ 32.

(** *** The schedule in closed form *)

(** [interval] on entry to step [i]. *)
Definition interval_at (i : Z) : Z :=
  if i <=? 10 then 10 else if i <=? 100 then 100 else 1000.

(** Step [i] prints: steps 0, 10, 100 and the multiples of 1000. *)
Definition prints_at (i : Z) : bool :=
  (i =? 0) || (i =? 10) || (i =? 100) || ((1000 <=? i) && (i mod 1000 =? 0)).

(** Step [i] adds its loss to [tmp_loss]. *)
Definition samples_at (i : Z) : bool :=
  i mod Z.min (interval_at i) 100 =? 0.

(** [tmp_loss_counter] on entry to step [n]: the number of losses added
    since the last print. *)
Definition counter_at (n : Z) : Z :=
  if n <=? 100 then 0
  else (n - 1) mod 1000 / 100 - (if n <=? 1000 then 1 else 0).

End Training.

(** ** Small concrete inputs *)

Module Demo.

Definition tex2D (t : Z) (u v : float) : Cuda.float4 :=
  Cuda.mkFloat4 u v fzero fone.

Definition no_texture : Texture := mkTexture false 0 0 0.

Definition flat : Material :=
  mkMaterial (fhalf, fone, fzero) no_texture no_texture.

Definition textured : Material :=
  mkMaterial (fhalf, fone, fzero) (mkTexture true 7 2 2) no_texture.

Definition indices : list index_t :=
  [mkIndex 0 (-1) 0; mkIndex 1 (-1) 1; mkIndex 2 (-1) 2].

Definition texcoords : list float := replicate 6 fzero.

(** One sample: the face id in slot 0, then the two weights. *)
Definition batch (faceId : Z) : list float :=
  [uint_as_float faceId; fhalf; fhalf].

Definition result : list float := replicate 6 fone.

(** Two triangles on the edge between vertices 1 and 2. *)
Definition quad : list index_t := Adjacency.mesh_of [(0, 1, 2); (2, 1, 3)].

(** A draw a little above one half. *)
Definition draw : float := Ffinite false (2 ^ 23 + 1234) (-24).

End Demo.
(** ** Text of the sample file: [splitString] *)

Module Parsing.

Import Stdlib.Strings.String.

(** [std::getline(stream, token, delimiter)] on what is left of the
    stream: [None] when it fails, no character being left to extract;
    otherwise the token and what is left behind it.  The delimiter is
    extracted and dropped; the end of the stream ends a token too. *)
Fixpoint getline (stream : string) (delimiter : Ascii.ascii)
    : option (string * string) :=
  match stream with
  | EmptyString => None
  | String c rest =>
      if Ascii.eqb c delimiter then Some (EmptyString, rest)
      else
        match getline rest delimiter with
        | None => Some (String c EmptyString, EmptyString)
        | Some (token, rest') => Some (String c token, rest')
        end
  end.

(** The loop of lines 318-320, run for at most [fuel] tokens. *)
Fixpoint split_loop (fuel : nat) (stream : string) (delimiter : Ascii.ascii)
    (result : list string) : list string :=
  match fuel with
  | O => result
  | S fuel =>
      match getline stream delimiter with
      | None => result
      | Some (token, rest) =>
          split_loop fuel rest delimiter (result ++ [token])
      end
  end.

(** Lines 313-323.  Every [getline] that succeeds takes a character off
    the stream, so the loop ends within [length input] tokens. *)
Definition splitString (input : string) (delimiter : Ascii.ascii)
    : list string :=
  split_loop (S (String.length input)) input delimiter [].

(** *** Vocabulary for its properties *)

(** The character [c] occurs in [s]. *)
Fixpoint occurs (c : Ascii.ascii) (s : string) : bool :=
  match s with
  | EmptyString => false
  | String c' s' => Ascii.eqb c' c || occurs c s'
  end.

(** How often [c] occurs in [s]. *)
Fixpoint occurrences (c : Ascii.ascii) (s : string) : nat :=
  match s with
  | EmptyString => O
  | String c' s' => ((if Ascii.eqb c' c then 1 else 0) + occurrences c s')%nat
  end.

(** [s] is not empty and its last character is [c]. *)
Fixpoint ends_with (c : Ascii.ascii) (s : string) : bool :=
  match s with
  | EmptyString => false
  | String c' EmptyString => Ascii.eqb c' c
  | String _ s' => ends_with c s'
  end.

(** The tokens written out again with [delimiter] between them. *)
Definition join (delimiter : Ascii.ascii) (tokens : list string) : string :=
  concat (String delimiter EmptyString) tokens.

(** The delimiter that ends [s], which [getline] takes off without
    starting a token behind it. *)
Definition dropped_tail (delimiter : Ascii.ascii) (s : string) : string :=
  if ends_with delimiter s then String delimiter EmptyString
  else EmptyString.

End Parsing.

(** ** Reading the sample file: lines 732-754 of [main] *)

Module SampleFile.

Import Stdlib.Strings.String.

(** The character [','] that [main] splits at. *)
Definition comma : Ascii.ascii :=
  Ascii.Ascii false false true true false true false false.

(** How a piece of [main] ends: with a value, with an exception, which
    nothing in [main] catches, or with an access outside a vector. *)
Inductive outcome (A : Type) : Type :=
| Value (a : A)
| Throws
| Undefined.

Arguments Value {A} a.
Arguments Throws {A}.
Arguments Undefined {A}.

(** The number of tokens that [splitString] makes of a line. *)
Definition fields (line : string) : nat :=
  (Parsing.occurrences comma line +
   (if Parsing.ends_with comma line then 0 else
    match line with EmptyString => 0 | _ => 1 end))%nat.

Section Lines.

(** [std::stoi], [std::stoul] and [std::stof]; [None] when they
    throw. *)
Variable stoi : string -> option Z.
Variable stoul : string -> option Z.
Variable stof : string -> option float.

(** Lines 736-738: [sampleWidth] and [sampleHeight] from the first
    line. *)
Definition read_header (firstLine : string) : outcome (Z * Z) :=
  let w_and_h := Parsing.splitString firstLine comma in
  match w_and_h !! 0%nat with
  | None => Undefined
  | Some field0 =>
      match stoi field0 with
      | None => Throws
      | Some sampleWidth =>
          match w_and_h !! 1%nat with
          | None => Undefined
          | Some field1 =>
              match stoi field1 with
              | None => Throws
              | Some sampleHeight => Value (sampleWidth, sampleHeight)
              end
          end
      end
  end.

(** Lines 748-752: the three floats that one line adds to
    [surface_positions]. *)
Definition read_sample (line : string) : outcome (list float) :=
  let s_pos := Parsing.splitString line comma in
  match s_pos !! 0%nat with
  | None => Undefined
  | Some field0 =>
      match stoul field0 with
      | None => Throws
      | Some id =>
          let faceId := id mod 2 ^ 32 in
          match s_pos !! 1%nat with
          | None => Undefined
          | Some field1 =>
              match stof field1 with
              | None => Throws
              | Some w1 =>
                  match s_pos !! 2%nat with
                  | None => Undefined
                  | Some field2 =>
                      match stof field2 with
                      | None => Throws
                      | Some w2 => Value [uint_as_float faceId; w1; w2]
                      end
                  end
              end
          end
      end
  end.

End Lines.

End SampleFile.

(** ** The layout handed to the encoding: lines 663-673 of [main] *)

Module Layout.

(** The list that starts at [meta_host[offset]]: its length, then that
    many entries; [None] when [meta_host] ends before the list does. *)
Definition segment (meta_host : list Z) (offset : Z) : option (list Z) :=
  size ← load meta_host offset;
  let l := take (Z.to_nat size) (drop (Z.to_nat (offset + 1)) meta_host) in
  if bool_decide (Z.of_nat (length l) = size) then Some l else None.

(** The list that slot [k] of [offsets_host] points at. *)
Definition read_back (offsets_host meta_host : list Z) (k : Z)
    : option (list Z) :=
  offset ← load offsets_host k;
  segment meta_host offset.

(** The lists of [adj] one behind the other, each behind its length. *)
Definition encode_lists (adj : list (list Z)) : list Z :=
  flat_map (fun l => int_to_uint (Z.of_nat (length l)) :: l) adj.

(** The number of entries that [adj] takes in [meta_host]. *)
Definition entries (adj : list (list Z)) : Z :=
  foldr (fun l s => 1 + Z.of_nat (length l) + s) 0 adj.

End Layout.

(** ** What the adjacency lists hold *)

Module Incidence.

(** The corners of face [j] as lines 603-606 read them. *)
Definition face_vertices (indices : list index_t) (j : Z)
    : option (Z * Z * Z) :=
  i0 ← load indices (3 * j + 0);
  i1 ← load indices (3 * j + 1);
  i2 ← load indices (3 * j + 2);
  Some (int_to_uint (vertex_index i0),
        int_to_uint (vertex_index i1),
        int_to_uint (vertex_index i2)).

(** Vertex [v] is a corner of face [j]. *)
Definition corner (indices : list index_t) (v j : Z) : bool :=
  match face_vertices indices j with
  | Some (v0, v1, v2) => (v =? v0) || (v =? v1) || (v =? v2)
  | None => false
  end.

(** The faces below [i] with the corner [v], in increasing order. *)
Definition faces_at (indices : list index_t) (i v : Z) : list Z :=
  List.filter (corner indices v) (seqZ 0 i).

(** The faces below [i] with the corners [a] and [b], in increasing
    order. *)
Definition faces_on_edge (indices : list index_t) (i a b : Z) : list Z :=
  List.filter (fun j => corner indices a j && corner indices b j) (seqZ 0 i).

(** The two face slots of the record of an edge with the faces [faces]:
    the first face, and the last one if there is more than one. *)
Definition expected_slots (n_vertices : Z) (faces : list Z) : option (Z * Z) :=
  match faces with
  | [] => None
  | j :: rest =>
      Some (n_vertices + j,
            match rest with
            | [] => Adjacency.NO_FACE
            | _ => n_vertices + List.last rest j
            end)
  end.

(** Lines 617-627 on the records of one edge list: the record of [o]
    gets [c] for its second face, or is added with [c] for its first. *)
Fixpoint note_edge (rs : list (Z * Z * Z)) (o c : Z) : list (Z * Z * Z) :=
  match rs with
  | [] => [(o, c, Adjacency.NO_FACE)]
  | (o', fa, fb) :: rs' =>
      if o' =? o then (o', fa, c) :: rs'
      else (o', fa, fb) :: note_edge rs' o c
  end.

(** The faces noted so far for each edge, held under its smaller
    endpoint [v] with the other endpoint [o]. *)
Definition noted := Z -> Z -> list Z.

(** [faces] with face [i] noted for the edge between [a] and [b]. *)
Definition note (faces : noted) (a b i : Z) : noted :=
  fun v o =>
    if (v =? Z.min a b) && (o =? Z.max a b) then faces v o ++ [i]
    else faces v o.

(** The edge lists hold, for each edge with a face noted, one record
    with the expected slots, and nothing else. *)
Definition edges_hold (n : Z) (adjEdges : list (list Z)) (faces : noted)
    : Prop :=
  Z.of_nat (length adjEdges) = n /\
  forall v e, load adjEdges v = Some e ->
    exists rs, e = Adjacency.flatten rs /\
      Forall (Adjacency.record_ok n v) rs /\
      NoDup ((fun r : Z * Z * Z => r.1.1) <$> rs) /\
      (forall o fa fb, (o, fa, fb) ∈ rs ->
         expected_slots n (faces v o) = Some (fa, fb)) /\
      (forall o, faces v o <> [] ->
         o ∈ (fun r : Z * Z * Z => r.1.1) <$> rs).

(** The faces below [i] noted for every edge. *)
Definition noted_below (indices : list index_t) (i : Z) : noted :=
  fun v o => if v <? o then faces_on_edge indices i v o else [].

(** What holds of [adjFaces] and [adjEdges] when the loop reaches
    face [i]. *)
Definition lists_inv (n : Z) (indices : list index_t) (i : Z)
    (adj : list (list Z) * list (list Z)) : Prop :=
  Z.of_nat (length adj.1) = n /\
  (forall v, 0 <= v < n -> load adj.1 v = Some (faces_at indices i v)) /\
  edges_hold n adj.2 (noted_below indices i).
(** Face [i] has its three corners in the index buffer, with vertex
    indices below [n]; two of them may be the same. *)
Definition face_in_range (n : Z) (indices : list index_t) (i : Z) : Prop :=
  exists v0 v1 v2,
    face_vertices indices i = Some (v0, v1, v2) /\
    v0 < n /\ v1 < n /\ v2 < n.

(** Edge lists of whole records, with endpoints below [n] and face
    slots from [n] up. *)
Definition edges_plain (n : Z) (adjEdges : list (list Z)) : Prop :=
  Z.of_nat (length adjEdges) = n /\
  forall v e, load adjEdges v = Some e ->
    exists rs, e = Adjacency.flatten rs /\
      Forall (fun r : Z * Z * Z =>
                0 <= r.1.1 < n /\ Adjacency.face_slots_ok n r) rs.

End Incidence.

(** ** The draws of [curand_uniform] *)

Module Draws.

(** A value that [curand_uniform] can return: a normal binary32 above
    0 and not above 1. *)
Definition uniform_draw (u : float) : bool :=
  match u with
  | Ffinite false m e =>
      (2 ^ 23 <=? Z.pos m) && (Z.pos m <? 2 ^ 24) && (-149 <=? e) &&
      ((e <? -23) || ((e =? -23) && (Z.pos m =? 2 ^ 23)))
  | _ => false
  end.

End Draws.

(** ** The writes of a thread *)

Module Writes.

(** A sequence of stores, each at its index. *)
Fixpoint overwrite {A : Type} (ws : list (Z * A)) (buf : list A)
    : option (list A) :=
  match ws with
  | [] => Some buf
  | (k, v) :: ws => buf ← store buf k v; overwrite ws buf
  end.

(** Every store of [ws] goes to one of the [size] slots of sample
    [idx]. *)
Definition within {A : Type} (size idx : Z) (ws : list (Z * A)) : Prop :=
  Forall (fun kv => idx * size <= kv.1 < (idx + 1) * size) ws.

(** A thread of a kernel that does a fixed sequence of stores inside
    its own sample, whatever the buffer holds, or is undefined whatever
    the buffer holds. *)
Definition writes_own_sample (size idx : Z)
    (thread : list float -> option (list float)) : Prop :=
  exists ows : option (list (Z * float)),
    (forall ws, ows = Some ws -> within size idx ws) /\
    forall result, thread result = ws ← ows; overwrite ws result.

End Writes.

(** ** The reported error: [res.MSE] of [trainAndEvaluate] *)

Module Report.

Section Result.

Variable loss : Z -> float.

(** [res.MSE] when the loop of line 386 has run its [n] steps.  Only
    the last step writes it (lines 389 and 418-421), after adding its
    own loss if it is a step that does (line 409) and before the sum is
    printed and reset; with no step at all it is never written. *)
Definition MSE (n : Z) : option float :=
  if n <=? 0 then None
  else
    let i := n - 1 in
    let st := Training.run loss i in
    let tmp_loss :=
      if Training.accumulates i st
      then fadd (Training.tmp_loss st) (loss i)
      else Training.tmp_loss st in
    let tmp_loss_counter :=
      if Training.accumulates i st
      then (Training.tmp_loss_counter st + 1) mod 2 ^ 32
      else Training.tmp_loss_counter st in
    Some (fdiv tmp_loss (of_uint tmp_loss_counter)).

End Result.

End Report.

(** ** Materials: [loadTexture] and lines 692-706 of [main] *)

Module Assets.

(** What [load_image] does with a file: it returns the pixels, or
    throws; [width] and [height] are what it leaves in its two
    reference parameters. *)
Inductive image_load : Type :=
| Loaded (width height : Z) (image : list float)
| Threw (width height : Z).

(** The fields of [tinyobj::material_t] that [main] reads. *)
Record material_t := mkMaterial_t
  { mt_diffuse : float * float * float;
    diffuse_texname : String.string;
    bump_texname : String.string }.

Section Loading.

Variable load_image : String.string -> image_load.

(** [cudaCreateTextureObject] on the image: the texture handle, or
    [None] when the call fails and [CUDA_CHECK_THROW] throws. *)
Variable cudaCreateTextureObject : list float -> Z -> Z -> option Z.

(** Lines 473-502; [None] when the exception of line 499 leaves the
    function. *)
Definition loadTexture (path : String.string) (tex : Texture)
    : option Texture :=
  match load_image path with
  | Threw w h => Some (mkTexture false (texture tex) w h)
  | Loaded w h image =>
      match cudaCreateTextureObject image w h with
      | Some t => Some (mkTexture true t w h)
      | None => None
      end
  end.

(** One round of the loop of lines 697-703, on [materials_host[i]]. *)
Definition load_material (object_basedir : String.string) (mt : material_t)
    (m : Material) : option Material :=
  let diffuse := mt_diffuse mt in
  Kd ← loadTexture (String.append object_basedir (diffuse_texname mt))
         (map_Kd m);
  Bump ← loadTexture (String.append object_basedir (bump_texname mt))
           (map_Bump m);
  Some (mkMaterial diffuse Kd Bump).

End Loading.

End Assets.

(** ** Images: the kernel [to_ldr] *)

Module Image.

Section Ldr.

(** The byte of a colour value,
    [(uint8_t)(powf(fmaxf(fminf(x, 1.0f), 0.0f), 1.0f / 2.2f) * 255.0f + 0.5f)],
    with the [powf] of the device. *)
Variable gamma_byte : float -> Z.

(** One thread of the kernel, lines 103-122; [i], [pixel] and the index
    into [input] are 64-bit unsigned. *)
Definition to_ldr (num_elements n_channels stride offset : Z)
    (input mask : list float) (i : Z) (out : list Z) : option (list Z) :=
  if i >=? num_elements then Some out
  else
    let pixel := i / 4 in
    let channel := i - pixel * 4 in
    w1 ← load mask (pixel * N_INPUT_DIMS + 1);
    masked ←
      (if fltb w1 fzero then Some true
       else w2 ← load mask (pixel * N_INPUT_DIMS + 2);
            Some (fltb w2 fzero));
    if masked : bool then store out i 0
    else if channel <? n_channels then
      v ← load input ((pixel * stride + channel + offset) mod 2 ^ 64);
      store out i (gamma_byte v)
    else if channel <? 3 then store out i 0
    else store out i 255.

(** The call of line 145 for the image of channel group [g]. *)
Definition to_ldr_group (width height g : Z) (data mask : list float)
    : Z -> list Z -> option (list Z) :=
  to_ldr (width * height * 4) 3 N_OUTPUT_DIMS (g * 3) data mask.

End Ldr.

End Image.

(** ** More small concrete inputs *)

Module Samples.

(** A material with a bump map and no diffuse map. *)
Definition bumpy : Material :=
  mkMaterial (fhalf, fone, fzero) Demo.no_texture (mkTexture true 9 2 2).

(** A loader for which no file is an image. *)
Definition no_image (path : String.string) : Assets.image_load :=
  Assets.Threw 0 0.

Definition no_handle (image : list float) (w h : Z) : option Z := None.

(** A .mtl entry with a colour and no texture names. *)
Definition plain : Assets.material_t :=
  Assets.mkMaterial_t (fhalf, fone, fzero) String.EmptyString
    String.EmptyString.

(** The material that lines 697-703 make of it. *)
Definition plain_loaded : Material :=
  mkMaterial (fhalf, fone, fzero) (mkTexture false 0 0 0)
    (mkTexture false 0 0 0).

(** The batch of a two-pixel image: the second sample is marked as
    background by its weights of -1. *)
Definition mask : list float :=
  [uint_as_float 0; fhalf; fhalf;
   uint_as_float 0; Ffinite true (2 ^ 23) (-23); Ffinite true (2 ^ 23) (-23)].

Definition bytes (x : float) : Z := if is_zero x then 0 else 255.

End Samples.

Module SampleLines.

Import Stdlib.Strings.String.

(** A first line that holds the width only. *)
Definition lone_width : string := "640"%string.

(** A line whose third field is missing. *)
Definition short_line : string := "7,0.5,"%string.

Definition any_number (s : string) : option Z := Some 7.

Definition any_float (s : string) : option float := Some fhalf.

End SampleLines.

(** ** The buffers of a mesh as the resolver needs them *)

Module Scene.

(** Face [f] has its three corners in the index buffer, their texture
    coordinates in [texcoords], and a material in [materials]. *)
Definition face_resolvable (materials : list Material)
    (material_ids : list Z) (indices : list index_t)
    (texcoords : list float) (f : Z) : Prop :=
  (exists i1 i2 i3,
     load indices (3 * f + 0) = Some i1 /\
     load indices (3 * f + 1) = Some i2 /\
     load indices (3 * f + 2) = Some i3 /\
     0 <= 2 * texcoord_index i1 /\
     2 * texcoord_index i1 + 1 < Z.of_nat (length texcoords) /\
     0 <= 2 * texcoord_index i2 /\
     2 * texcoord_index i2 + 1 < Z.of_nat (length texcoords) /\
     0 <= 2 * texcoord_index i3 /\
     2 * texcoord_index i3 + 1 < Z.of_nat (length texcoords)) /\
  is_Some (Resolver.face_material materials material_ids f).

End Scene.


(** * Properties *)

(** ** Bit patterns *)

Lemma testbit_above (a n k : Z) :
  0 <= a < 2 ^ k -> 0 <= k <= n -> Z.testbit a n = false.
Proof.
  intros Ha Hk.
  destruct (Z.eq_dec a 0) as [->|Hne]; [apply Z.bits_0|].
  apply Z.bits_above_log2; [lia|].
  apply Z.lt_le_trans with k; [|lia].
  apply Z.log2_lt_pow2; lia.
Qed.

Lemma fields_uint_testbit b n :
  well_formed b -> 0 <= n ->
  Z.testbit (fields_uint b) n =
    if n <? 23 then Z.testbit (ffrac b) n
    else if n <? 31 then Z.testbit (fexpo b) (n - 23)
    else if n =? 31 then fsign b else false.
Proof.
  intros [He Hm] Hn. unfold fields_uint.
  rewrite !Z.lor_spec, !Z.shiftl_spec by lia.
  destruct (n <? 23) eqn:E1; [apply Z.ltb_lt in E1|apply Z.ltb_ge in E1].
  - rewrite (Z.testbit_neg_r _ (n - 31)), (Z.testbit_neg_r _ (n - 23)) by lia.
    reflexivity.
  - rewrite (testbit_above (ffrac b) n 23) by lia. rewrite orb_false_r.
    destruct (n <? 31) eqn:E2; [apply Z.ltb_lt in E2|apply Z.ltb_ge in E2].
    + rewrite (Z.testbit_neg_r _ (n - 31)) by lia. reflexivity.
    + rewrite (testbit_above (fexpo b) (n - 23) 8) by lia.
      rewrite orb_false_r.
      destruct (n =? 31) eqn:E3; [apply Z.eqb_eq in E3|apply Z.eqb_neq in E3].
      * subst n. destruct (fsign b); reflexivity.
      * apply (testbit_above _ _ 1); [destruct (fsign b); simpl; lia | lia].
Qed.

Lemma uint_fields_well_formed n : well_formed (uint_fields n).
Proof.
  unfold well_formed, uint_fields; simpl fexpo; simpl ffrac.
  rewrite !Z.land_ones by lia.
  split; apply Z.mod_pos_bound; lia.
Qed.

Lemma fields_uint_fields n :
  0 <= n < 2 ^ 32 -> fields_uint (uint_fields n) = n.
Proof.
  intros Hx. apply Z.bits_inj'. intros k Hk.
  rewrite fields_uint_testbit by (auto using uint_fields_well_formed).
  unfold uint_fields; simpl.
  destruct (k <? 23) eqn:E1; [apply Z.ltb_lt in E1|apply Z.ltb_ge in E1].
  - rewrite Z.land_spec, Z.testbit_ones_nonneg by lia.
    replace (k <? 23) with true by (symmetry; apply Z.ltb_lt; lia).
    apply andb_true_r.
  - destruct (k <? 31) eqn:E2; [apply Z.ltb_lt in E2|apply Z.ltb_ge in E2].
    + rewrite Z.land_spec, Z.shiftr_spec, Z.testbit_ones_nonneg by lia.
      replace (k - 23 <? 8) with true by (symmetry; apply Z.ltb_lt; lia).
      rewrite andb_true_r. f_equal. lia.
    + destruct (k =? 31) eqn:E3; [apply Z.eqb_eq in E3|apply Z.eqb_neq in E3].
      * subst; reflexivity.
      * symmetry. apply (testbit_above _ _ 32); lia.
Qed.

(** A pattern is the pattern of the value it stands for, NaNs included. *)
Lemma encode_decode b : well_formed b -> encode (decode b) = b.
Proof.
  destruct b as [s e m]. unfold well_formed, decode, encode; simpl.
  intros [He Hm].
  destruct (Z.eqb_spec e 255) as [->|He255].
  - destruct (Z.eqb_spec m 0) as [->|Hm0]; reflexivity.
  - destruct (Z.eqb_spec e 0) as [->|He0].
    + destruct (Z.eqb_spec m 0) as [->|Hm0]; [reflexivity|].
      rewrite Z2Pos.id by lia.
      destruct (Z.ltb_spec m (2 ^ 23)); [reflexivity|lia].
    + rewrite Z2Pos.id by lia.
      destruct (Z.ltb_spec (m + 2 ^ 23) (2 ^ 23)); [lia|].
      f_equal; lia.
Qed.

(** Every 32-bit pattern comes back from a float unchanged. *)
Lemma float_as_uint_as_float n :
  0 <= n < 2 ^ 32 -> float_as_uint (uint_as_float n) = n.
Proof.
  intros Hn. unfold float_as_uint, uint_as_float.
  rewrite encode_decode by apply uint_fields_well_formed.
  by apply fields_uint_fields.
Qed.

(** ** Buffers *)

Section BufferFacts.

Context {A : Type}.
Implicit Types (buf : list A) (i j : Z) (v : A).

Lemma store_Some buf i v :
  0 <= i < Z.of_nat (length buf) ->
  store buf i v = Some (<[Z.to_nat i := v]> buf).
Proof.
  intros H. unfold store.
  destruct (0 <=? i) eqn:E1; [|apply Z.leb_gt in E1; lia].
  destruct (i <? Z.of_nat (length buf)) eqn:E2; [|apply Z.ltb_ge in E2; lia].
  reflexivity.
Qed.

Lemma store_inv buf i v buf' :
  store buf i v = Some buf' ->
  0 <= i < Z.of_nat (length buf) /\ buf' = <[Z.to_nat i := v]> buf.
Proof.
  unfold store.
  destruct (0 <=? i) eqn:E1; [apply Z.leb_le in E1|discriminate].
  destruct (i <? Z.of_nat (length buf)) eqn:E2;
    [apply Z.ltb_lt in E2|discriminate].
  simpl. intros [= <-]. auto.
Qed.

Lemma load_store_eq buf i v buf' :
  store buf i v = Some buf' -> load buf' i = Some v.
Proof.
  intros H. apply store_inv in H as [Hi ->]. unfold load.
  destruct (i <? 0) eqn:E; [apply Z.ltb_lt in E; lia|].
  apply list_lookup_insert_eq. lia.
Qed.

Lemma load_store_ne buf i j v buf' :
  store buf i v = Some buf' -> i <> j -> load buf' j = load buf j.
Proof.
  intros H Hne. apply store_inv in H as [Hi ->]. unfold load.
  destruct (j <? 0) eqn:E; [reflexivity|apply Z.ltb_ge in E].
  apply list_lookup_insert_ne. lia.
Qed.

Lemma load_Some_bound buf i v :
  load buf i = Some v -> 0 <= i < Z.of_nat (length buf).
Proof.
  unfold load. destruct (i <? 0) eqn:E; [discriminate|apply Z.ltb_ge in E].
  intros H. apply lookup_lt_Some in H. lia.
Qed.

Lemma load_None buf i :
  ~ (0 <= i < Z.of_nat (length buf)) -> load buf i = None.
Proof.
  intros H. destruct (load buf i) eqn:E; [|reflexivity].
  apply load_Some_bound in E. tauto.
Qed.

Lemma load_is_Some buf i :
  0 <= i < Z.of_nat (length buf) -> is_Some (load buf i).
Proof.
  intros H. unfold load.
  destruct (i <? 0) eqn:E; [apply Z.ltb_lt in E; lia|].
  apply lookup_lt_is_Some. lia.
Qed.

End BufferFacts.

(** Runs a chain of in-bounds stores. *)
Ltac run_stores :=
  repeat (rewrite store_Some by (rewrite ?length_insert; lia); simpl).

(** Reads a slot back through a stack of updates. *)
Ltac read_slot :=
  unfold load;
  repeat match goal with
         | |- context [?z <? 0] =>
             let E := fresh "E" in
             destruct (z <? 0) eqn:E;
             [apply Z.ltb_lt in E; lia|clear E]
         end;
  rewrite ?list_lookup_insert_ne by lia;
  first [ reflexivity
        | apply list_lookup_insert_eq; rewrite ?length_insert; lia ].

(** A slot outside the written ones keeps its value. *)
Ltac frame_slot :=
  let j := fresh "j" in
  let Hj := fresh "Hj" in
  let E := fresh "E" in
  intros j Hj; unfold load;
  destruct (j <? 0) eqn:E; [reflexivity|apply Z.ltb_ge in E];
  rewrite !list_lookup_insert_ne by lia; reflexivity.

(** ** Loops *)

Lemma for_loop_invariant {S : Type} (body : Z -> S -> option S)
    (Inv : Z -> S -> Prop) (count : nat) (i : Z) (s : S) :
  Inv i s ->
  (forall j t, i <= j < i + Z.of_nat count -> Inv j t ->
     exists t', body j t = Some t' /\ Inv (j + 1) t') ->
  exists s', for_loop body count i s = Some s' /\ Inv (i + Z.of_nat count) s'.
Proof.
  revert i s. induction count as [|c IH]; intros i s Hs Hbody.
  - exists s. split; [reflexivity|].
    by replace (i + Z.of_nat 0) with i by lia.
  - destruct (Hbody i s) as (t & Ht & Hinv); [lia|assumption|].
    simpl. rewrite Ht. simpl.
    destruct (IH (i + 1) t) as (s' & Hs' & Hinv'); [assumption| |].
    + intros j u Hj. apply Hbody. lia.
    + exists s'. split; [assumption|].
      by replace (i + Z.of_nat (Datatypes.S c))
        with (i + 1 + Z.of_nat c) by lia.
Qed.

Lemma iterate_succ {S : Type} (body : Z -> S -> S) c i s :
  iterate body (Datatypes.S c) i s
  = body (i + Z.of_nat c) (iterate body c i s).
Proof.
  revert i s. induction c as [|c IH]; intros i s.
  - simpl. by replace (i + Z.of_nat 0) with i by lia.
  - change (iterate body (Datatypes.S (Datatypes.S c)) i s)
      with (iterate body (Datatypes.S c) (i + 1) (body i s)).
    rewrite IH. simpl. f_equal. lia.
Qed.

(** ** Rounding in [SpecFloat], as far as signs and the bound 1 go *)

Lemma digits2_pos_size p : digits2_pos p = Pos.size p.
Proof. induction p as [p IH|p IH|]; simpl; congruence. Qed.

Lemma Zdigits2_le m k : 0 <= m < 2 ^ k -> 0 <= k -> Zdigits2 m <= k.
Proof.
  intros [H0 H1] Hk. destruct m as [|p|p]; simpl; [lia| |lia].
  rewrite digits2_pos_size.
  pose proof (Pos.size_le p) as Hs.
  assert (H2 : 2 ^ Z.pos (Pos.size p) <= 2 * Z.pos p).
  { change (2 * Z.pos p) with (Z.pos p~0).
    rewrite <- Pos2Z.inj_pow. apply Pos2Z.pos_le_pos. exact Hs. }
  destruct (Z.le_gt_cases (Z.pos (Pos.size p)) k) as [Hle|Hgt]; [exact Hle|].
  exfalso.
  assert (2 ^ (k + 1) <= 2 ^ Z.pos (Pos.size p))
    by (apply Z.pow_le_mono_r; lia).
  rewrite Z.pow_add_r in H by lia. lia.
Qed.

Lemma shr_1_m mrs : 0 <= shr_m mrs -> shr_m (shr_1 mrs) = shr_m mrs / 2.
Proof.
  destruct mrs as [m r s]. cbn [shr_m]. intros Hm.
  destruct m as [|[p|p|]|p]; cbn [shr_1 shr_m]; try lia; try reflexivity.
  - apply Z.div_unique with 1; lia.
  - apply Z.div_unique with 0; lia.
Qed.

Lemma iter_pos_shr_1 p mrs :
  0 <= shr_m mrs ->
  shr_m (SpecFloat.iter_pos shr_1 p mrs) = shr_m mrs / 2 ^ Z.pos p.
Proof.
  revert mrs. induction p as [p IH|p IH|]; intros mrs Hm;
    simpl SpecFloat.iter_pos.
  - assert (H1 : 0 <= shr_m (shr_1 mrs))
      by (rewrite shr_1_m by assumption; apply Z.div_pos; lia).
    assert (H2 : 0 <= shr_m (SpecFloat.iter_pos shr_1 p (shr_1 mrs)))
      by (rewrite IH by assumption; apply Z.div_pos; lia).
    rewrite IH, IH, shr_1_m by assumption.
    rewrite !Z.div_div by lia. f_equal.
    rewrite (Pos2Z.inj_xI p).
    replace (2 * Z.pos p + 1) with (1 + Z.pos p + Z.pos p) by lia.
    rewrite (Z.pow_add_r 2 (1 + Z.pos p) (Z.pos p)) by lia.
    rewrite (Z.pow_add_r 2 1 (Z.pos p)) by lia.
    change (2 ^ 1) with 2. ring.
  - assert (H2 : 0 <= shr_m (SpecFloat.iter_pos shr_1 p mrs))
      by (rewrite IH by assumption; apply Z.div_pos; lia).
    rewrite IH, IH by assumption.
    rewrite !Z.div_div by lia. f_equal.
    rewrite (Pos2Z.inj_xO p).
    replace (2 * Z.pos p) with (Z.pos p + Z.pos p) by lia.
    rewrite (Z.pow_add_r 2 (Z.pos p) (Z.pos p)) by lia. ring.
  - rewrite shr_1_m by assumption. reflexivity.
Qed.

Lemma shr_record_of_loc_m m l : shr_m (shr_record_of_loc m l) = m.
Proof. destruct l as [|[]]; reflexivity. Qed.

(** [shr_fexp] moves the exponent up to [fexp] and drops the low bits. *)
Lemma shr_fexp_spec m e l :
  0 <= m ->
  snd (shr_fexp prec emax m e l)
  = Z.max e (fexp prec emax (Zdigits2 m + e)) /\
  shr_m (fst (shr_fexp prec emax m e l))
  = m / 2 ^ (snd (shr_fexp prec emax m e l) - e).
Proof.
  intros Hm. unfold shr_fexp, shr.
  pose proof (shr_record_of_loc_m m l) as Hrec.
  destruct (fexp prec emax (Zdigits2 m + e) - e) as [|p|p] eqn:En; simpl.
  - rewrite Hrec, Z.sub_diag, Z.div_1_r. split; [lia|reflexivity].
  - rewrite iter_pos_shr_1 by (rewrite Hrec; exact Hm).
    rewrite Hrec. split; [lia|]. f_equal. f_equal. lia.
  - rewrite Hrec, Z.sub_diag, Z.div_1_r. split; [lia|reflexivity].
Qed.

Lemma round_nearest_even_bounds m l :
  m <= round_nearest_even m l <= m + 1.
Proof.
  destruct l as [|[]]; simpl; try lia. destruct (Z.even m); lia.
Qed.

Lemma at_most_one_signed sx v : at_most_one sx v -> signed sx v.
Proof. destruct v; simpl; tauto. Qed.

Lemma fexp_nonpos x : x <= 24 -> fexp prec emax x <= 0.
Proof. unfold fexp, emin, prec, emax. lia. Qed.

Lemma binary_round_aux_signed sx mx ex lx :
  0 <= mx -> signed sx (binary_round_aux prec emax sx mx ex lx).
Proof.
  intros Hmx. unfold binary_round_aux.
  pose proof (shr_fexp_spec mx ex lx Hmx) as [_ H1].
  destruct (shr_fexp prec emax mx ex lx) as [mrs1 e1]. simpl in H1.
  assert (Hm1 : 0 <= shr_m mrs1)
    by (rewrite H1; apply Z_div_nonneg_nonneg; [lia|apply Z.pow_nonneg; lia]).
  pose proof (round_nearest_even_bounds (shr_m mrs1) (loc_of_shr_record mrs1))
    as Hr.
  pose proof (shr_fexp_spec
                (round_nearest_even (shr_m mrs1) (loc_of_shr_record mrs1))
                e1 loc_Exact ltac:(lia)) as [_ H2].
  destruct (shr_fexp prec emax
              (round_nearest_even (shr_m mrs1) (loc_of_shr_record mrs1))
              e1 loc_Exact) as [mrs2 e2]. simpl in H2.
  assert (Hm2 : 0 <= shr_m mrs2)
    by (rewrite H2; apply Z_div_nonneg_nonneg; [lia|apply Z.pow_nonneg; lia]).
  destruct (shr_m mrs2) as [|p|p]; simpl; [reflexivity| |lia].
  destruct (e2 <=? emax - prec); reflexivity.
Qed.

Lemma div_pow2_lt m a b :
  0 <= m -> 0 <= a -> 0 <= b -> m < 2 ^ (a + b) -> m / 2 ^ a < 2 ^ b.
Proof.
  intros Hm Ha Hb H. apply Z.div_lt_upper_bound; [apply Z.pow_pos_nonneg; lia|].
  by rewrite <- Z.pow_add_r by lia.
Qed.

Lemma div_pow2_le m a b :
  0 <= m -> 0 <= a -> 0 <= b -> m <= 2 ^ (a + b) -> m / 2 ^ a <= 2 ^ b.
Proof.
  intros Hm Ha Hb H.
  rewrite Z.pow_add_r in H by lia.
  apply Z.div_le_upper_bound; [apply Z.pow_pos_nonneg; lia|exact H].
Qed.

(** A value below 1 rounds to at most 1. *)
Lemma binary_round_aux_at_most_one sx mx ex lx :
  0 <= mx -> ex <= 0 -> mx < 2 ^ (- ex) ->
  at_most_one sx (binary_round_aux prec emax sx mx ex lx).
Proof.
  intros Hmx Hex Hlt. unfold binary_round_aux.
  pose proof (shr_fexp_spec mx ex lx Hmx) as [E1 H1].
  destruct (shr_fexp prec emax mx ex lx) as [mrs1 e1].
  simpl in E1, H1.
  assert (Hd : Zdigits2 mx <= - ex) by (apply Zdigits2_le; lia).
  pose proof (fexp_nonpos (Zdigits2 mx + ex) ltac:(lia)) as Hf1.
  assert (He1 : ex <= e1 <= 0) by lia.
  assert (Hm1 : 0 <= shr_m mrs1 < 2 ^ (- e1)).
  { rewrite H1. split; [apply Z.div_pos; [lia|apply Z.pow_pos_nonneg; lia]|].
    apply div_pow2_lt; try lia.
    replace (e1 - ex + - e1) with (- ex) by lia. exact Hlt. }
  pose proof (round_nearest_even_bounds (shr_m mrs1) (loc_of_shr_record mrs1))
    as Hr.
  set (m2 := round_nearest_even (shr_m mrs1) (loc_of_shr_record mrs1)) in *.
  pose proof (shr_fexp_spec m2 e1 loc_Exact ltac:(lia)) as [E2 H2].
  destruct (shr_fexp prec emax m2 e1 loc_Exact) as [mrs2 e2].
  simpl in E2, H2.
  assert (Hd2 : Zdigits2 m2 <= - e1 + 1).
  { apply Zdigits2_le; [|lia]. split; [lia|].
    rewrite Z.pow_add_r by lia. change (2 ^ 1) with 2. lia. }
  pose proof (fexp_nonpos (Zdigits2 m2 + e1) ltac:(lia)) as Hf2.
  assert (He2 : e1 <= e2 <= 0) by lia.
  assert (Hm2 : 0 <= shr_m mrs2 <= 2 ^ (- e2)).
  { rewrite H2. split; [apply Z.div_pos; [lia|apply Z.pow_pos_nonneg; lia]|].
    apply div_pow2_le; try lia.
    replace (e2 - e1 + - e2) with (- e1) by lia. lia. }
  destruct (shr_m mrs2) as [|p|p]; simpl; [reflexivity| |lia].
  destruct (Z.leb_spec e2 (emax - prec)) as [_|Hbad];
    [|unfold emax, prec in Hbad; lia].
  simpl. repeat split; lia.
Qed.

Lemma iter_xO_pow mx d : Z.pos (Pos.iter xO mx d) = Z.pos mx * 2 ^ Z.pos d.
Proof.
  induction d as [|d IH] using Pos.peano_ind.
  - simpl. lia.
  - rewrite Pos.iter_succ, Pos2Z.inj_succ, Z.pow_succ_r by lia.
    rewrite (Pos2Z.inj_xO (Pos.iter xO mx d)), IH. ring.
Qed.

Lemma shl_align_spec mx ex ex' :
  snd (shl_align mx ex ex') <= ex /\
  Z.pos (fst (shl_align mx ex ex'))
  = Z.pos mx * 2 ^ (ex - snd (shl_align mx ex ex')) /\
  (ex' <= ex -> snd (shl_align mx ex ex') = ex').
Proof.
  unfold shl_align. destruct (ex' - ex) as [|d|d] eqn:E; simpl.
  - rewrite Z.sub_diag. split; [lia|]. split; lia.
  - rewrite Z.sub_diag. split; [lia|]. split; lia.
  - split; [lia|]. split; [|lia].
    rewrite iter_xO_pow. f_equal. f_equal. lia.
Qed.

Lemma binary_round_signed sx mx ex :
  signed sx (binary_round prec emax sx mx ex).
Proof.
  unfold binary_round.
  destruct (shl_align mx ex (fexp prec emax (Z.pos (digits2_pos mx) + ex)))
    as [mz ez].
  apply binary_round_aux_signed. lia.
Qed.

Lemma binary_round_at_most_one sx mx ex :
  ex <= 0 -> Z.pos mx < 2 ^ (- ex) ->
  at_most_one sx (binary_round prec emax sx mx ex).
Proof.
  intros Hex Hlt. unfold binary_round.
  pose proof (shl_align_spec mx ex
                (fexp prec emax (Z.pos (digits2_pos mx) + ex)))
    as (Hle & Hval & _).
  destruct (shl_align mx ex (fexp prec emax (Z.pos (digits2_pos mx) + ex)))
    as [mz ez]. simpl in Hle, Hval.
  apply binary_round_aux_at_most_one; [lia|lia|].
  rewrite Hval. replace (- ez) with (- ex + (ex - ez)) by lia.
  rewrite Z.pow_add_r by lia.
  apply Z.mul_lt_mono_pos_r; [apply Z.pow_pos_nonneg; lia|exact Hlt].
Qed.

(** The square root of a value below 1 is at most 1. *)
Lemma SFsqrt_at_most_one m e :
  e < 0 -> Z.pos m < 2 ^ (- e) ->
  at_most_one false (SFsqrt prec emax (S754_finite false m e)).
Proof.
  intros He Hlt. unfold SFsqrt, SFsqrt_core_binary.
  set (e' := Z.min (fexp prec emax
                      (Z.div2 (Zdigits2 (Z.pos m) + e + 1))) (Z.div2 e)).
  assert (He' : 2 * e' <= e /\ e' < 0).
  { subst e'. rewrite (Z.div2_div e).
    pose proof (Z.div_mod e 2 ltac:(lia)).
    pose proof (Z.mod_pos_bound e 2 ltac:(lia)). lia. }
  set (m' := match e - 2 * e' with
             | 0 => Z.pos m
             | Z.pos _ => Z.shiftl (Z.pos m) (e - 2 * e')
             | Z.neg _ => 0
             end).
  assert (Hm' : m' = Z.pos m * 2 ^ (e - 2 * e')).
  { subst m'. destruct (e - 2 * e') as [|p|p] eqn:Es; [simpl; lia| |lia].
    apply Z.shiftl_mul_pow2. lia. }
  assert (Hm'0 : 0 <= m') by (rewrite Hm'; apply Z.mul_nonneg_nonneg;
                               [lia|apply Z.pow_nonneg; lia]).
  pose proof (Z.sqrtrem_spec m' Hm'0) as Hsq.
  destruct (Z.sqrtrem m') as [q r]. destruct Hsq as [Hqr Hr].
  apply binary_round_aux_at_most_one; [lia|lia|].
  assert (Hp : 2 ^ (- e') * 2 ^ (- e') = 2 ^ (- e) * 2 ^ (e - 2 * e')).
  { rewrite <- !Z.pow_add_r by lia. f_equal. lia. }
  assert (Hpos : 0 < 2 ^ (e - 2 * e')) by (apply Z.pow_pos_nonneg; lia).
  assert (Hpos' : 0 < 2 ^ (- e')) by (apply Z.pow_pos_nonneg; lia).
  destruct (Z.lt_ge_cases q (2 ^ (- e'))) as [Hok|Hbad]; [exact Hok|].
  exfalso.
  assert (2 ^ (- e') * 2 ^ (- e') <= q * q) by nia.
  assert (m' < 2 ^ (- e) * 2 ^ (e - 2 * e')) by (rewrite Hm'; nia).
  lia.
Qed.

Lemma at_most_one_small v : at_most_one false v -> small v.
Proof. destruct v as [s|s| |[] m e]; simpl; intuition congruence. Qed.

Lemma signed_nonneg v : signed false v -> nonneg v.
Proof. destruct v as [s|s| |s m e]; simpl; intros H; subst; done. Qed.

Lemma to_spec_of_spec v : to_spec (of_spec v) = v.
Proof. by destruct v. Qed.

Lemma sqrt_small r :
  Sampler.unit_draw r = true -> small (SFsqrt prec emax (to_spec r)).
Proof.
  destruct r as [s|s|s p|[] m e]; simpl; try discriminate; [done|].
  intros H. apply andb_true_iff in H as [He Hm].
  apply Z.ltb_lt in He, Hm.
  apply at_most_one_small, SFsqrt_at_most_one; assumption.
Qed.

Lemma one_aligned m e :
  e <= 0 ->
  let ez := Z.min (-23) e in
  Z.pos (fst (shl_align (2 ^ 23) (-23) ez)) = 2 ^ (- ez) /\
  Z.pos (fst (shl_align m e ez)) = Z.pos m * 2 ^ (e - ez) /\
  2 ^ (- ez) = 2 ^ (- e) * 2 ^ (e - ez).
Proof.
  intros He ez.
  pose proof (shl_align_spec (2 ^ 23) (-23) ez) as (_ & V1 & S1).
  pose proof (shl_align_spec m e ez) as (_ & V2 & S2).
  rewrite S1 in V1 by lia. rewrite S2 in V2 by lia.
  split; [|split; [exact V2|]].
  - rewrite V1. change (Z.pos (2 ^ 23)) with (2 ^ 23).
    rewrite <- Z.pow_add_r by lia. f_equal. lia.
  - rewrite <- Z.pow_add_r by lia. f_equal. lia.
Qed.

(** [1.0f - v] is not negative when [v] is at most 1. *)
Lemma one_minus_small_nonneg v :
  small v -> nonneg (SFsub prec emax (to_spec fone) v).
Proof.
  destruct v as [s|s| |[] m e]; simpl; try contradiction; [done|].
  intros [He Hm]. apply signed_nonneg.
  unfold SFsub; simpl to_spec; cbv iota beta.
  destruct (one_aligned m e He) as (V1 & V2 & P).
  simpl cond_Zopp. rewrite V1, V2.
  assert (Hd : 0 <= 2 ^ (- Z.min (-23) e) - Z.pos m * 2 ^ (e - Z.min (-23) e)).
  { rewrite P.
    assert (0 < 2 ^ (e - Z.min (-23) e)) by (apply Z.pow_pos_nonneg; lia).
    nia. }
  destruct (2 ^ (- Z.min (-23) e) - Z.pos m * 2 ^ (e - Z.min (-23) e))
    as [|p|p]; simpl; [reflexivity| |lia].
  apply binary_round_signed.
Qed.

(** [1.0f - r] is at most 1 for a draw [r]. *)
Lemma one_minus_draw_small r :
  Sampler.unit_draw r = true ->
  small (SFsub prec emax (to_spec fone) (to_spec r)).
Proof.
  destruct r as [s|s|s p|[] m e]; simpl; try discriminate.
  - intros _. split; [lia|]. simpl. lia.
  - intros H. apply andb_true_iff in H as [He Hm].
    apply Z.ltb_lt in He, Hm. apply at_most_one_small.
    unfold SFsub; simpl to_spec; cbv iota beta.
    destruct (one_aligned m e ltac:(lia)) as (V1 & V2 & P).
    simpl cond_Zopp. rewrite V1, V2.
    assert (Hpos : 0 < 2 ^ (e - Z.min (-23) e))
      by (apply Z.pow_pos_nonneg; lia).
    assert (Hd : 0 < 2 ^ (- Z.min (-23) e)
                     - Z.pos m * 2 ^ (e - Z.min (-23) e)
                 < 2 ^ (- Z.min (-23) e)).
    { rewrite P. nia. }
    destruct (2 ^ (- Z.min (-23) e) - Z.pos m * 2 ^ (e - Z.min (-23) e))
      as [|p|p]; simpl; [lia| |lia].
    apply binary_round_at_most_one; lia.
Qed.

Lemma mul_small_nonneg a b :
  small a -> small b -> nonneg (SFmul prec emax a b).
Proof.
  destruct a as [sa|sa| |[] ma ea]; simpl; try contradiction;
    destruct b as [sb|sb| |[] mb eb]; simpl; try contradiction;
    intros _ _; try done.
  apply signed_nonneg, binary_round_aux_signed. lia.
Qed.

Lemma powerRZ_2_nonneg k : 0 <= k -> powerRZ 2 k = IZR (2 ^ k).
Proof.
  intros Hk. destruct k as [|p|p]; [reflexivity| |lia].
  simpl powerRZ. rewrite pow_IZR. f_equal.
  rewrite positive_nat_Z. reflexivity.
Qed.

Lemma unit_draw_real r :
  Sampler.unit_draw r = true -> (0 <= to_R r < 1)%R.
Proof.
  destruct r as [s|s|s p|[] m e]; simpl; try discriminate; [lra|].
  intros H. apply andb_true_iff in H as [He Hm].
  apply Z.ltb_lt in He, Hm.
  assert (Hp : (0 < powerRZ 2 e)%R) by (apply powerRZ_lt; lra).
  assert (Hone : (powerRZ 2 (- e) * powerRZ 2 e = 1)%R).
  { rewrite <- powerRZ_add by lra. replace (- e + e) with 0 by lia.
    reflexivity. }
  rewrite powerRZ_2_nonneg in Hone by lia.
  assert (Hm' : (0 < IZR (Z.pos m) < IZR (2 ^ (- e)))%R)
    by (split; apply IZR_lt; lia).
  split; [nra|]. rewrite <- Hone. nra.
Qed.

(** ** Rounding to nearest: half a unit of the last place *)

Lemma pow2_pos k : 0 <= k -> 0 < 2 ^ k.
Proof. intros. apply Z.pow_pos_nonneg; lia. Qed.

Lemma pow2_split a b : 0 <= a <= b -> 2 ^ b = 2 ^ a * 2 ^ (b - a).
Proof. intros H. rewrite <- Z.pow_add_r by lia. f_equal. lia. Qed.

Lemma pow2_le a b : 0 <= a <= b -> 2 ^ a <= 2 ^ b.
Proof. intros H. apply Z.pow_le_mono_r; lia. Qed.

Lemma pow2_lt a b : 0 <= a < b -> 2 ^ a < 2 ^ b.
Proof. intros H. apply Z.pow_lt_mono_r; lia. Qed.

(** The number of binary digits of a positive integer. *)
Lemma Zdigits2_bounds m :
  0 < m -> 2 ^ (Zdigits2 m - 1) <= m < 2 ^ Zdigits2 m.
Proof.
  intros Hm. destruct m as [|p|p]; try lia. simpl Zdigits2.
  rewrite digits2_pos_size.
  pose proof (Pos.size_le p) as Hle. pose proof (Pos.size_gt p) as Hgt.
  split.
  - assert (H2 : 2 ^ Z.pos (Pos.size p) <= 2 * Z.pos p).
    { change (2 * Z.pos p) with (Z.pos p~0).
      rewrite <- Pos2Z.inj_pow. apply Pos2Z.pos_le_pos. exact Hle. }
    rewrite (pow2_split 1 (Z.pos (Pos.size p))) in H2 by lia.
    change (2 ^ 1) with 2 in H2. lia.
  - rewrite <- Pos2Z.inj_pow. apply Pos2Z.pos_lt_pos. exact Hgt.
Qed.

(** The round bit after a shift is the last bit shifted out. *)
Lemma shr_1_r mrs : 0 <= shr_m mrs -> shr_r (shr_1 mrs) = Z.odd (shr_m mrs).
Proof.
  destruct mrs as [m r s]. cbn [shr_m]. intros Hm.
  destruct m as [|[p|p|]|p]; cbn [shr_1 shr_r]; try lia; reflexivity.
Qed.

Lemma iter_pos_shr_1_r p mrs :
  0 <= shr_m mrs ->
  shr_r (SpecFloat.iter_pos shr_1 p mrs)
  = Z.odd (shr_m mrs / 2 ^ (Z.pos p - 1)).
Proof.
  revert mrs. induction p as [p IH|p IH|]; intros mrs Hm;
    simpl SpecFloat.iter_pos.
  - assert (H1 : 0 <= shr_m (shr_1 mrs))
      by (rewrite shr_1_m by assumption; apply Z.div_pos; lia).
    assert (H2 : 0 <= shr_m (SpecFloat.iter_pos shr_1 p (shr_1 mrs)))
      by (rewrite iter_pos_shr_1 by assumption; apply Z.div_pos;
          [lia|apply pow2_pos; lia]).
    rewrite IH by assumption.
    rewrite iter_pos_shr_1, shr_1_m by assumption.
    rewrite !Z.div_div by (try apply pow2_pos; lia). f_equal. f_equal.
    rewrite (Pos2Z.inj_xI p).
    rewrite <- (Z.pow_add_r 2 (Z.pos p) (Z.pos p - 1)) by lia.
    rewrite <- (Z.pow_succ_r 2 (Z.pos p + (Z.pos p - 1))) by lia.
    f_equal. lia.
  - assert (H2 : 0 <= shr_m (SpecFloat.iter_pos shr_1 p mrs))
      by (rewrite iter_pos_shr_1 by assumption; apply Z.div_pos;
          [lia|apply pow2_pos; lia]).
    rewrite IH by assumption. rewrite iter_pos_shr_1 by assumption.
    rewrite !Z.div_div by (try apply pow2_pos; lia). f_equal. f_equal.
    rewrite (Pos2Z.inj_xO p).
    rewrite <- (Z.pow_add_r 2 (Z.pos p) (Z.pos p - 1)) by lia.
    f_equal. lia.
  - rewrite shr_1_r by assumption. by rewrite Z.div_1_r.
Qed.

(** Rounding to nearest goes up by less than half a unit of the new
    last place, ties included. *)
Lemma shr_fexp_nearest m e :
  0 <= m ->
  let mrs := fst (shr_fexp prec emax m e loc_Exact) in
  let e1 := snd (shr_fexp prec emax m e loc_Exact) in
  e <= e1 /\
  0 <= round_nearest_even (shr_m mrs) (loc_of_shr_record mrs) /\
  round_nearest_even (shr_m mrs) (loc_of_shr_record mrs) * 2 ^ (e1 - e)
  <= m + 2 ^ (e1 - e) / 2.
Proof.
  intros Hm. cbv zeta.
  pose proof (shr_fexp_spec m e loc_Exact Hm) as [E1 H1].
  unfold shr_fexp, shr in *.
  destruct (fexp prec emax (Zdigits2 m + e) - e) as [|p|p] eqn:En;
    cbn [fst snd] in *.
  - rewrite Z.sub_diag.
    cbn [shr_record_of_loc shr_m shr_r shr_s loc_of_shr_record
         round_nearest_even].
    change (2 ^ 0) with 1. change (1 / 2) with 0. lia.
  - replace (e + Z.pos p - e) with (Z.pos p) in * by lia.
    split; [lia|].
    set (mrs := SpecFloat.iter_pos shr_1 p (shr_record_of_loc m loc_Exact))
      in *.
    assert (Hr : shr_r mrs = Z.odd (m / 2 ^ (Z.pos p - 1))).
    { unfold mrs. rewrite iter_pos_shr_1_r; cbn [shr_record_of_loc shr_m];
        [reflexivity|exact Hm]. }
    assert (Hp : 2 ^ Z.pos p = 2 * 2 ^ (Z.pos p - 1)).
    { rewrite <- Z.pow_succ_r by lia. f_equal. lia. }
    pose proof (pow2_pos (Z.pos p - 1) ltac:(lia)) as Hpos.
    assert (Hhalf : 2 ^ Z.pos p / 2 = 2 ^ (Z.pos p - 1)).
    { rewrite Hp. rewrite Z.mul_comm. apply Z.div_mul. lia. }
    rewrite Hhalf.
    pose proof (Z.div_mod m (2 ^ (Z.pos p - 1)) ltac:(lia)) as Hdm.
    pose proof (Z.mod_pos_bound m (2 ^ (Z.pos p - 1)) ltac:(lia)) as Hmb.
    set (q := m / 2 ^ (Z.pos p - 1)) in *.
    assert (Hq : 0 <= q) by (apply Z.div_pos; lia).
    assert (Hm1 : shr_m mrs = q / 2).
    { rewrite H1, Hp. unfold q. rewrite Z.mul_comm.
      rewrite <- Z.div_div by lia. reflexivity. }
    pose proof (Z.div_mod q 2 ltac:(lia)) as Hq2.
    rewrite Zmod_odd in Hq2. rewrite <- Hr in Hq2.
    rewrite Hm1. 
    destruct mrs as [m1 r s]. cbn [shr_r shr_m loc_of_shr_record] in *.
    destruct r, s; cbn [round_nearest_even];
      try destruct (IntDef.Z.even (q / 2)); split; nia.
  - rewrite Z.sub_diag.
    cbn [shr_record_of_loc shr_m shr_r shr_s loc_of_shr_record
         round_nearest_even].
    change (2 ^ 0) with 1. change (1 / 2) with 0. lia.
Qed.

(** After [shr_fexp] the mantissa fits in 24 bits and the exponent is
    not below the least one. *)
Lemma shr_fexp_fits m e l :
  0 < m ->
  shr_m (fst (shr_fexp prec emax m e l)) < 2 ^ 24 /\
  -149 <= snd (shr_fexp prec emax m e l).
Proof.
  intros Hm.
  pose proof (shr_fexp_spec m e l ltac:(lia)) as [E1 H1].
  pose proof (Zdigits2_bounds m Hm) as Hd.
  assert (Hd1 : 1 <= Zdigits2 m).
  { destruct (Z.le_gt_cases 1 (Zdigits2 m)) as [?|Hlt]; [assumption|].
    exfalso. assert (2 ^ Zdigits2 m <= 2 ^ 0).
    { destruct (Z.le_gt_cases 0 (Zdigits2 m)).
      - apply pow2_le; lia.
      - rewrite Z.pow_neg_r by lia. simpl; lia. }
    simpl in *; lia. }
  set (e1 := snd (shr_fexp prec emax m e l)) in *.
  unfold fexp, emin, prec, emax in E1.
  split; [|lia].
  rewrite H1. apply div_pow2_lt; try lia.
  assert (2 ^ Zdigits2 m <= 2 ^ (e1 - e + 24)) by (apply pow2_le; lia).
  lia.
Qed.

(** One rounding to nearest, from an exact integer mantissa: the result
    is the float of a mantissa [m] below 2^24 at an exponent [e], and it
    is above the value by at most half a unit of the last place
    [2^e1] of the value. *)
Lemma binary_round_aux_nearest sx mx ex :
  0 < mx ->
  let e1 := Z.max ex (fexp prec emax (Zdigits2 mx + ex)) in
  exists m e,
    binary_round_aux prec emax sx mx ex loc_Exact
    = match m with
      | 0 => S754_zero sx
      | Z.pos p => if e <=? emax - prec then S754_finite sx p e
                   else S754_infinity sx
      | Z.neg _ => S754_nan
      end /\
    0 <= m < 2 ^ 24 /\ e1 <= e /\ -149 <= e1 /\
    2 * (m * 2 ^ (e - ex)) <= 2 * mx + 2 ^ (e1 - ex) /\
    forall K ek, e1 <= ek -> mx <= K * 2 ^ (ek - ex) ->
      m * 2 ^ (e - e1) <= K * 2 ^ (ek - e1).
Proof.
  intros Hmx e1. unfold binary_round_aux.
  pose proof (shr_fexp_nearest mx ex ltac:(lia)) as (He1 & HR0 & HR).
  pose proof (shr_fexp_spec mx ex loc_Exact ltac:(lia)) as [E1 _].
  pose proof (shr_fexp_fits mx ex loc_Exact Hmx) as [_ Hmin1].
  cbv zeta in He1, HR0, HR. fold e1 in E1.
  destruct (shr_fexp prec emax mx ex loc_Exact) as [mrs1 e1'].
  cbn [fst snd] in *. subst e1'.
  set (R1 := round_nearest_even (shr_m mrs1) (loc_of_shr_record mrs1)) in *.
  pose proof (shr_fexp_spec R1 e1 loc_Exact HR0) as [E2 H2].
  assert (Hfit : shr_m (fst (shr_fexp prec emax R1 e1 loc_Exact)) < 2 ^ 24).
  { destruct (Z.eq_dec R1 0) as [Hz|Hnz].
    - rewrite H2.
      pose proof (pow2_pos (snd (shr_fexp prec emax R1 e1 loc_Exact) - e1)
                    ltac:(lia)) as Hp.
      assert (R1 / 2 ^ (snd (shr_fexp prec emax R1 e1 loc_Exact) - e1) <= R1)
        by (apply Z.div_le_upper_bound; nia).
      lia.
    - apply shr_fexp_fits. lia. }
  destruct (shr_fexp prec emax R1 e1 loc_Exact) as [mrs2 e2].
  cbn [fst snd] in *.
  assert (He2 : e1 <= e2) by lia.
  pose proof (pow2_pos (e2 - e1) ltac:(lia)) as P21.
  pose proof (pow2_pos (e1 - ex) ltac:(lia)) as P1x.
  assert (Hm2 : 0 <= shr_m mrs2) by (rewrite H2; apply Z.div_pos; lia).
  assert (Hm2R : shr_m mrs2 * 2 ^ (e2 - e1) <= R1).
  { rewrite H2, Z.mul_comm. apply Z.mul_div_le. lia. }
  assert (Hsplit : 2 ^ (e2 - ex) = 2 ^ (e2 - e1) * 2 ^ (e1 - ex)).
  { rewrite <- Z.pow_add_r by lia; f_equal; lia. }
  assert (Hhalf : 2 * (2 ^ (e1 - ex) / 2) <= 2 ^ (e1 - ex)).
  { apply Z.mul_div_le. lia. }
  exists (shr_m mrs2), e2. split; [reflexivity|].
  split; [lia|]. split; [lia|]. split; [lia|].
  split; [rewrite Hsplit; nia|].
  intros K ek Hek HK.
  pose proof (pow2_pos (ek - e1) ltac:(lia)) as Pk1.
  assert (Hks : 2 ^ (ek - ex) = 2 ^ (ek - e1) * 2 ^ (e1 - ex)).
  { rewrite <- Z.pow_add_r by lia; f_equal; lia. }
  rewrite Hks in HK.
  assert (R1 <= K * 2 ^ (ek - e1)) by nia.
  lia.
Qed.

(** The same two bounds after a rounding at any location. *)
Lemma binary_round_aux_fits sx mx ex lx :
  0 < mx ->
  match binary_round_aux prec emax sx mx ex lx with
  | S754_finite _ m e => -149 <= e /\ Z.pos m < 2 ^ 24
  | _ => True
  end.
Proof.
  intros Hmx. unfold binary_round_aux.
  pose proof (shr_fexp_spec mx ex lx ltac:(lia)) as [E1 H1].
  pose proof (shr_fexp_fits mx ex lx Hmx) as [_ Hmin1].
  destruct (shr_fexp prec emax mx ex lx) as [mrs1 e1]. cbn [fst snd] in *.
  assert (Hm1 : 0 <= shr_m mrs1)
    by (rewrite H1; apply Z.div_pos; [lia|apply pow2_pos; lia]).
  pose proof (round_nearest_even_bounds (shr_m mrs1) (loc_of_shr_record mrs1))
    as Hr.
  set (R1 := round_nearest_even (shr_m mrs1) (loc_of_shr_record mrs1)) in *.
  pose proof (shr_fexp_spec R1 e1 loc_Exact ltac:(lia)) as [E2 H2].
  destruct (Z.eq_dec R1 0) as [Hz|Hnz].
  - destruct (shr_fexp prec emax R1 e1 loc_Exact) as [mrs2 e2].
    cbn [fst snd] in *. rewrite H2, Hz, Z.div_0_l; [exact I|].
    apply Z.pow_nonzero; lia.
  - pose proof (shr_fexp_fits R1 e1 loc_Exact ltac:(lia)) as [Hfit Hmin2].
    destruct (shr_fexp prec emax R1 e1 loc_Exact) as [mrs2 e2].
    cbn [fst snd] in *.
    destruct (shr_m mrs2) as [|p|p]; [exact I| |exact I].
    destruct (e2 <=? emax - prec); [|exact I]. lia.
Qed.

Lemma SFsqrt_fits m e :
  match SFsqrt prec emax (S754_finite false m e) with
  | S754_finite _ m' e' => -149 <= e' /\ Z.pos m' < 2 ^ 24
  | _ => True
  end.
Proof.
  unfold SFsqrt, SFsqrt_core_binary.
  set (e' := Z.min (fexp prec emax
                      (Z.div2 (Zdigits2 (Z.pos m) + e + 1))) (Z.div2 e)).
  assert (He' : 2 * e' <= e).
  { subst e'. rewrite (Z.div2_div e).
    pose proof (Z.div_mod e 2 ltac:(lia)).
    pose proof (Z.mod_pos_bound e 2 ltac:(lia)). lia. }
  set (m' := match e - 2 * e' with
             | 0 => Z.pos m
             | Z.pos _ => Z.shiftl (Z.pos m) (e - 2 * e')
             | Z.neg _ => 0
             end).
  assert (Hm' : m' = Z.pos m * 2 ^ (e - 2 * e')).
  { subst m'. destruct (e - 2 * e') as [|p|p] eqn:Es; [simpl; lia| |lia].
    apply Z.shiftl_mul_pow2. lia. }
  pose proof (pow2_pos (e - 2 * e') ltac:(lia)) as Hpos.
  assert (Hm'0 : 0 < m') by (rewrite Hm'; nia).
  pose proof (Z.sqrtrem_spec m' ltac:(lia)) as Hsq.
  destruct (Z.sqrtrem m') as [q r]. destruct Hsq as [Hqr Hr].
  apply binary_round_aux_fits. nia.
Qed.

(** The square root of a draw is a binary32 value at most 1. *)
Lemma sqrt_weight r :
  Sampler.unit_draw r = true -> weight (SFsqrt prec emax (to_spec r)).
Proof.
  intros H. pose proof (sqrt_small r H) as Hs.
  destruct r as [s|s|s p|[] m e]; simpl in H; try discriminate.
  - exact I.
  - cbn [to_spec] in *. pose proof (SFsqrt_fits m e) as Hf.
    destruct (SFsqrt prec emax (S754_finite false m e)) as [?|?| |[] m' e'];
      simpl in *; tauto || lia.
Qed.

Lemma units_weight m e :
  0 < m -> -149 <= e -> m * 2 ^ (e + 149) <= 2 ^ 149 ->
  e <= 0 /\ m <= 2 ^ (- e).
Proof.
  intros Hm He H.
  pose proof (pow2_pos (e + 149) ltac:(lia)) as P.
  assert (He0 : e <= 0).
  { destruct (Z.le_gt_cases e 0) as [?|Hgt]; [assumption|exfalso].
    assert (2 ^ 149 < 2 ^ (e + 149)) by (apply pow2_lt; lia). nia. }
  split; [exact He0|].
  assert (Hs : 2 ^ 149 = 2 ^ (- e) * 2 ^ (e + 149)).
  { rewrite <- Z.pow_add_r by lia; f_equal; lia. }
  rewrite Hs in H. nia.
Qed.

Lemma weight_units v : weight v -> 0 <= units v <= 2 ^ 149.
Proof.
  destruct v as [s|s| |[] m e]; simpl; try tauto; try lia.
  intros (He & Hm & Hle).
  pose proof (pow2_pos (e + 149) ltac:(lia)) as P.
  assert (Hs : 2 ^ 149 = 2 ^ (- e) * 2 ^ (e + 149)).
  { rewrite <- Z.pow_add_r by lia; f_equal; lia. }
  rewrite Hs. nia.
Qed.

(** Multiplying a binary32 value [s] at most 1 by a value at most 1
    gives a binary32 value at most [s]. *)
Lemma mul_weight_below s t :
  weight s -> small t ->
  weight (SFmul prec emax s t) /\ units (SFmul prec emax s t) <= units s.
Proof.
  intros Hs Ht. pose proof (weight_units s Hs) as Hu.
  destruct s as [ss|ss| |[] ms es]; simpl in Hs; try contradiction;
    destruct t as [st|st| |[] mt et]; simpl in Ht; try contradiction;
    try (split; [exact I|simpl in *; lia]).
  destruct Hs as (Hes & Hms & Hms1). destruct Ht as (Het & Hmt).
  unfold SFmul. cbn [xorb].
  destruct (binary_round_aux_nearest false (Z.pos (ms * mt)) (es + et)
              ltac:(lia)) as (m & e & -> & Hm & He1 & Hmin & _ & HK).
  set (e1 := Z.max (es + et)
               (fexp prec emax (Zdigits2 (Z.pos (ms * mt)) + (es + et)))) in *.
  pose proof (pow2_pos (- et) ltac:(lia)) as Pt.
  assert (Hprod : Z.pos (ms * mt) <= Z.pos ms * 2 ^ (es - (es + et))).
  { replace (es - (es + et)) with (- et) by lia.
    rewrite Pos2Z.inj_mul. nia. }
  assert (Hd : Zdigits2 (Z.pos (ms * mt)) <= 24 - et).
  { apply Zdigits2_le; [|lia]. split; [lia|].
    replace (es - (es + et)) with (- et) in Hprod by lia.
    assert (2 ^ (24 - et) = 2 ^ 24 * 2 ^ (- et))
      by (rewrite <- Z.pow_add_r by lia; f_equal; lia).
    rewrite Pos2Z.inj_mul. nia. }
  assert (He1s : e1 <= es).
  { subst e1. unfold fexp, emin, prec, emax. lia. }
  specialize (HK (Z.pos ms) es He1s Hprod).
  pose proof (pow2_pos (e - e1) ltac:(lia)) as Pe.
  pose proof (pow2_pos (e1 + 149) ltac:(lia)) as P1.
  assert (Hunits : m * 2 ^ (e + 149) <= Z.pos ms * 2 ^ (es + 149)).
  { rewrite (pow2_split (e1 + 149) (e + 149)) by lia.
    rewrite (pow2_split (e1 + 149) (es + 149)) by lia.
    replace (e + 149 - (e1 + 149)) with (e - e1) by lia.
    replace (es + 149 - (e1 + 149)) with (es - e1) by lia.
    nia. }
  cbn [units cond_Zopp] in Hu.
  destruct m as [|p|p]; [split; [exact I|simpl; lia]| |lia].
  destruct (units_weight (Z.pos p) e ltac:(lia) ltac:(lia) ltac:(lia))
    as [He0 Hp1].
  destruct (Z.leb_spec e (emax - prec)) as [_|Hbad];
    [|unfold emax, prec in Hbad; lia].
  split; [simpl; lia|]. cbn [units cond_Zopp]. exact Hunits.
Qed.

Lemma shl_align_exponent mx ex ex' :
  snd (shl_align mx ex ex') = Z.min ex ex'.
Proof.
  unfold shl_align. destruct (ex' - ex) as [|d|d] eqn:E; simpl; lia.
Qed.

(** [1.0f - s] for a binary32 value [s] at most 1 is a binary32 value
    at most 1, and above [1 - s] by at most 2^-25. *)
Lemma one_minus_weight s :
  weight s ->
  weight (SFsub prec emax (to_spec fone) s) /\
  units (SFsub prec emax (to_spec fone) s) + units s <= 2 ^ 149 + 2 ^ 124.
Proof.
  intros Hs.
  destruct s as [ss|ss| |[] ms es]; simpl in Hs; try contradiction.
  { split; [by vm_compute|]. by vm_compute. }
  destruct Hs as (Hes & Hms & Hms1).
  unfold SFsub; simpl to_spec; cbv iota beta.
  destruct (one_aligned ms es ltac:(lia)) as (V1 & V2 & P).
  simpl cond_Zopp. rewrite V1, V2.
  set (ez := Z.min (-23) es) in *.
  pose proof (pow2_pos (es - ez) ltac:(lia)) as Pz.
  pose proof (pow2_pos (ez + 149) ltac:(lia)) as Pu.
  pose proof (pow2_pos (es + 149) ltac:(lia)) as Ps.
  set (D := 2 ^ (- ez) - Z.pos ms * 2 ^ (es - ez)).
  assert (HD : 0 <= D < 2 ^ (- ez)) by (subst D; rewrite P; nia).
  assert (HDu : D * 2 ^ (ez + 149) = 2 ^ 149 - Z.pos ms * 2 ^ (es + 149)).
  { subst D. rewrite Z.mul_sub_distr_r.
    rewrite <- Z.pow_add_r by lia. rewrite <- Z.mul_assoc.
    rewrite <- Z.pow_add_r by lia. f_equal; f_equal; f_equal; lia. }
  cbn [units cond_Zopp].
  destruct D as [|d|d] eqn:ED; cbn [binary_normalize]; [| |lia].
  { split; [exact I|]. cbn [units]. lia. }
  unfold binary_round.
  pose proof (shl_align_spec d ez
                (fexp prec emax (Z.pos (digits2_pos d) + ez)))
    as (Hle & Hval & _).
  pose proof (shl_align_exponent d ez
                (fexp prec emax (Z.pos (digits2_pos d) + ez))) as Hez.
  destruct (shl_align d ez (fexp prec emax (Z.pos (digits2_pos d) + ez)))
    as [mz ez']. cbn [fst snd] in *.
  assert (Hdd : Zdigits2 (Z.pos d) <= - ez) by (apply Zdigits2_le; lia).
  change (Z.pos (digits2_pos d)) with (Zdigits2 (Z.pos d)) in Hez.
  assert (Hez' : -149 <= ez' <= -24).
  { unfold fexp, emin, prec, emax in Hez. subst ez. lia. }
  pose proof (pow2_pos (ez - ez') ltac:(lia)) as Pzz.
  pose proof (pow2_pos (ez' + 149) ltac:(lia)) as Pu'.
  assert (Hmz : Z.pos mz < 2 ^ (- ez')).
  { rewrite Hval. rewrite (pow2_split (- ez) (- ez')) by lia.
    replace (- ez' - - ez) with (ez - ez') by lia. nia. }
  destruct (binary_round_aux_nearest false (Z.pos mz) ez' ltac:(lia))
    as (m & e & -> & Hm & He1 & Hmin & Hnear & HK).
  set (e1 := Z.max ez' (fexp prec emax (Zdigits2 (Z.pos mz) + ez'))) in *.
  assert (Hdz : Zdigits2 (Z.pos mz) <= - ez') by (apply Zdigits2_le; lia).
  assert (He124 : ez' <= e1 <= -24).
  { subst e1. unfold fexp, emin, prec, emax. lia. }
  (* the result is at most 1 *)
  assert (Hone : m * 2 ^ (e - e1) <= 1 * 2 ^ (0 - e1)).
  { apply HK; [lia|]. replace (0 - ez') with (- ez') by lia. lia. }
  pose proof (pow2_pos (e - e1) ltac:(lia)) as Pe.
  pose proof (pow2_pos (e1 + 149) ltac:(lia)) as P1.
  assert (Hle1 : m * 2 ^ (e + 149) <= 2 ^ 149).
  { rewrite (pow2_split (e1 + 149) (e + 149)) by lia.
    replace (e + 149 - (e1 + 149)) with (e - e1) by lia.
    rewrite (pow2_split (e1 + 149) 149) by lia.
    replace (149 - (e1 + 149)) with (0 - e1) by lia. nia. }
  (* and within half a unit of the last place *)
  assert (Hsum : m * 2 ^ (e + 149)
                 <= 2 ^ 149 - Z.pos ms * 2 ^ (es + 149) + 2 ^ 124).
  { rewrite <- HDu.
    assert (E1 : 2 ^ (e + 149) = 2 ^ (e - ez') * 2 ^ (ez' + 149))
      by (rewrite <- Z.pow_add_r by lia; f_equal; lia).
    assert (E2 : 2 ^ (ez + 149) = 2 ^ (ez - ez') * 2 ^ (ez' + 149))
      by (rewrite <- Z.pow_add_r by lia; f_equal; lia).
    assert (E3 : 2 ^ (e1 - ez') * 2 ^ (ez' + 149) = 2 ^ (e1 + 149))
      by (rewrite <- Z.pow_add_r by lia; f_equal; lia).
    assert (E4 : 2 ^ (e1 + 149) <= 2 ^ 125) by (apply pow2_le; lia).
    assert (E5 : 2 ^ 125 = 2 * 2 ^ 124) by reflexivity.
    rewrite E1, E2, Hval in *.
    assert (2 * (m * 2 ^ (e - ez')) * 2 ^ (ez' + 149)
            <= (2 * (Z.pos d * 2 ^ (ez - ez')) + 2 ^ (e1 - ez'))
               * 2 ^ (ez' + 149))
      by (apply Z.mul_le_mono_nonneg_r; lia).
    nia. }
  destruct m as [|p|p]; [split; [exact I|cbn [units]; lia]| |lia].
  destruct (units_weight (Z.pos p) e ltac:(lia) ltac:(lia) Hle1)
    as [He0 Hp1].
  destruct (Z.leb_spec e (emax - prec)) as [_|Hbad];
    [|unfold emax, prec in Hbad; lia].
  split; [simpl; lia|]. cbn [units cond_Zopp]. lia.
Qed.

(** The exact value of a binary32 value at most 1. *)
Lemma weight_to_Q v :
  weight v ->
  exists q, to_Q (of_spec v) = Some q /\ (0 <= q)%Q /\
            (q == units v # 2 ^ 149)%Q.
Proof.
  destruct v as [s|s| |[] m e]; simpl; try contradiction.
  - intros _. exists 0%Q. split; [reflexivity|]. split; [apply Qle_refl|].
    reflexivity.
  - intros (He & Hm & Hle). eexists. split; [reflexivity|].
    pose proof (pow2_pos (- e) ltac:(lia)) as P.
    pose proof (pow2_pos (e + 149) ltac:(lia)) as P'.
    assert (Hs : 2 ^ 149 = 2 ^ (e + 149) * 2 ^ (- e)).
    { rewrite <- Z.pow_add_r by lia; f_equal; lia. }
    destruct (Z.leb_spec 0 e).
    + assert (e = 0) as -> by lia. split.
      * unfold Qle; simpl. lia.
      * unfold Qeq; simpl. lia.
    + split.
      * unfold Qle; simpl. lia.
      * unfold Qeq. cbn [Qnum Qden]. rewrite Z2Pos.id by lia.
        change (Z.pos (2 ^ 149)) with (2 ^ 149). rewrite Hs. ring.
Qed.

(** ** Surface Point Sampler *)

Section SamplerFacts.

Import Sampler.

Lemma sqrt_unit (r : R) : (0 <= r < 1)%R -> (0 <= sqrt r < 1)%R.
Proof.
  intros [H0 H1]. split; [apply sqrt_pos|].
  rewrite <- sqrt_1. apply sqrt_lt_1_alt. lra.
Qed.

(** In exact real arithmetic the two formulas stay in the triangle. *)
Lemma barycentric_exact_in_simplex (x1 x2 : R) :
  (0 <= x1 < 1)%R -> (0 <= x2 < 1)%R ->
  (0 <= (barycentric_exact x1 x2).1)%R /\
  (0 <= (barycentric_exact x1 x2).2)%R /\
  ((barycentric_exact x1 x2).1 + (barycentric_exact x1 x2).2 <= 1)%R.
Proof.
  intros H1 H2. pose proof (sqrt_unit x1 H1) as Hs.
  unfold barycentric_exact; simpl. repeat split; nra.
Qed.

(** The stored weights are not negative. *)
Lemma stored_weights_nonnegative r1 r2 :
  unit_draw r1 = true -> unit_draw r2 = true ->
  fleb fzero (barycentric r1 r2).1 = true /\
  fleb fzero (barycentric r1 r2).2 = true.
Proof.
  intros H1 H2. unfold barycentric, fleb, fsub, fmul, fsqrt.
  simpl fst; simpl snd. rewrite !to_spec_of_spec. split.
  - apply one_minus_small_nonneg, sqrt_small, H1.
  - apply mul_small_nonneg; [apply sqrt_small, H1|].
    apply one_minus_draw_small, H2.
Qed.

(** C1, as amended.  For binary32 draws [r1], [r2] from 0 (included) to
    1 (excluded), the stored weights [w1 = 1.0f - sqrt(r1)] and
    [w2 = sqrt(r1) * (1.0f - r2)] of lines 213-214 are finite, satisfy
    [w1 >= 0] and [w2 >= 0], and their exact sum is at most
    [1 + 2^-25]: it is above 1 by no more than the rounding of the
    subtraction. *)
Theorem stored_weights_in_simplex_up_to_rounding (r1 r2 : float) :
  unit_draw r1 = true -> unit_draw r2 = true ->
  fleb fzero (barycentric r1 r2).1 = true /\
  fleb fzero (barycentric r1 r2).2 = true /\
  exists q1 q2,
    to_Q (barycentric r1 r2).1 = Some q1 /\
    to_Q (barycentric r1 r2).2 = Some q2 /\
    (0 <= q1)%Q /\ (0 <= q2)%Q /\ (q1 + q2 <= 1 + (1 # 2 ^ 25))%Q.
Proof.
  intros H1 H2.
  destruct (stored_weights_nonnegative r1 r2 H1 H2) as [Hn1 Hn2].
  split; [exact Hn1|]. split; [exact Hn2|]. clear Hn1 Hn2.
  unfold barycentric, fsub, fmul, fsqrt. cbn [fst snd].
  rewrite !to_spec_of_spec.
  pose proof (sqrt_weight r1 H1) as Hs.
  pose proof (one_minus_draw_small r2 H2) as Ht.
  set (s := SFsqrt prec emax (to_spec r1)) in *.
  set (t := SFsub prec emax (to_spec fone) (to_spec r2)) in *.
  destruct (one_minus_weight s Hs) as [Hw1 Hu1].
  destruct (mul_weight_below s t Hs Ht) as [Hw2 Hu2].
  destruct (weight_to_Q _ Hw1) as (q1 & -> & Hq1 & E1).
  destruct (weight_to_Q _ Hw2) as (q2 & -> & Hq2 & E2).
  exists q1, q2. repeat (split; [done|]).
  rewrite E1, E2. unfold Qle, Qplus. cbn [Qnum Qden].
  set (u1 := units (SFsub prec emax (to_spec fone) s)) in *.
  set (u2 := units (SFmul prec emax s t)) in *.
  assert (Hsum : u1 + u2 <= 2 ^ 149 + 2 ^ 124) by lia.
  clearbody u1 u2. clear -Hsum.
  rewrite !Pos2Z.inj_mul.
  change (Z.pos (2 ^ 149)) with (2 ^ 149).
  change (Z.pos (2 ^ 25)) with (2 ^ 25).
  change (2 ^ 149 + 2 ^ 124) with (2 ^ 124 * (2 ^ 25 + 1)) in Hsum.
  change (2 ^ 149) with (2 ^ 124 * 2 ^ 25).
  assert (0 < 2 ^ 124) by (apply pow2_pos; lia).
  assert (0 < 2 ^ 25) by (apply pow2_pos; lia).
  nia.
Qed.

Lemma stored_weights_in_simplex_up_to_rounding_witness :
  fleb fzero (barycentric least_draw least_draw).1 = true /\
  fleb fzero (barycentric least_draw least_draw).2 = true /\
  exists q1 q2,
    to_Q (barycentric least_draw least_draw).1 = Some q1 /\
    to_Q (barycentric least_draw least_draw).2 = Some q2 /\
    (0 <= q1)%Q /\ (0 <= q2)%Q /\ (q1 + q2 <= 1 + (1 # 2 ^ 25))%Q.
Proof.
  apply (stored_weights_in_simplex_up_to_rounding least_draw least_draw);
    reflexivity.
Defined.

(** The bound is attained.  For [r1 = 2^-50] the root is [2^-25];
    [1 - 2^-25] lies half way between [1 - 2^-24] and 1 and rounds to
    [1.0f], and [w2] is [2^-25]. *)
Example rounding_slack_is_attained :
  unit_draw (Ffinite false (2 ^ 23) (-73)) = true /\
  barycentric (Ffinite false (2 ^ 23) (-73)) least_draw
  = (fone, Ffinite false (2 ^ 23) (-48)) /\
  exists q1 q2,
    to_Q fone = Some q1 /\ to_Q (Ffinite false (2 ^ 23) (-48)) = Some q2 /\
    (q1 + q2 == 1 + (1 # 2 ^ 25))%Q.
Proof.
  split; [by vm_compute|]. split; [by vm_compute|].
  eexists _, _. split; [reflexivity|]. split; [reflexivity|]. by vm_compute.
Qed.

(** C1 as stated fails on the stored weights.  With both draws at the
    least value of the generator, 2^-33, the binary32 weights are
    [w1 = 1 - 181 * 2^-24] (the subtraction rounds up) and
    [w2 = 11863283 * 2^-40], whose exact sum is above 1; the third weight
    [1.0f - w1 - w2] of line 266 is then negative. *)
Lemma barycentric_binary32_leaves_simplex :
  unit_draw least_draw = true /\
  exists w1 w2 q1 q2,
    barycentric least_draw least_draw = (w1, w2) /\
    to_Q w1 = Some q1 /\ to_Q w2 = Some q2 /\
    (0 <= q1)%Q /\ (0 <= q2)%Q /\ (1 < q1 + q2)%Q /\
    in_simplex w1 w2 = false /\
    fltb (fsub (fsub fone w1) w2) fzero = true.
Proof.
  split; [by vm_compute|].
  eexists _, _, _, _. split; [by vm_compute|].
  split; [by vm_compute|]. split; [by vm_compute|].
  repeat split; by vm_compute.
Qed.

(** C6.  A face id below 2^24 that the sampler stores into slot 0 of a
    sample, its bits read as a float, is the id the resolver reads back
    from that slot, bits read as an unsigned integer. *)
Theorem faceId_survives_float_slot
    (n_elements n_faces : Z) (u0 u1 u2 : float) (idx faceId : Z)
    (result : list float) :
  0 <= faceId < 2 ^ 24 ->
  0 <= idx < n_elements ->
  idx * 3 + 2 < Z.of_nat (length result) ->
  to_uint (fmul (fmodf_one u0) (of_uint n_faces)) = Some faceId ->
  float_as_uint (uint_as_float faceId) = faceId /\
  exists result',
    generate_face_positions n_elements n_faces u0 u1 u2 idx result
      = Some result' /\
    float_as_uint <$> load result' (idx * N_INPUT_DIMS + 0) = Some faceId /\
    Resolver.decode_faceId result' (idx * N_INPUT_DIMS) = Some faceId.
Proof.
  intros Hf Hidx Hlen Hdraw.
  assert (Hrt : float_as_uint (uint_as_float faceId) = faceId)
    by (apply float_as_uint_as_float; lia).
  split; [exact Hrt|].
  unfold generate_face_positions.
  destruct (idx >=? n_elements) eqn:E; [lia|clear E].
  rewrite Hdraw. simpl. run_stores.
  eexists; split; [reflexivity|].
  unfold Resolver.decode_faceId.
  match goal with
  | |- context [load ?b (?i + 0)] =>
      assert (Hslot : load b (i + 0) = Some (uint_as_float faceId))
        by (unfold N_INPUT_DIMS; read_slot)
  end.
  rewrite Hslot. simpl. rewrite Hrt.
  split; [reflexivity|]. f_equal. unfold uint_to_int.
  rewrite Z.mod_small by lia. lia.
Qed.

Lemma faceId_survives_float_slot_witness :
  float_as_uint (uint_as_float 5) = 5 /\
  exists result',
    generate_face_positions 1 10 Demo.draw least_draw least_draw 0
      (replicate 3 fzero) = Some result' /\
    float_as_uint <$> load result' (0 * N_INPUT_DIMS + 0) = Some 5 /\
    Resolver.decode_faceId result' (0 * N_INPUT_DIMS) = Some 5.
Proof.
  apply (faceId_survives_float_slot 1 10 Demo.draw least_draw least_draw
           0 5 (replicate 3 fzero)).
  - lia.
  - lia.
  - simpl. lia.
  - by vm_compute.
Defined.

End SamplerFacts.

(** ** Texture-Backed Target Resolver *)

Section ResolverFacts.

Import Resolver.

Variable tex2D : Z -> float -> float -> Cuda.float4.

Lemma decode_faceId_range batch i faceId :
  decode_faceId batch i = Some faceId -> - 2 ^ 31 <= faceId < 2 ^ 31.
Proof.
  unfold decode_faceId.
  destruct (load batch (i + 0)) as [slot|]; [|discriminate].
  simpl. intros [= <-]. unfold uint_to_int.
  pose proof (Z.mod_pos_bound (float_as_uint slot + 2 ^ 31) (2 ^ 32)). lia.
Qed.

Lemma out_of_range_false faceId n_faces :
  0 <= faceId < 2 ^ 31 -> 0 <= faceId < n_faces ->
  out_of_range faceId n_faces = false.
Proof.
  intros H1 H2. unfold out_of_range, int_to_uint.
  rewrite Z.mod_small by lia.
  apply orb_false_iff; split; [apply Z.ltb_ge|]; lia.
Qed.

Lemma out_of_range_true faceId n_faces :
  - 2 ^ 31 <= faceId < 2 ^ 31 -> ~ (0 <= faceId < n_faces) ->
  out_of_range faceId n_faces = true.
Proof.
  intros H1 H2. unfold out_of_range, int_to_uint.
  destruct (faceId <? 0) eqn:E; [reflexivity|apply Z.ltb_ge in E].
  rewrite Z.mod_small by lia. simpl. lia.
Qed.

Lemma thread_guard_false idx n_elements :
  0 <= idx < n_elements -> (idx >=? n_elements) = false.
Proof. intros H. destruct (idx >=? n_elements) eqn:E; [lia|reflexivity]. Qed.

Lemma write_zero_target_spec result o :
  0 <= o -> o + 5 < Z.of_nat (length result) ->
  exists result',
    write_zero_target result o = Some result' /\
    length result' = length result /\
    (forall k, 0 <= k < 6 -> load result' (o + k) = Some fzero) /\
    (forall j, j < o \/ o + 6 <= j -> load result' j = load result j).
Proof.
  intros Ho Hlen. unfold write_zero_target. run_stores.
  eexists; split; [reflexivity|].
  split; [by rewrite !length_insert|]. split; [|frame_slot].
  intros k Hk.
  assert (k = 0 \/ k = 1 \/ k = 2 \/ k = 3 \/ k = 4 \/ k = 5) as Hc by lia.
  destruct Hc as [->|[->|[->|[->|[->| ->]]]]]; read_slot.
Qed.

Lemma write_diffuse_spec mat uv result o :
  0 <= o -> o + 2 < Z.of_nat (length result) ->
  exists result',
    write_diffuse tex2D mat uv result o = Some result' /\
    length result' = length result /\
    (valid (map_Kd mat) = false ->
       load result' (o + 0) = Some (fst (fst (diffuse mat))) /\
       load result' (o + 1) = Some (snd (fst (diffuse mat))) /\
       load result' (o + 2) = Some (snd (diffuse mat))) /\
    (valid (map_Kd mat) = true ->
       let val := tex2D (texture (map_Kd mat)) (fst uv) (fsub fone (snd uv)) in
       load result' (o + 0) = Some (Cuda.x val) /\
       load result' (o + 1) = Some (Cuda.y val) /\
       load result' (o + 2) = Some (Cuda.z val)) /\
    (forall j, j < o \/ o + 3 <= j -> load result' j = load result j).
Proof.
  intros Ho Hlen. unfold write_diffuse.
  destruct (valid (map_Kd mat)); run_stores;
    (eexists; split; [reflexivity|]);
    (split; [by rewrite !length_insert|]);
    (split; [intros Hv; first [discriminate Hv | repeat split; read_slot]|]);
    (split; [intros Hv; first [discriminate Hv
                              | cbv zeta; repeat split; read_slot]|]);
    frame_slot.
Qed.

Lemma write_bump_spec mat uv result o :
  0 <= o -> o + 5 < Z.of_nat (length result) ->
  exists result',
    write_bump tex2D mat uv result o = Some result' /\
    length result' = length result /\
    (valid (map_Bump mat) = false ->
       load result' (o + 3) = Some fhalf /\
       load result' (o + 4) = Some fhalf /\
       load result' (o + 5) = Some fone) /\
    (valid (map_Bump mat) = true ->
       let val :=
         tex2D (texture (map_Bump mat)) (fst uv) (fsub fone (snd uv)) in
       load result' (o + 3) = Some (Cuda.x val) /\
       load result' (o + 4) = Some (Cuda.y val) /\
       load result' (o + 5) = Some (Cuda.z val)) /\
    (forall j, j < o + 3 \/ o + 6 <= j -> load result' j = load result j).
Proof.
  intros Ho Hlen. unfold write_bump.
  destruct (valid (map_Bump mat)); run_stores;
    (eexists; split; [reflexivity|]);
    (split; [by rewrite !length_insert|]);
    (split; [intros Hv; first [discriminate Hv | repeat split; read_slot]|]);
    (split; [intros Hv; first [discriminate Hv
                              | cbv zeta; repeat split; read_slot]|]);
    frame_slot.
Qed.

(** C2.  A sample whose decoded face id is negative or not below
    [n_faces], the id [n_faces] included, gets the target 0 in each of
    its [N_OUTPUT_DIMS] channels, and no other slot of the output
    changes. *)
Theorem out_of_range_face_yields_zero_target
    n_elements n_faces materials material_ids training_batch indices
    texcoords idx result faceId :
  0 <= idx < n_elements ->
  decode_faceId training_batch (idx * N_INPUT_DIMS) = Some faceId ->
  ~ (0 <= faceId < n_faces) ->
  idx * N_OUTPUT_DIMS + (N_OUTPUT_DIMS - 1) < Z.of_nat (length result) ->
  exists result',
    generate_training_target tex2D n_elements n_faces materials material_ids
      training_batch indices texcoords idx result = Some result' /\
    length result' = length result /\
    (forall k, 0 <= k < N_OUTPUT_DIMS ->
       load result' (idx * N_OUTPUT_DIMS + k) = Some fzero) /\
    (forall j, j < idx * N_OUTPUT_DIMS \/ (idx + 1) * N_OUTPUT_DIMS <= j ->
       load result' j = load result j).
Proof.
  intros Hidx Hdec Hout Hroom. unfold generate_training_target.
  rewrite thread_guard_false by assumption. rewrite Hdec. simpl.
  rewrite out_of_range_true by eauto using decode_faceId_range.
  unfold N_OUTPUT_DIMS in *.
  destruct (write_zero_target_spec result (idx * 6))
    as (r & -> & Hl & Hz & Hf); [lia|lia|].
  exists r. repeat split; auto. intros j Hj. apply Hf. lia.
Qed.

(** What the kernel writes for a sample with a face id in range. *)
Lemma in_range_face_spec
    n_elements n_faces materials material_ids training_batch indices
    texcoords idx result faceId mat uv :
  0 <= idx < n_elements ->
  decode_faceId training_batch (idx * N_INPUT_DIMS) = Some faceId ->
  0 <= faceId < n_faces ->
  uv_interp training_batch indices texcoords (idx * N_INPUT_DIMS) faceId
    = Some uv ->
  face_material materials material_ids faceId = Some mat ->
  idx * N_OUTPUT_DIMS + (N_OUTPUT_DIMS - 1) < Z.of_nat (length result) ->
  exists result',
    generate_training_target tex2D n_elements n_faces materials material_ids
      training_batch indices texcoords idx result = Some result' /\
    (valid (map_Kd mat) = false ->
       load result' (idx * N_OUTPUT_DIMS + 0)
         = Some (fst (fst (diffuse mat))) /\
       load result' (idx * N_OUTPUT_DIMS + 1)
         = Some (snd (fst (diffuse mat))) /\
       load result' (idx * N_OUTPUT_DIMS + 2) = Some (snd (diffuse mat))) /\
    (valid (map_Kd mat) = true ->
       let val := tex2D (texture (map_Kd mat)) (fst uv) (fsub fone (snd uv)) in
       load result' (idx * N_OUTPUT_DIMS + 0) = Some (Cuda.x val) /\
       load result' (idx * N_OUTPUT_DIMS + 1) = Some (Cuda.y val) /\
       load result' (idx * N_OUTPUT_DIMS + 2) = Some (Cuda.z val)) /\
    (valid (map_Bump mat) = false ->
       load result' (idx * N_OUTPUT_DIMS + 3) = Some fhalf /\
       load result' (idx * N_OUTPUT_DIMS + 4) = Some fhalf /\
       load result' (idx * N_OUTPUT_DIMS + 5) = Some fone).
Proof.
  intros Hidx Hdec Hin Huv Hmat Hroom. unfold generate_training_target.
  rewrite thread_guard_false by assumption. rewrite Hdec. simpl.
  pose proof (decode_faceId_range _ _ _ Hdec) as Hr.
  rewrite out_of_range_false by lia.
  rewrite Huv. simpl. rewrite Hmat. simpl.
  unfold N_OUTPUT_DIMS in *.
  destruct (write_diffuse_spec mat uv result (idx * 6))
    as (r1 & -> & Hl1 & Hc1 & Ht1 & Hf1); [lia|lia|]. simpl.
  destruct (write_bump_spec mat uv r1 (idx * 6))
    as (r2 & -> & Hl2 & Hc2 & Ht2 & Hf2); [lia|lia|].
  exists r2. split; [reflexivity|].
  split; [|split].
  - intros Hv. destruct (Hc1 Hv) as (A0 & A1 & A2).
    rewrite !Hf2 by lia. auto.
  - intros Hv. destruct (Ht1 Hv) as (A0 & A1 & A2).
    cbv zeta. rewrite !Hf2 by lia. auto.
  - exact Hc2.
Qed.

(** C5.  For a sample with a face id in range and the material [mat] of
    its face: without a valid [map_Kd], channels 0..2 are the material's
    [diffuse] colour; with one, they are the texture fetched at
    [(u, 1 - v)] for the interpolated coordinate [(u, v)]; without a
    valid [map_Bump], channels 3..5 are [(0.5, 0.5, 1.0)]. *)
Theorem in_range_face_channels
    n_elements n_faces materials material_ids training_batch indices
    texcoords idx result faceId mat uv :
  0 <= idx < n_elements ->
  decode_faceId training_batch (idx * N_INPUT_DIMS) = Some faceId ->
  0 <= faceId < n_faces ->
  uv_interp training_batch indices texcoords (idx * N_INPUT_DIMS) faceId
    = Some uv ->
  face_material materials material_ids faceId = Some mat ->
  idx * N_OUTPUT_DIMS + (N_OUTPUT_DIMS - 1) < Z.of_nat (length result) ->
  exists result',
    generate_training_target tex2D n_elements n_faces materials material_ids
      training_batch indices texcoords idx result = Some result' /\
    (valid (map_Kd mat) = false ->
       load result' (idx * N_OUTPUT_DIMS + 0)
         = Some (fst (fst (diffuse mat))) /\
       load result' (idx * N_OUTPUT_DIMS + 1)
         = Some (snd (fst (diffuse mat))) /\
       load result' (idx * N_OUTPUT_DIMS + 2) = Some (snd (diffuse mat))) /\
    (valid (map_Kd mat) = true ->
       let val := tex2D (texture (map_Kd mat)) (fst uv) (fsub fone (snd uv)) in
       load result' (idx * N_OUTPUT_DIMS + 0) = Some (Cuda.x val) /\
       load result' (idx * N_OUTPUT_DIMS + 1) = Some (Cuda.y val) /\
       load result' (idx * N_OUTPUT_DIMS + 2) = Some (Cuda.z val)) /\
    (valid (map_Bump mat) = false ->
       load result' (idx * N_OUTPUT_DIMS + 3) = Some fhalf /\
       load result' (idx * N_OUTPUT_DIMS + 4) = Some fhalf /\
       load result' (idx * N_OUTPUT_DIMS + 5) = Some fone).
Proof. apply in_range_face_spec. Qed.

(** C10.  For a sample with a face id in range, [material_ids[faceId]]
    indexes the material table with no check: the kernel is defined when
    that entry is an index into the table, and undefined when it is not,
    as for the entry -1 of a face without material. *)
Theorem material_lookup_defined_iff_valid_index
    n_elements n_faces materials material_ids training_batch indices
    texcoords idx result faceId uv mid :
  0 <= idx < n_elements ->
  decode_faceId training_batch (idx * N_INPUT_DIMS) = Some faceId ->
  0 <= faceId < n_faces ->
  uv_interp training_batch indices texcoords (idx * N_INPUT_DIMS) faceId
    = Some uv ->
  load material_ids faceId = Some mid ->
  idx * N_OUTPUT_DIMS + (N_OUTPUT_DIMS - 1) < Z.of_nat (length result) ->
  (0 <= mid < Z.of_nat (length materials) ->
     exists mat result',
       load materials mid = Some mat /\
       face_material materials material_ids faceId = Some mat /\
       generate_training_target tex2D n_elements n_faces materials
         material_ids training_batch indices texcoords idx result
       = Some result') /\
  (~ (0 <= mid < Z.of_nat (length materials)) ->
     generate_training_target tex2D n_elements n_faces materials
       material_ids training_batch indices texcoords idx result = None).
Proof.
  intros Hidx Hdec Hin Huv Hmid Hroom.
  pose proof (decode_faceId_range _ _ _ Hdec) as Hr.
  split.
  - intros Hv. destruct (load_is_Some materials mid Hv) as [mat Hm].
    assert (Hfm : face_material materials material_ids faceId = Some mat)
      by (unfold face_material; rewrite Hmid; exact Hm).
    destruct (in_range_face_spec n_elements n_faces materials
                material_ids training_batch indices texcoords idx result
                faceId mat uv) as (r & Hr' & _); auto.
    eauto 10.
  - intros Hv. unfold generate_training_target.
    rewrite thread_guard_false by assumption. rewrite Hdec. simpl.
    rewrite out_of_range_false by lia. rewrite Huv. simpl.
    unfold face_material. rewrite Hmid. simpl.
    rewrite load_None by assumption. reflexivity.
Qed.

End ResolverFacts.

Lemma out_of_range_face_yields_zero_target_witness :
  exists result',
    Resolver.generate_training_target Demo.tex2D 1 1 [Demo.flat] [0]
      (Demo.batch 1) Demo.indices Demo.texcoords 0 Demo.result
    = Some result' /\
    length result' = length Demo.result /\
    (forall k, 0 <= k < N_OUTPUT_DIMS ->
       load result' (0 * N_OUTPUT_DIMS + k) = Some fzero) /\
    (forall j, j < 0 * N_OUTPUT_DIMS \/ (0 + 1) * N_OUTPUT_DIMS <= j ->
       load result' j = load Demo.result j).
Proof.
  apply (out_of_range_face_yields_zero_target Demo.tex2D 1 1 [Demo.flat] [0]
           (Demo.batch 1) Demo.indices Demo.texcoords 0 Demo.result 1).
  - lia.
  - reflexivity.
  - lia.
  - reflexivity.
Defined.

Lemma in_range_face_channels_witness :
  exists result',
    Resolver.generate_training_target Demo.tex2D 1 1 [Demo.textured] [0]
      (Demo.batch 0) Demo.indices Demo.texcoords 0 Demo.result
    = Some result' /\
    map (fun k => load result' k) [0; 1; 2; 3; 4; 5]
      = map Some [fzero; fone; fzero; fhalf; fhalf; fone].
Proof.
  destruct (in_range_face_channels Demo.tex2D 1 1 [Demo.textured] [0]
              (Demo.batch 0) Demo.indices Demo.texcoords 0 Demo.result 0
              Demo.textured (fzero, fzero))
    as (r & Hr & _ & Ht & Hb).
  - lia.
  - reflexivity.
  - lia.
  - reflexivity.
  - reflexivity.
  - reflexivity.
  - exists r. split; [exact Hr|].
    destruct (Ht eq_refl) as (A0 & A1 & A2).
    destruct (Hb eq_refl) as (B0 & B1 & B2).
    simpl map.
    f_equal; [exact A0|]. f_equal; [exact A1|]. f_equal; [exact A2|].
    f_equal; [exact B0|]. f_equal; [exact B1|]. f_equal; exact B2.
Defined.

Lemma material_lookup_defined_iff_valid_index_witness :
  Resolver.generate_training_target Demo.tex2D 1 1 [Demo.flat] [-1]
    (Demo.batch 0) Demo.indices Demo.texcoords 0 Demo.result = None.
Proof.
  apply (material_lookup_defined_iff_valid_index Demo.tex2D 1 1 [Demo.flat]
           [-1] (Demo.batch 0) Demo.indices Demo.texcoords 0 Demo.result 0
           (fzero, fzero) (-1)).
  - lia.
  - reflexivity.
  - lia.
  - reflexivity.
  - reflexivity.
  - reflexivity.
  - simpl. lia.
Defined.

(** ** Face-Area CDF *)

Section CdfFacts.

Import Cdf.

Lemma is_zero_inv a : is_zero a = true -> exists s, a = Fzero s.
Proof. destruct a; try discriminate. eauto. Qed.

Lemma fadd_fzero_zero a : is_zero a = true -> fadd fzero a = fzero.
Proof. intros H. apply is_zero_inv in H as [[] ->]; reflexivity. Qed.

Lemma area_sum_degenerate histogram :
  Forall (fun a => is_zero a = true) histogram ->
  area_sum histogram = fzero.
Proof.
  unfold area_sum. induction 1 as [|a l Ha Hl IH]; [reflexivity|].
  simpl. by rewrite fadd_fzero_zero.
Qed.

(** 0 / 0 is a NaN. *)
Lemma fdiv_zero_zero a : is_zero a = true -> fdiv a fzero = of_spec S754_nan.
Proof. intros H. apply is_zero_inv in H as [[] ->]; reflexivity. Qed.

Lemma fadd_nan c : fadd c (of_spec S754_nan) = of_spec S754_nan.
Proof.
  unfold fadd. change (to_spec (of_spec S754_nan)) with S754_nan.
  by destruct (to_spec c).
Qed.

Lemma cdf_loop_degenerate c histogram :
  Forall (fun a => is_zero a = true) histogram ->
  cdf_loop fzero c histogram
    = replicate (length histogram) (of_spec S754_nan).
Proof.
  intros H. revert c. induction H as [|a l Ha Hl IH]; intros c; [reflexivity|].
  simpl. rewrite fdiv_zero_zero by assumption. rewrite fadd_nan.
  by rewrite IH.
Qed.

(** C4, as amended.  When every face has area 0 the total area is 0 and
    the CDF stage does not stop the program: each division of line 590 is
    0 / 0, and [cdf_host] comes out with one NaN per face. *)
Theorem degenerate_mesh_cdf_is_all_nan histogram :
  Forall (fun a => is_zero a = true) histogram ->
  area_sum histogram = fzero /\
  exists cdf_host,
    main_cdf 4 true histogram = Continue cdf_host /\
    length cdf_host = length histogram /\
    Forall (fun c => is_nan c = true) cdf_host.
Proof.
  intros H. split; [by apply area_sum_degenerate|].
  unfold main_cdf, build_cdf. simpl.
  rewrite area_sum_degenerate, cdf_loop_degenerate by assumption.
  eexists; split; [reflexivity|]. split; [apply length_replicate|].
  by apply Forall_replicate.
Qed.

Lemma degenerate_mesh_cdf_is_all_nan_witness :
  Forall (fun a => is_zero a = true) [fzero; Fzero true] /\
  area_sum [fzero; Fzero true] = fzero /\
  exists cdf_host,
    main_cdf 4 true [fzero; Fzero true] = Continue cdf_host /\
    length cdf_host = 2%nat /\
    Forall (fun c => is_nan c = true) cdf_host.
Proof.
  assert (H : Forall (fun a => is_zero a = true) [fzero; Fzero true])
    by (repeat constructor).
  split; [exact H|].
  exact (degenerate_mesh_cdf_is_all_nan [fzero; Fzero true] H).
Defined.

(** C4 as stated fails: for two faces of area 0 the stage goes on with a
    CDF of two NaNs, so a total area of 0 does not always end in an exit
    with a failure status. *)
Lemma degenerate_mesh_cdf_does_not_fail :
  is_zero (area_sum [fzero; fzero]) = true /\
  main_cdf 4 true [fzero; fzero]
    = Continue [of_spec S754_nan; of_spec S754_nan] /\
  ~ (forall histogram,
       is_zero (area_sum histogram) = true ->
       exists status, status <> 0 /\
                      main_cdf 4 true histogram = Exit status).
Proof.
  split; [reflexivity|]. split; [reflexivity|].
  intros H. destruct (H [fzero; fzero]) as (status & _ & Hs); [reflexivity|].
  discriminate Hs.
Qed.

End CdfFacts.

(** ** Mesh Adjacency Builder *)

Section AdjacencyFacts.

Import Adjacency.

Lemma records_flatten rs : records (flatten rs) = rs.
Proof. induction rs as [|[[o a] b] rs IH]; simpl; congruence. Qed.

Lemma length_flatten rs : length (flatten rs) = (3 * length rs)%nat.
Proof. induction rs as [|[[o a] b] rs IH]; simpl; lia. Qed.

Lemma flatten_app rs rs' : flatten (rs ++ rs') = flatten rs ++ flatten rs'.
Proof. induction rs as [|[[o fa] fb] rs IH]; simpl; [done|]. by rewrite IH. Qed.

Lemma others_of_flatten rs : others_of (flatten rs) = (fun r => r.1.1) <$> rs.
Proof. unfold others_of. by rewrite records_flatten. Qed.

(** A vertex index is found at the head of a record or not at all. *)
Lemma find_flatten n v rs :
  v < n -> Forall (face_slots_ok n) rs ->
  match find (flatten rs) v with
  | None => Forall (fun r => r.1.1 <> v) rs
  | Some d => exists k a b,
      d = (3 * k)%nat /\ rs !! k = Some (v, a, b) /\
      Forall (fun r => r.1.1 <> v) (take k rs)
  end.
Proof.
  intros Hv. induction 1 as [|[[o a] b] rs [Ha Hb] Hrs IH]; simpl in *.
  - constructor.
  - destruct (o =? v) eqn:Eo.
    + apply Z.eqb_eq in Eo as ->. exists 0%nat, a, b. auto.
    + apply Z.eqb_neq in Eo.
      destruct (a =? v) eqn:Ea; [apply Z.eqb_eq in Ea; lia|].
      destruct (b =? v) eqn:Eb; [apply Z.eqb_eq in Eb; lia|].
      destruct (find (flatten rs) v) as [d|]; simpl.
      * destruct IH as (k & a' & b' & -> & Hk & Hpre).
        exists (Datatypes.S k), a', b'. split; [lia|]. split; [exact Hk|].
        simpl. constructor; auto.
      * constructor; auto.
Qed.

(** Line 626 overwrites the last slot of the record found. *)
Lemma insert_flatten rs k o a b c :
  rs !! k = Some (o, a, b) ->
  <[(3 * k + 2)%nat := c]> (flatten rs) = flatten (<[k := (o, a, c)]> rs).
Proof.
  revert k. induction rs as [|[[o' a'] b'] rs IH]; intros k Hk; [done|].
  destruct k as [|k]; simpl in *.
  - by injection Hk as -> -> ->.
  - replace (k + Datatypes.S (k + Datatypes.S (k + 0)) + 2)%nat
      with (Datatypes.S (Datatypes.S (3 * k + 2)))%nat by lia.
    simpl. f_equal. f_equal. f_equal. by apply IH.
Qed.

Lemma find_empty_guard (e : list Z) v :
  (if bool_decide (e = []) then None else find e v) = find e v.
Proof. case_bool_decide; [by subst|done]. Qed.

Lemma add_edge_ok n i a b adjEdges :
  edges_ok n adjEdges ->
  0 <= a < n -> 0 <= b < n -> a <> b ->
  0 <= i -> n + i < 2 ^ 32 ->
  exists adjEdges', add_edge n i a b adjEdges = Some adjEdges' /\
                    edges_ok n adjEdges' /\
                    edge_stored adjEdges' a b /\
                    (forall c d, edge_stored adjEdges c d ->
                                 edge_stored adjEdges' c d).
Proof.
  intros [Hlen Hok] Ha Hb Hab Hi Hni. unfold add_edge.
  destruct (load_is_Some adjEdges (Z.min a b)) as [e He]; [lia|].
  rewrite He. simpl. rewrite find_empty_guard.
  destruct (Hok _ _ He) as (rs & -> & Hrs).
  assert (Hc : int_to_uint (n + i) = n + i)
    by (unfold int_to_uint; apply Z.mod_small; lia).
  rewrite Hc.
  assert (Hfs : Forall (face_slots_ok n) rs)
    by (eapply Forall_impl; [exact Hrs|]; by intros r [_ ?]).
  pose proof (find_flatten n (Z.max a b) rs ltac:(lia) Hfs) as Hfind.
  destruct (find (flatten rs) (Z.max a b)) as [d|].
  - destruct Hfind as (k & fa & fb & -> & Hk & _).
    pose proof (lookup_lt_Some _ _ _ Hk) as Hklt.
    rewrite bool_decide_true by (rewrite length_flatten; lia).
    rewrite store_Some by lia.
    rewrite (insert_flatten rs k _ fa fb) by exact Hk.
    set (rs' := <[k := (Z.max a b, fa, n + i)]> rs).
    assert (Hsame : (fun r : Z * Z * Z => r.1.1) <$> rs'
                    = (fun r : Z * Z * Z => r.1.1) <$> rs).
    { unfold rs'. rewrite list_fmap_insert. simpl.
      apply list_insert_id. by rewrite list_lookup_fmap, Hk. }
    eexists; split; [reflexivity|]. split; [|split].
    + split; [by rewrite length_insert|].
      intros v e Hv.
      destruct (Z.eq_dec v (Z.min a b)) as [->|Hne].
      * erewrite load_store_eq in Hv by (apply store_Some; lia).
        injection Hv as <-.
        eexists; split; [reflexivity|].
        apply Forall_insert; [exact Hrs|].
        pose proof (Forall_lookup_1 _ _ _ _ Hrs Hk) as [Ho [Hfa Hfb]].
        repeat split; simpl in *; lia.
      * erewrite load_store_ne in Hv by (try apply store_Some; lia).
        by apply Hok.
    + exists (flatten rs'). split.
      * eapply load_store_eq, store_Some; lia.
      * rewrite others_of_flatten, Hsame.
        apply list_elem_of_lookup. exists k.
        by rewrite list_lookup_fmap, Hk.
    + intros c d (e & He' & Hin).
      destruct (Z.eq_dec (Z.min c d) (Z.min a b)) as [Heq|Hne].
      * rewrite Heq in He'. rewrite He in He'. injection He' as <-.
        exists (flatten rs'). split.
        -- rewrite Heq. eapply load_store_eq, store_Some; lia.
        -- rewrite others_of_flatten, Hsame.
           by rewrite others_of_flatten in Hin.
      * exists e. split; [|exact Hin].
        erewrite load_store_ne by (try apply store_Some; lia). exact He'.
  - rewrite store_Some by lia.
    replace (flatten rs ++ [Z.max a b; n + i; NO_FACE])
      with (flatten (rs ++ [(Z.max a b, n + i, NO_FACE)]))
      by (by rewrite flatten_app).
    set (rs' := rs ++ [(Z.max a b, n + i, NO_FACE)]).
    eexists; split; [reflexivity|]. split; [|split].
    + split; [by rewrite length_insert|].
      intros v e Hv.
      destruct (Z.eq_dec v (Z.min a b)) as [->|Hne].
      * erewrite load_store_eq in Hv by (apply store_Some; lia).
        injection Hv as <-.
        exists rs'. split; [reflexivity|].
        apply Forall_app; split; [exact Hrs|].
        constructor; [|constructor].
        unfold record_ok, face_slots_ok, NO_FACE; simpl. lia.
      * erewrite load_store_ne in Hv by (try apply store_Some; lia).
        by apply Hok.
    + exists (flatten rs'). split.
      * eapply load_store_eq, store_Some; lia.
      * rewrite others_of_flatten. unfold rs'. rewrite fmap_app.
        apply elem_of_app. right. simpl. apply list_elem_of_singleton.
        reflexivity.
    + intros c d (e & He' & Hin).
      destruct (Z.eq_dec (Z.min c d) (Z.min a b)) as [Heq|Hne].
      * rewrite Heq in He'. rewrite He in He'. injection He' as <-.
        exists (flatten rs'). split.
        -- rewrite Heq. eapply load_store_eq, store_Some; lia.
        -- rewrite others_of_flatten. unfold rs'. rewrite fmap_app.
           apply elem_of_app. left. by rewrite others_of_flatten in Hin.
      * exists e. split; [|exact Hin].
        erewrite load_store_ne by (try apply store_Some; lia). exact He'.
Qed.

Lemma push_back_ok n adj v i :
  Z.of_nat (length adj) = n -> 0 <= v < n ->
  exists adj', push_back adj v i = Some adj' /\ Z.of_nat (length adj') = n.
Proof.
  intros Hlen Hv. unfold push_back.
  destruct (load_is_Some adj v) as [l Hl]; [lia|]. rewrite Hl. simpl.
  rewrite store_Some by lia.
  eexists; split; [reflexivity|]. by rewrite length_insert.
Qed.

Lemma add_face_ok n indices i adj :
  0 <= n -> 0 <= i -> n + i < 2 ^ 32 ->
  face_ok n indices i ->
  build_inv n indices i adj ->
  exists adj', add_face n indices i adj = Some adj' /\
               build_inv n indices (i + 1) adj'.
Proof.
  intros Hn Hi Hni
    (i0 & i1 & i2 & H0 & H1 & H2 & R0 & R1 & R2 & D01 & D02 & D12).
  destruct adj as [adjFaces adjEdges]. intros (HF & HE & Hdone). simpl in *.
  unfold add_face. rewrite H0, H1, H2. simpl.
  assert (Hu : forall v, 0 <= v < n -> int_to_uint v = v)
    by (intros v Hv; unfold int_to_uint; apply Z.mod_small; lia).
  rewrite !Hu by assumption.
  destruct (push_back_ok n adjFaces (vertex_index i0) i) as (F1 & -> & HF1);
    [assumption..|]. simpl.
  destruct (push_back_ok n F1 (vertex_index i1) i) as (F2 & -> & HF2);
    [assumption..|]. simpl.
  destruct (push_back_ok n F2 (vertex_index i2) i) as (F3 & -> & HF3);
    [assumption..|]. simpl.
  destruct (add_edge_ok n i (vertex_index i0) (vertex_index i1) adjEdges)
    as (E1 & -> & HE1 & S1 & K1); [assumption..|]. simpl.
  destruct (add_edge_ok n i (vertex_index i0) (vertex_index i2) E1)
    as (E2 & -> & HE2 & S2 & K2); [assumption..|]. simpl.
  destruct (add_edge_ok n i (vertex_index i1) (vertex_index i2) E2)
    as (E3 & -> & HE3 & S3 & K3); [assumption..|]. simpl.
  eexists; split; [reflexivity|]. split; [exact HF3|]. split; [exact HE3|].
  simpl. intros j Hj.
  destruct (Z.eq_dec j i) as [->|Hne].
  - exists i0, i1, i2. repeat split; auto.
  - destruct (Hdone j) as (j0 & j1 & j2 & ? & ? & ? & ? & ? & ?); [lia|].
    exists j0, j1, j2. repeat split; auto.
Qed.

Lemma build_ok n_vertices n_faces indices :
  0 <= n_vertices < 2 ^ 31 -> 0 <= n_faces < 2 ^ 31 ->
  mesh_ok n_vertices n_faces indices ->
  exists adj, build n_vertices n_faces indices = Some adj /\
              build_inv n_vertices indices n_faces adj.
Proof.
  intros Hn Hf Hmesh. unfold build.
  destruct (for_loop_invariant (add_face n_vertices indices)
              (fun i adj => 0 <= i /\ build_inv n_vertices indices i adj)
              (Z.to_nat n_faces) 0
              (replicate (Z.to_nat n_vertices) [],
               replicate (Z.to_nat n_vertices) []))
    as (adj & Hadj & _ & Hinv).
  - split; [lia|]. split; [|split]; simpl.
    + rewrite length_replicate. lia.
    + split; [rewrite length_replicate; lia|].
      intros v e Hv. exists []. split; [|constructor].
      unfold load in Hv. destruct (v <? 0); [discriminate|].
      by apply lookup_replicate in Hv as [-> _].
    + intros j Hj. lia.
  - intros j t Hj [Hj0 Hinv].
    destruct (add_face_ok n_vertices indices j t) as (t' & Ht' & Hinv');
      [lia|lia|lia|apply Hmesh; lia|assumption|].
    exists t'. split; [assumption|]. split; [lia|assumption].
  - exists adj. split; [assumption|].
    by replace (0 + Z.of_nat (Z.to_nat n_faces)) with n_faces in Hinv by lia.
Qed.

(** C9.  On a mesh whose faces have three distinct vertices in range,
    the builder returns, every edge list is a sequence of whole records,
    every record in the list of a vertex [v] names an endpoint above
    [v], and each edge of each face has its record in the list of its
    smaller endpoint. *)
Theorem edge_records_live_at_min_endpoint n_vertices n_faces indices :
  0 <= n_vertices < 2 ^ 31 -> 0 <= n_faces < 2 ^ 31 ->
  mesh_ok n_vertices n_faces indices ->
  exists adjFaces adjEdges,
    build n_vertices n_faces indices = Some (adjFaces, adjEdges) /\
    (forall v e, load adjEdges v = Some e ->
       flatten (records e) = e /\
       forall o fa fb, (o, fa, fb) ∈ records e -> v < o) /\
    (forall i, 0 <= i < n_faces -> face_edges_stored indices adjEdges i).
Proof.
  intros Hn Hf Hmesh.
  destruct (build_ok n_vertices n_faces indices Hn Hf Hmesh)
    as ([adjFaces adjEdges] & Hb & _ & [_ HE] & Hst). simpl in *.
  exists adjFaces, adjEdges. split; [exact Hb|]. split; [|exact Hst].
  intros v e Hv. destruct (HE v e Hv) as (rs & -> & Hrs).
  rewrite records_flatten. split; [reflexivity|].
  intros o fa fb Hin.
  by destruct (proj1 (Forall_forall _ _) Hrs _ Hin) as [[? _] _].
Qed.

Lemma edge_records_live_at_min_endpoint_witness :
  exists adjFaces adjEdges,
    build 4 2 Demo.quad = Some (adjFaces, adjEdges) /\
    (forall v e, load adjEdges v = Some e ->
       flatten (records e) = e /\
       forall o fa fb, (o, fa, fb) ∈ records e -> v < o) /\
    (forall i, 0 <= i < 2 -> face_edges_stored Demo.quad adjEdges i).
Proof.
  apply (edge_records_live_at_min_endpoint 4 2 Demo.quad).
  - lia.
  - lia.
  - intros i Hi. assert (i = 0 \/ i = 1) as [->| ->] by lia;
      eexists _, _, _; repeat split; try reflexivity; simpl; lia.
Defined.

(** Every pair of triangles over four vertices, checked one by one. *)
Lemma two_triangles_enumerated :
  forallb (fun a0 => forallb (fun a1 => forallb (fun a2 =>
  forallb (fun b0 => forallb (fun b1 => forallb (fun b2 =>
  forallb (fun u => forallb (fun w =>
    two_triangles_check a0 a1 a2 b0 b1 b2 u w)
  vertices4) vertices4) vertices4) vertices4) vertices4) vertices4)
  vertices4) vertices4 = true.
Proof. by vm_compute. Qed.

Lemma vertices4_In v : 0 <= v < 4 -> In v vertices4.
Proof.
  intros H. assert (v = 0 \/ v = 1 \/ v = 2 \/ v = 3) as Hc by lia.
  unfold vertices4. simpl. intuition auto.
Qed.

(** C7.  For two triangles over four vertices with the edge between [u]
    and [w] in common, the builder holds one record for that edge, under
    its smaller endpoint, with the two faces as [4 + 0] and [4 + 1] and no
    [NO_FACE] left, and the lookup finds that record from [(u, w)] and
    from [(w, u)]. *)
Theorem shared_edge_has_one_full_record f0 f1 u w :
  shares_edge f0 f1 u w ->
  exists adjFaces adjEdges,
    build 4 2 (mesh_of [f0; f1]) = Some (adjFaces, adjEdges) /\
    edge_records_of adjEdges u w = [(Z.max u w, 4 + 0, 4 + 1)] /\
    edge_record adjEdges u w = Some (Z.max u w, 4 + 0, 4 + 1) /\
    edge_record adjEdges w u = Some (Z.max u w, 4 + 0, 4 + 1).
Proof.
  destruct f0 as [[a0 a1] a2], f1 as [[b0 b1] b2]. intros Hs.
  assert (Hr : (0 <= a0 < 4 /\ 0 <= a1 < 4 /\ 0 <= a2 < 4) /\
               (0 <= b0 < 4 /\ 0 <= b1 < 4 /\ 0 <= b2 < 4) /\
               0 <= u < 4 /\ 0 <= w < 4).
  { destruct Hs as (M0 & M1 & _ & _ & _ & U0 & W0 & _).
    unfold in_mesh, on_face in *; simpl in *. lia. }
  destruct Hr as ((A0 & A1 & A2) & (B0 & B1 & B2) & Hu & Hw).
  pose proof two_triangles_enumerated as H.
  rewrite forallb_forall in H. specialize (H a0 (vertices4_In a0 A0)).
  rewrite forallb_forall in H. specialize (H a1 (vertices4_In a1 A1)).
  rewrite forallb_forall in H. specialize (H a2 (vertices4_In a2 A2)).
  rewrite forallb_forall in H. specialize (H b0 (vertices4_In b0 B0)).
  rewrite forallb_forall in H. specialize (H b1 (vertices4_In b1 B1)).
  rewrite forallb_forall in H. specialize (H b2 (vertices4_In b2 B2)).
  rewrite forallb_forall in H. specialize (H u (vertices4_In u Hu)).
  rewrite forallb_forall in H. specialize (H w (vertices4_In w Hw)).
  unfold two_triangles_check in H.
  rewrite bool_decide_true in H by exact Hs.
  apply bool_decide_eq_true in H. unfold shared_edge_ok in H.
  destruct (build 4 2 (mesh_of [(a0, a1, a2); (b0, b1, b2)]))
    as [[adjFaces adjEdges]|]; [|contradiction].
  exists adjFaces, adjEdges. split; [reflexivity|exact H].
Qed.

Lemma shared_edge_has_one_full_record_witness :
  exists adjFaces adjEdges,
    build 4 2 (mesh_of [(0, 1, 2); (2, 1, 3)]) = Some (adjFaces, adjEdges) /\
    edge_records_of adjEdges 2 1 = [(2, 4, 5)] /\
    edge_record adjEdges 2 1 = Some (2, 4, 5) /\
    edge_record adjEdges 1 2 = Some (2, 4, 5).
Proof.
  apply (shared_edge_has_one_full_record (0, 1, 2) (2, 1, 3) 2 1).
  unfold shares_edge, in_mesh, nondegenerate, on_face; simpl.
  repeat split; lia.
Defined.

(** C3, as amended.  For one triangle on the vertices 0, 1, 2, each
    vertex has the one face id 0; the three edges are recorded once each,
    under their smaller endpoint, so that vertex 0 has two records,
    vertex 1 one and vertex 2 none; each record ends in [NO_FACE]. *)
Theorem single_triangle_adjacency a b c :
  0 <= a < 3 -> 0 <= b < 3 -> 0 <= c < 3 ->
  a <> b -> a <> c -> b <> c ->
  exists adjFaces adjEdges,
    build 3 1 (mesh_of [(a, b, c)]) = Some (adjFaces, adjEdges) /\
    adjFaces = [[0]; [0]; [0]] /\
    (fun e => length (records e)) <$> adjEdges = [2; 1; 0]%nat /\
    Forall (fun e => flatten (records e) = e) adjEdges /\
    Forall (fun e => Forall (fun r => r.2 = NO_FACE) (records e)) adjEdges.
Proof.
  intros Ha Hb Hc Hab Hac Hbc.
  assert (a = 0 \/ a = 1 \/ a = 2) as [->|[->| ->]] by lia;
    (assert (b = 0 \/ b = 1 \/ b = 2) as [->|[->| ->]] by lia); try lia;
    (assert (c = 0 \/ c = 1 \/ c = 2) as [->|[->| ->]] by lia); try lia;
    (eexists _, _; split; [by vm_compute|]);
    (split; [reflexivity|]); (split; [reflexivity|]);
    split; repeat constructor.
Qed.

Lemma single_triangle_adjacency_witness :
  exists adjFaces adjEdges,
    build 3 1 (mesh_of [(2, 0, 1)]) = Some (adjFaces, adjEdges) /\
    adjFaces = [[0]; [0]; [0]] /\
    (fun e => length (records e)) <$> adjEdges = [2; 1; 0]%nat /\
    Forall (fun e => flatten (records e) = e) adjEdges /\
    Forall (fun e => Forall (fun r => r.2 = NO_FACE) (records e)) adjEdges.
Proof. apply (single_triangle_adjacency 2 0 1); lia. Defined.

(** C3 as stated fails: on the triangle (0, 1, 2) the list of vertex 2
    holds no record, so not every vertex has two. *)
Lemma single_triangle_last_vertex_has_no_edge_record :
  exists adjFaces adjEdges,
    build 3 1 (mesh_of [(0, 1, 2)]) = Some (adjFaces, adjEdges) /\
    (fun e => length (records e)) <$> load adjEdges 2 = Some 0%nat /\
    ~ (forall v, 0 <= v < 3 ->
         exists e, load adjEdges v = Some e /\ length (records e) = 2%nat).
Proof.
  eexists _, _. split; [by vm_compute|]. split; [reflexivity|].
  intros H. destruct (H 2) as (e & He & Hl); [lia|].
  vm_compute in He. injection He as <-. discriminate.
Qed.

(** The two buffers handed to the encoding, for the triangle (0, 1, 2):
    each vertex segment is a length followed by the list. *)
Example single_triangle_serialized :
  (adj ← build 3 1 (mesh_of [(0, 1, 2)]); serialize 3 adj.1 adj.2)
  = Some ([0; 2; 4; 6; 13; 17],
          [1; 0; 1; 0; 1; 0;
           6; 1; 3; NO_FACE; 2; 3; NO_FACE;
           3; 2; 3; NO_FACE;
           0]).
Proof. by vm_compute. Qed.

End AdjacencyFacts.

(** ** Training Loop Driver *)

Section TrainingFacts.

Import Training.

Variable loss : Z -> float.

Lemma run_succ n : 0 <= n -> run loss (n + 1) = step loss n (run loss n).
Proof.
  intros Hn. unfold run.
  replace (Z.to_nat (n + 1)) with (Datatypes.S (Z.to_nat n)) by lia.
  rewrite iterate_succ. f_equal. lia.
Qed.

Lemma print_loss_closed i st :
  0 <= i -> interval st = interval_at i -> print_loss i st = prints_at i.
Proof.
  intros Hi Hint. unfold print_loss, prints_at, interval_at in *. rewrite Hint.
  repeat match goal with
         | |- context [?a <=? ?b] => destruct (Z.leb_spec a b)
         | |- context [?a =? ?b] => destruct (Z.eqb_spec a b)
         end; simpl; try reflexivity; try lia.
  all: exfalso; Z.div_mod_to_equations; lia.
Qed.

Lemma accumulates_closed i st :
  interval st = interval_at i -> accumulates i st = samples_at i.
Proof. intros Hint. unfold accumulates, samples_at. by rewrite Hint. Qed.

(** The first 101 steps, by evaluation. *)
Lemma small_step_cases (P : Z -> bool) i :
  forallb P (seqZ 0 101) = true -> 0 <= i <= 100 -> P i = true.
Proof.
  intros Hall Hi. rewrite forallb_forall in Hall. apply Hall.
  apply list_elem_of_In, elem_of_seqZ. lia.
Qed.

Lemma interval_next i :
  0 <= i ->
  interval_at (i + 1) =
    if prints_at i && (0 <? i) && (interval_at i <? 1000)
    then (interval_at i * 10) mod 2 ^ 32 else interval_at i.
Proof.
  intros Hi. destruct (Z.le_gt_cases i 100) as [Hs|Hl].
  - apply Z.eqb_eq.
    apply (small_step_cases (fun i => interval_at (i + 1) =?
      (if prints_at i && (0 <? i) && (interval_at i <? 1000)
       then (interval_at i * 10) mod 2 ^ 32 else interval_at i)));
      [by vm_compute|lia].
  - unfold interval_at.
    destruct (Z.leb_spec (i + 1) 10); [lia|].
    destruct (Z.leb_spec (i + 1) 100); [lia|].
    destruct (Z.leb_spec i 10); [lia|].
    destruct (Z.leb_spec i 100); [lia|].
    by rewrite andb_false_r.
Qed.

Lemma counter_next i :
  0 <= i ->
  counter_at (i + 1) =
    if prints_at i then 0
    else if samples_at i then (counter_at i + 1) mod 2 ^ 32
         else counter_at i.
Proof.
  intros Hi. destruct (Z.le_gt_cases i 100) as [Hs|Hl].
  - apply Z.eqb_eq.
    apply (small_step_cases (fun i => counter_at (i + 1) =?
      (if prints_at i then 0
       else if samples_at i then (counter_at i + 1) mod 2 ^ 32
            else counter_at i)));
      [by vm_compute|lia].
  - unfold counter_at, prints_at, samples_at, interval_at.
    replace (i + 1 - 1) with i by lia.
    destruct (Z.leb_spec (i + 1) 100); [lia|].
    destruct (Z.leb_spec i 10); [lia|].
    destruct (Z.leb_spec i 100); [lia|].
    destruct (Z.eqb_spec i 0); [lia|].
    destruct (Z.eqb_spec i 10); [lia|].
    destruct (Z.eqb_spec i 100); [lia|].
    change (Z.min 1000 100) with 100. simpl.
    change (2 ^ 32) with 4294967296.
    destruct (Z.leb_spec 1000 i); simpl;
      destruct (Z.eqb_spec (i mod 1000) 0);
      destruct (Z.leb_spec (i + 1) 1000); try lia;
      destruct (Z.leb_spec i 1000); try lia;
      try destruct (Z.eqb_spec (i mod 100) 0).
    all: Z.div_mod_to_equations; lia.
Qed.

Lemma step_closed i st :
  0 <= i ->
  interval st = interval_at i ->
  tmp_loss_counter st = counter_at i ->
  interval (step loss i st) = interval_at (i + 1) /\
  tmp_loss_counter (step loss i st) = counter_at (i + 1) /\
  map fst (printed (step loss i st))
    = map fst (printed st) ++ (if prints_at i then [i] else []).
Proof.
  intros Hi Hint Hcnt. unfold step.
  rewrite (print_loss_closed i st Hi Hint), (accumulates_closed i st Hint).
  rewrite (interval_next i Hi), (counter_next i Hi).
  destruct (prints_at i), (samples_at i); simpl; rewrite ?Hint, ?Hcnt;
    destruct (0 <? i), (interval_at i <? 1000); simpl;
    rewrite ?map_app, ?app_nil_r; auto.
Qed.

Lemma run_closed n :
  0 <= n ->
  interval (run loss n) = interval_at n /\
  tmp_loss_counter (run loss n) = counter_at n /\
  map fst (printed (run loss n)) = List.filter prints_at (seqZ 0 n).
Proof.
  revert n. apply natlike_ind; [by vm_compute|].
  intros n Hn (Hint & Hcnt & Hpr).
  change (Z.succ n) with (n + 1). rewrite run_succ by assumption.
  destruct (step_closed n (run loss n) Hn Hint Hcnt) as (-> & -> & ->).
  split; [reflexivity|]. split; [reflexivity|].
  rewrite seqZ_app by lia. rewrite List.filter_app, Hpr. simpl.
  rewrite Z.add_0_l. reflexivity.
Qed.


End TrainingFacts.


(** The run of [main]: 5000 training iterations, losses taken as 1. *)
Example main_run_prints :
  map fst (Training.printed
             (Training.run (fun _ => fone) (Training.n_training_steps 5000)))
  = [0; 10; 100; 1000; 2000; 3000; 4000; 5000].
Proof. by vm_compute. Qed.

(** ** The face id of a draw *)

Section DrawFacts.

Import Sampler Draws.

(** A value that stays below the integer [n] when half a unit of the
    last place is added rounds to a float whose integer part is below
    [n]. *)
Lemma round_then_truncate_below mx ex n :
  0 < mx -> ex <= 0 -> 1 <= n < 2 ^ 24 ->
  mx + 2 ^ (snd (shr_fexp prec emax mx ex loc_Exact) - ex) / 2
    < n * 2 ^ (- ex) ->
  exists t,
    to_uint (of_spec (binary_round_aux prec emax false mx ex loc_Exact))
      = Some t /\ 0 <= t < n.
Proof.
  intros Hmx Hex Hn Hlt. unfold binary_round_aux.
  pose proof (shr_fexp_nearest mx ex ltac:(lia)) as (He1 & HR0 & HR).
  cbv zeta in He1, HR0, HR.
  destruct (shr_fexp prec emax mx ex loc_Exact) as [mrs1 e1].
  cbn [fst snd] in *.
  set (R1 := round_nearest_even (shr_m mrs1) (loc_of_shr_record mrs1)) in *.
  pose proof (shr_fexp_spec R1 e1 loc_Exact HR0) as [E2 H2].
  destruct (shr_fexp prec emax R1 e1 loc_Exact) as [mrs2 e2].
  cbn [fst snd] in *.
  assert (He2 : e1 <= e2) by lia.
  pose proof (pow2_pos (e2 - e1) ltac:(lia)) as P21.
  pose proof (pow2_pos (e1 - ex) ltac:(lia)) as P1x.
  pose proof (pow2_pos (e2 - ex) ltac:(lia)) as P2x.
  pose proof (pow2_pos (- ex) ltac:(lia)) as Px.
  assert (Hm2 : 0 <= shr_m mrs2) by (rewrite H2; apply Z.div_pos; lia).
  assert (Hm2R : shr_m mrs2 * 2 ^ (e2 - e1) <= R1).
  { rewrite H2, Z.mul_comm. apply Z.mul_div_le. lia. }
  assert (Hsplit : 2 ^ (e2 - ex) = 2 ^ (e2 - e1) * 2 ^ (e1 - ex)).
  { rewrite <- Z.pow_add_r by lia; f_equal; lia. }
  assert (Hval : shr_m mrs2 * 2 ^ (e2 - ex) < n * 2 ^ (- ex)).
  { rewrite Hsplit. nia. }
  destruct (shr_m mrs2) as [|m2|m2] eqn:Em2; [| |lia].
  - exists 0. split; [reflexivity|lia].
  - assert (He2u : e2 < 24).
    { destruct (Z.lt_ge_cases e2 24) as [?|Hge]; [assumption|exfalso].
      assert (2 ^ (24 - ex) <= 2 ^ (e2 - ex)) by (apply pow2_le; lia).
      assert (2 ^ (24 - ex) = 2 ^ 24 * 2 ^ (- ex)).
      { rewrite <- Z.pow_add_r by lia; f_equal; lia. }
      nia. }
    destruct (Z.leb_spec e2 (emax - prec)); [|unfold emax, prec in *; lia].
    cbn [of_spec to_uint].
    set (t := if 0 <=? e2 then Z.pos m2 * 2 ^ e2
              else Z.pos m2 / 2 ^ (- e2)).
    assert (Ht : 0 <= t < n).
    { unfold t. destruct (Z.leb_spec 0 e2).
      - pose proof (pow2_pos e2 ltac:(lia)).
        assert (2 ^ (e2 - ex) = 2 ^ e2 * 2 ^ (- ex)).
        { rewrite <- Z.pow_add_r by lia; f_equal; lia. }
        split; [lia|]. nia.
      - pose proof (pow2_pos (- e2) ltac:(lia)).
        assert (2 ^ (- ex) = 2 ^ (- e2) * 2 ^ (e2 - ex)).
        { rewrite <- Z.pow_add_r by lia; f_equal; lia. }
        pose proof (Z.mul_div_le (Z.pos m2) (2 ^ (- e2)) ltac:(lia)).
        assert (0 <= Z.pos m2 / 2 ^ (- e2)) by (apply Z.div_pos; lia).
        split; [lia|]. nia. }
    destruct (Z.eqb_spec t 0) as [->|Hne]; [exists 0; split; [reflexivity|lia]|].
    destruct (Z.ltb_spec t (2 ^ 32)); [|lia].
    exists t. split; [reflexivity|lia].
Qed.

(** The product of a draw below 1 with the face count stays below the
    face count by more than half a unit of its last place. *)
Lemma product_half_ulp_below mr er mn en n :
  Z.pos mr < 2 ^ 24 -> er < 0 -> Z.pos mr < 2 ^ (- er) ->
  en <= 0 -> Z.pos mn = n * 2 ^ (- en) -> 1 <= n ->
  Z.pos (mr * mn)
  + 2 ^ (snd (shr_fexp prec emax (Z.pos (mr * mn)) (er + en) loc_Exact)
         - (er + en)) / 2
  < n * 2 ^ (- (er + en)).
Proof.
  intros Hmr Her Hr Hen Hmn Hn.
  pose proof (shr_fexp_spec (Z.pos (mr * mn)) (er + en) loc_Exact ltac:(lia))
    as [E1 _].
  rewrite E1. clear E1.
  set (M := Z.pos (mr * mn)). set (ex := er + en).
  set (d := Zdigits2 M).
  pose proof (Zdigits2_bounds M ltac:(unfold M; lia)) as Hd. fold d in Hd.
  assert (Hd1 : 1 <= d).
  { unfold d, M. simpl. lia. }
  pose proof (pow2_pos (- er) ltac:(lia)) as Per.
  pose proof (pow2_pos (- en) ltac:(lia)) as Pen.
  assert (HN : n * 2 ^ (- ex) = Z.pos mn * 2 ^ (- er)).
  { unfold ex. replace (- (er + en)) with (- en + - er) by lia.
    rewrite Z.pow_add_r by lia. rewrite Hmn. ring. }
  assert (HM : M = Z.pos mr * Z.pos mn) by (unfold M; lia).
  assert (HMN : M + Z.pos mn <= n * 2 ^ (- ex)) by (rewrite HN, HM; nia).
  unfold fexp, emin, prec, emax.
  destruct (Z.max_spec ex (Z.max (d + ex - 24) (3 - 128 - 24)))
    as [[Hlt ->]|[Hle ->]].
  - (* a shift *)
    destruct (Z.max_spec (d + ex - 24) (3 - 128 - 24)) as [[Hsub ->]|[Hnor ->]].
    + (* into the subnormal range *)
      set (p := 3 - 128 - 24 - ex).
      assert (Hp : 1 <= p) by (subst p; lia).
      assert (Hhalf : 2 ^ p / 2 = 2 ^ (p - 1)).
      { rewrite (pow2_split 1 p) by lia. change (2 ^ 1) with 2.
        rewrite Z.mul_comm. apply Z.div_mul. lia. }
      rewrite Hhalf.
      assert (2 ^ d <= 2 ^ (p + 23)) by (apply pow2_le; subst p; lia).
      assert (2 ^ (p - 1) < 2 ^ (p + 23)) by (apply pow2_lt; lia).
      assert (2 ^ (p + 24) = 2 * 2 ^ (p + 23)).
      { rewrite <- Z.pow_succ_r by lia. f_equal. lia. }
      assert (2 ^ (p + 24) <= 2 ^ (- ex)) by (apply pow2_le; subst p; lia).
      pose proof (pow2_pos (- ex) ltac:(unfold ex; lia)).
      nia.
    + (* in the normal range *)
      set (p := d + ex - 24 - ex).
      assert (Hp : 1 <= p) by (subst p; lia).
      assert (Hhalf : 2 ^ p / 2 = 2 ^ (p - 1)).
      { rewrite (pow2_split 1 p) by lia. change (2 ^ 1) with 2.
        rewrite Z.mul_comm. apply Z.div_mul. lia. }
      rewrite Hhalf.
      assert (Hsp : 2 ^ (d - 1) = 2 ^ 24 * 2 ^ (p - 1)).
      { rewrite <- Z.pow_add_r by (subst p; lia). f_equal.
        subst p. lia. }
      pose proof (pow2_pos (p - 1) ltac:(lia)).
      assert (2 ^ (p - 1) < Z.pos mn) by nia.
      lia.
  - rewrite Z.sub_diag. change (2 ^ 0 / 2) with 0. lia.
Qed.

(** A float that needs no rounding is left as it is. *)
Lemma binary_round_aux_exact sx m e :
  fexp prec emax (Zdigits2 (Z.pos m) + e) <= e -> e <= emax - prec ->
  binary_round_aux prec emax sx (Z.pos m) e loc_Exact = S754_finite sx m e.
Proof.
  intros Hf He. unfold binary_round_aux, shr_fexp, shr.
  destruct (fexp prec emax (Zdigits2 (Z.pos m) + e) - e) as [|p|p] eqn:En;
    [|lia|];
    cbn [shr_record_of_loc shr_m loc_of_shr_record round_nearest_even];
    rewrite En; cbn [shr_m];
    (destruct (Z.leb_spec e (emax - prec)); [reflexivity|lia]).
Qed.

(** [(float) n] is exact below 2^24. *)
Lemma of_uint_exact n :
  1 <= n < 2 ^ 24 ->
  exists mn en,
    of_uint n = Ffinite false mn en /\ en <= 0 /\ Z.pos mn = n * 2 ^ (- en).
Proof.
  intros Hn. destruct n as [|pn|pn]; try lia.
  unfold of_uint, binary_normalize, binary_round.
  pose proof (Zdigits2_bounds (Z.pos pn) ltac:(lia)) as Hd.
  assert (Hd24 : Zdigits2 (Z.pos pn) <= 24) by (apply Zdigits2_le; lia).
  assert (Hd1 : 1 <= Zdigits2 (Z.pos pn)) by (simpl; lia).
  change (Z.pos (digits2_pos pn)) with (Zdigits2 (Z.pos pn)).
  set (d := Zdigits2 (Z.pos pn)) in *.
  assert (Hfe : fexp prec emax (d + 0) = d - 24)
    by (unfold fexp, emin, prec, emax; lia).
  rewrite Hfe.
  pose proof (shl_align_spec pn 0 (d - 24)) as (Hle & Hval & Hsnd).
  specialize (Hsnd ltac:(lia)).
  destruct (shl_align pn 0 (d - 24)) as [mz ez]. cbn [fst snd] in *.
  subst ez.
  assert (Hmz : Z.pos mz < 2 ^ 24).
  { rewrite Hval. replace (0 - (d - 24)) with (24 - d) by lia.
    rewrite (pow2_split d 24) by lia.
    pose proof (pow2_pos (24 - d) ltac:(lia)). nia. }
  rewrite binary_round_aux_exact.
  - exists mz, (d - 24). split; [reflexivity|]. split; [lia|].
    rewrite Hval; f_equal; f_equal; lia.
  - assert (Zdigits2 (Z.pos mz) <= 24) by (apply Zdigits2_le; lia).
    unfold fexp, emin, prec, emax. lia.
  - unfold emax, prec. lia.
Qed.

(** [fmodf(u, 1.0f)] of a draw: the draw itself, or 0 for the draw
    1.0. *)
Lemma fmodf_one_draw u :
  uniform_draw u = true ->
  fmodf_one u = Fzero false \/
  exists mr er, fmodf_one u = Ffinite false mr er /\
    Z.pos mr < 2 ^ 24 /\ er < 0 /\ Z.pos mr < 2 ^ (- er).
Proof.
  destruct u as [| | |[] m e]; try discriminate. cbn [uniform_draw].
  intros H. apply andb_true_iff in H as [H Hv].
  apply andb_true_iff in H as [H He]. apply andb_true_iff in H as [Hlo Hhi].
  apply Z.leb_le in Hlo, He. apply Z.ltb_lt in Hhi.
  unfold fmodf_one.
  apply orb_true_iff in Hv as [Hv|Hv].
  - apply Z.ltb_lt in Hv. right.
    destruct (Z.leb_spec 0 e); [lia|].
    assert (Hpow : 2 ^ 24 <= 2 ^ (- e)) by (apply pow2_le; lia).
    rewrite Z.mod_small by lia. cbn [cond_Zopp binary_normalize].
    unfold binary_round.
    assert (Hd : Zdigits2 (Z.pos m) = 24).
    { pose proof (Zdigits2_bounds (Z.pos m) ltac:(lia)) as Hb.
      assert (Zdigits2 (Z.pos m) <= 24) by (apply Zdigits2_le; lia).
      destruct (Z.eq_dec (Zdigits2 (Z.pos m)) 24) as [?|Hne]; [assumption|].
      exfalso.
      assert (0 < Zdigits2 (Z.pos m)) by (simpl; lia).
      assert (2 ^ Zdigits2 (Z.pos m) <= 2 ^ 23) by (apply pow2_le; lia).
      lia. }
    change (Z.pos (digits2_pos m)) with (Zdigits2 (Z.pos m)). rewrite Hd.
    assert (Hfe : fexp prec emax (24 + e) = e)
      by (unfold fexp, emin, prec, emax; lia).
    rewrite Hfe.
    pose proof (shl_align_spec m e e) as (_ & Hval & Hsnd).
    specialize (Hsnd ltac:(lia)).
    destruct (shl_align m e e) as [mz ez]. cbn [fst snd] in *. subst ez.
    rewrite Z.sub_diag, Z.mul_1_r in Hval. injection Hval as ->.
    rewrite binary_round_aux_exact;
      [|rewrite Hd, Hfe; lia|unfold emax, prec; lia].
    exists m, e. repeat split; [lia..].
  - apply andb_true_iff in Hv as [Hv1 Hv2].
    apply Z.eqb_eq in Hv1, Hv2. subst e. left.
    injection Hv2 as ->. reflexivity.
Qed.

(** The face id that line 205 computes. *)
Lemma face_id_below n_faces u :
  uniform_draw u = true -> 1 <= n_faces < 2 ^ 24 ->
  exists faceId,
    to_uint (fmul (fmodf_one u) (of_uint n_faces)) = Some faceId /\
    0 <= faceId < n_faces.
Proof.
  intros Hu Hn.
  destruct (of_uint_exact n_faces Hn) as (mn & en & -> & Hen & Hmn).
  destruct (fmodf_one_draw u Hu) as [->|(mr & er & -> & Hmr & Her & Hr)].
  - exists 0. split; [reflexivity|lia].
  - unfold fmul. cbn [to_spec SFmul xorb].
    apply round_then_truncate_below; [lia|lia|exact Hn|].
    apply product_half_ulp_below; (assumption || lia).
Qed.

(** The thread of the sampler, for a draw. *)
Lemma sampler_thread_face_id n_elements n_faces u0 u1 u2 idx result :
  uniform_draw u0 = true ->
  1 <= n_faces < 2 ^ 24 ->
  0 <= idx < n_elements ->
  idx * 3 + 2 < Z.of_nat (length result) ->
  exists faceId result',
    generate_face_positions n_elements n_faces u0 u1 u2 idx result
      = Some result' /\
    0 <= faceId < n_faces /\
    load result' (idx * N_INPUT_DIMS + 0) = Some (uint_as_float faceId) /\
    Resolver.decode_faceId result' (idx * N_INPUT_DIMS) = Some faceId /\
    Resolver.out_of_range faceId n_faces = false.
Proof.
  intros Hu Hn Hidx Hlen.
  destruct (face_id_below n_faces u0 Hu Hn) as (faceId & Hdraw & Hf).
  assert (Hrt : float_as_uint (uint_as_float faceId) = faceId)
    by (apply float_as_uint_as_float; lia).
  unfold generate_face_positions.
  destruct (idx >=? n_elements) eqn:E; [lia|clear E].
  rewrite Hdraw. simpl. run_stores.
  exists faceId. eexists. split; [reflexivity|]. split; [exact Hf|].
  match goal with
  | |- context [load ?b (?i + 0)] =>
      assert (Hslot : load b (i + 0) = Some (uint_as_float faceId))
        by (unfold N_INPUT_DIMS; read_slot)
  end.
  split; [exact Hslot|].
  unfold Resolver.decode_faceId. rewrite Hslot. simpl. rewrite Hrt.
  assert (Hi : uint_to_int faceId = faceId).
  { unfold uint_to_int. rewrite Z.mod_small by lia. lia. }
  rewrite Hi. split; [reflexivity|].
  apply out_of_range_false; lia.
Qed.

(** X1.  For every draw that [curand_uniform] can return and every face
    count from 1 to below 2^24, the thread stores a face id below
    [n_faces]: the resolver reads that id back and does not take it for
    one out of range. *)
Theorem sampled_face_id_is_in_range n_elements n_faces u0 u1 u2 idx result :
  uniform_draw u0 = true ->
  1 <= n_faces < 2 ^ 24 ->
  0 <= idx < n_elements ->
  idx * 3 + 2 < Z.of_nat (length result) ->
  exists faceId result',
    generate_face_positions n_elements n_faces u0 u1 u2 idx result
      = Some result' /\
    0 <= faceId < n_faces /\
    load result' (idx * N_INPUT_DIMS + 0) = Some (uint_as_float faceId) /\
    Resolver.decode_faceId result' (idx * N_INPUT_DIMS) = Some faceId /\
    Resolver.out_of_range faceId n_faces = false.
Proof. apply sampler_thread_face_id. Qed.

Lemma sampled_face_id_is_in_range_witness :
  exists faceId result',
    generate_face_positions 1 10 Demo.draw least_draw least_draw 0
      (replicate 3 fzero) = Some result' /\
    0 <= faceId < 10 /\
    load result' (0 * N_INPUT_DIMS + 0) = Some (uint_as_float faceId) /\
    Resolver.decode_faceId result' (0 * N_INPUT_DIMS) = Some faceId /\
    Resolver.out_of_range faceId 10 = false.
Proof.
  apply (sampled_face_id_is_in_range 1 10 Demo.draw least_draw least_draw 0
           (replicate 3 fzero)).
  - reflexivity.
  - lia.
  - lia.
  - simpl. lia.
Defined.

End DrawFacts.

(** ** [splitString] *)

Section ParsingFacts.

Import Parsing.
Import Stdlib.Strings.String.

Variable d : Ascii.ascii.

Lemma getline_None s : getline s d = None <-> s = EmptyString.
Proof.
  destruct s as [|c s]; cbn; [tauto|].
  split; [|discriminate].
  destruct (Ascii.eqb c d); [discriminate|].
  destruct (getline s d) as [[? ?]|]; discriminate.
Qed.

(** What a successful [getline] returns. *)
Lemma getline_Some s token rest :
  getline s d = Some (token, rest) ->
  occurs d token = false /\
  (String.length rest < String.length s)%nat /\
  ((s = append token (String d rest)) \/
   (s = token /\ rest = EmptyString /\ occurs d s = false)).
Proof.
  revert token rest. induction s as [|c s IH]; cbn; intros token rest H.
  - discriminate.
  - destruct (Ascii.eqb c d) eqn:E.
    + apply Ascii.eqb_eq in E. subst c. injection H as <- <-.
      cbn. repeat split; [lia|]. left. reflexivity.
    + destruct (getline s d) as [[t r]|] eqn:G.
      * injection H as <- <-. destruct (IH t r eq_refl) as (A & B & C).
        cbn. rewrite E. cbn. repeat split; [exact A|lia|].
        destruct C as [C|(C1 & C2 & C3)].
        -- left. rewrite C at 1. reflexivity.
        -- right. subst. auto.
      * injection H as <- <-. apply getline_None in G. subst s.
        cbn. rewrite E. cbn. repeat split; [lia|]. right. auto.
Qed.

Lemma ends_with_cons c s :
  s <> EmptyString -> ends_with d (String c s) = ends_with d s.
Proof. destruct s; [congruence|reflexivity]. Qed.

Lemma ends_with_append t s :
  s <> EmptyString -> ends_with d (append t s) = ends_with d s.
Proof.
  intros Hs. induction t as [|c t IH]; cbn; [reflexivity|].
  destruct (append t s) eqn:E.
  - destruct t; cbn in E; [congruence|discriminate].
  - exact IH.
Qed.

Lemma ends_with_occurs s : ends_with d s = true -> occurs d s = true.
Proof.
  induction s as [|c s IH]; cbn; [discriminate|].
  destruct s.
  - intros ->. reflexivity.
  - intros H. rewrite (IH H). apply orb_true_r.
Qed.

Lemma occurrences_append t s :
  occurrences d (append t s) = (occurrences d t + occurrences d s)%nat.
Proof. induction t as [|c t IH]; cbn; [reflexivity|]. rewrite IH. lia. Qed.

Lemma occurrences_none s : occurs d s = false -> occurrences d s = O.
Proof.
  induction s as [|c s IH]; cbn; [reflexivity|].
  intros H. apply orb_false_elim in H as [-> H]. rewrite IH by exact H. reflexivity.
Qed.

Lemma append_empty_r s : append s EmptyString = s.
Proof. induction s; cbn; congruence. Qed.

Lemma append_assoc' a b c : append (append a b) c = append a (append b c).
Proof. induction a; cbn; congruence. Qed.

Lemma join_cons token tokens :
  tokens <> [] ->
  join d (token :: tokens) =
  append token (append (String d EmptyString) (join d tokens)).
Proof. destruct tokens; [congruence|reflexivity]. Qed.

(** The loop, for any stream that the fuel covers. *)
Lemma split_loop_spec fuel : forall s result,
  (String.length s < fuel)%nat ->
  exists tokens,
    split_loop fuel s d result = result ++ tokens /\
    Forall (fun t => occurs d t = false) tokens /\
    append (join d tokens) (dropped_tail d s) = s /\
    List.length tokens =
      (occurrences d s +
       (if ends_with d s then 0 else
        match s with EmptyString => 0 | _ => 1 end))%nat /\
    (s <> EmptyString -> tokens <> []).
Proof.
  induction fuel as [|fuel IH]; intros s result Hlen; [lia|].
  cbn. destruct (getline s d) as [[token rest]|] eqn:G.
  - destruct (getline_Some _ _ _ G) as (Hd & Hl & Hs).
    destruct (IH rest (result ++ [token]) ltac:(lia))
      as (toks & E & F & J & N & NE).
    exists (token :: toks). rewrite E, <- app_assoc. split; [reflexivity|].
    split; [constructor; assumption|].
    assert (Hne : s <> EmptyString).
    { intros ->. discriminate G. }
    destruct Hs as [Hs|(Hs1 & Hs2 & Hs3)].
    + destruct rest as [|c rest'].
      * (* the stream ends in the delimiter *)
        assert (toks = []) as ->.
        { destruct toks; [reflexivity|]. cbn in N. discriminate N. }
        assert (He : ends_with d s = true).
        { rewrite Hs, ends_with_append by discriminate. cbn.
          apply Ascii.eqb_refl. }
        unfold dropped_tail. rewrite He. unfold join. cbn.
        repeat split; [congruence| |congruence].
        rewrite Hs, occurrences_append, (occurrences_none _ Hd). cbn.
        rewrite Ascii.eqb_refl. lia.
      * assert (Hr : String c rest' <> EmptyString) by discriminate.
        specialize (NE Hr).
        assert (He : ends_with d s = ends_with d (String c rest')).
        { rewrite Hs, ends_with_append by discriminate.
          apply ends_with_cons. discriminate. }
        unfold dropped_tail in *. rewrite He.
        destruct toks as [|t toks]; [congruence|].
        repeat split; [| |congruence].
        -- rewrite join_cons by congruence.
           rewrite append_assoc'. cbn [append]. rewrite J. congruence.
        -- change (List.length (token :: t :: toks))
             with (S (List.length (t :: toks))). rewrite N.
           replace (match s with EmptyString => O | _ => 1%nat end)
             with 1%nat by (destruct s; congruence).
           rewrite Hs, occurrences_append, (occurrences_none _ Hd).
           change (occurrences d (String d (String c rest')))
             with ((if Ascii.eqb d d then 1 else 0) +
                   occurrences d (String c rest'))%nat.
           rewrite Ascii.eqb_refl.
           destruct (ends_with d (String c rest')); lia.
    + subst rest. subst token.
      assert (toks = []) as ->.
      { destruct toks; [reflexivity|]. cbn in N. discriminate N. }
      assert (He : ends_with d s = false).
      { destruct (ends_with d s) eqn:He; [|reflexivity].
        apply ends_with_occurs in He. congruence. }
      unfold dropped_tail. rewrite He. unfold join. cbn.
      rewrite append_empty_r. repeat split; [|congruence].
      rewrite (occurrences_none _ Hs3). destruct s; [congruence|reflexivity].
  - apply getline_None in G. subst s. exists []. rewrite app_nil_r.
    repeat split; [constructor|congruence].
Qed.

(** X2.  No token of [splitString] holds the delimiter. *)
Theorem splitString_tokens_hold_no_delimiter input :
  Forall (fun t => occurs d t = false) (splitString input d).
Proof.
  unfold splitString.
  destruct (split_loop_spec (S (String.length input)) input [] ltac:(lia))
    as (tokens & -> & H & _).
  exact H.
Qed.

(** X3.  The tokens of [splitString] written out with the delimiter
    between them give the input back, but for one delimiter at its very
    end: an input [a,b,] and an input [a,b] both give the tokens [a]
    and [b]. *)
Theorem splitString_joins_back input :
  append (join d (splitString input d)) (dropped_tail d input) = input.
Proof.
  unfold splitString.
  destruct (split_loop_spec (S (String.length input)) input [] ltac:(lia))
    as (tokens & -> & _ & H & _).
  exact H.
Qed.

(** X4.  [splitString] returns one token for each delimiter of the
    input, and one more for what follows the last delimiter unless
    nothing does; the empty input gives no token. *)
Theorem splitString_token_count input :
  List.length (splitString input d) =
    (occurrences d input +
     (if ends_with d input then 0 else
      match input with EmptyString => 0 | _ => 1 end))%nat.
Proof.
  unfold splitString.
  destruct (split_loop_spec (S (String.length input)) input [] ltac:(lia))
    as (tokens & -> & _ & _ & H & _).
  exact H.
Qed.

End ParsingFacts.

(** ** Reading the sample file *)

Section SampleFileFacts.

Import Parsing SampleFile.
Import Stdlib.Strings.String.

Variable stoi : string -> option Z.
Variable stoul : string -> option Z.
Variable stof : string -> option float.

(** X5.  A first line without a comma never gives a width and a
    height: [main] reads [w_and_h[1]] outside the vector, unless the
    line is empty, where it reads [w_and_h[0]] outside it, or [stoi]
    throws on the line before. *)
Theorem header_without_comma_is_out_of_bounds firstLine :
  occurs comma firstLine = false ->
  read_header stoi firstLine
  = match firstLine with
    | EmptyString => Undefined
    | _ => match stoi firstLine with
           | None => Throws
           | Some _ => Undefined
           end
    end.
Proof.
  intros Hno. unfold read_header, splitString.
  destruct (split_loop_spec comma (S (String.length firstLine)) firstLine []
              ltac:(lia)) as (tokens & -> & _ & Hjoin & Hcount & _).
  assert (He : ends_with comma firstLine = false).
  { destruct (ends_with comma firstLine) eqn:E; [|reflexivity].
    apply ends_with_occurs in E. congruence. }
  rewrite (occurrences_none _ _ Hno), He in Hcount.
  unfold dropped_tail in Hjoin. rewrite He in Hjoin.
  rewrite append_empty_r in Hjoin. simpl app.
  destruct firstLine as [|c rest].
  - destruct tokens; [reflexivity|discriminate].
  - destruct tokens as [|t [|t' tokens]]; try discriminate.
    unfold join in Hjoin. simpl in Hjoin. subst t. simpl.
    by destruct (stoi (String c rest)).
Qed.

(** X6.  A line of the sample file of which [splitString] makes fewer
    than three tokens, as a line with one comma or the line [7,0.5,],
    never gives its three floats: [main] reads [s_pos] outside the
    vector, or a conversion throws before it does. *)
Theorem sample_line_needs_three_fields line :
  (fields line < 3)%nat ->
  read_sample stoul stof line = Undefined \/
  read_sample stoul stof line = Throws.
Proof.
  unfold read_sample, fields, splitString.
  destruct (split_loop_spec comma (S (String.length line)) line []
              ltac:(lia)) as (tokens & -> & _ & _ & <- & _).
  simpl app. intros Hlen.
  destruct tokens as [|a [|b [|c l]]]; simpl in *; try lia; auto.
  - destruct (stoul a); auto.
  - destruct (stoul a); auto. destruct (stof b); auto.
Qed.

End SampleFileFacts.

Lemma header_without_comma_is_out_of_bounds_witness :
  SampleFile.read_header SampleLines.any_number SampleLines.lone_width
  = SampleFile.Undefined.
Proof.
  apply (header_without_comma_is_out_of_bounds SampleLines.any_number
           SampleLines.lone_width).
  reflexivity.
Defined.

Lemma sample_line_needs_three_fields_witness :
  SampleFile.read_sample SampleLines.any_number SampleLines.any_float
    SampleLines.short_line = SampleFile.Undefined \/
  SampleFile.read_sample SampleLines.any_number SampleLines.any_float
    SampleLines.short_line = SampleFile.Throws.
Proof.
  apply (sample_line_needs_three_fields SampleLines.any_number
           SampleLines.any_float SampleLines.short_line).
  by vm_compute.
Defined.

(** ** The serialized adjacency lists *)

Section LayoutFacts.

Import Adjacency Layout.

Lemma encode_lists_app a b :
  encode_lists (a ++ b) = encode_lists a ++ encode_lists b.
Proof. unfold encode_lists. apply flat_map_app. Qed.

Lemma length_encode_lists adj :
  Z.of_nat (length (encode_lists adj)) = entries adj.
Proof.
  induction adj as [|l adj IH]; [reflexivity|].
  simpl. rewrite length_app. lia.
Qed.

Lemma entries_app a b : entries (a ++ b) = entries a + entries b.
Proof. induction a as [|l a IH]; simpl; lia. Qed.

Lemma entries_nonneg a : 0 <= entries a.
Proof. induction a as [|l a IH]; simpl; lia. Qed.

Lemma int_to_uint_small z : 0 <= z < 2 ^ 32 -> int_to_uint z = z.
Proof. intros H. unfold int_to_uint. apply Z.mod_small. exact H. Qed.

(** A list is read back from where it was laid down. *)
Lemma segment_at pre l post :
  Z.of_nat (length pre) < 2 ^ 32 ->
  Z.of_nat (length l) < 2 ^ 32 ->
  segment (pre ++ (int_to_uint (Z.of_nat (length l)) :: l) ++ post)
          (int_to_uint (Z.of_nat (length pre))) = Some l.
Proof.
  intros Hp Hl. unfold segment.
  rewrite !int_to_uint_small by lia.
  unfold load. destruct (Z.of_nat (length pre) <? 0) eqn:E; [lia|].
  rewrite Nat2Z.id.
  rewrite lookup_app_r by lia. rewrite Nat.sub_diag. simpl.
  replace (Z.to_nat (Z.of_nat (length pre) + 1)) with (length pre + 1)%nat
    by lia.
  rewrite Nat2Z.id.
  assert (D : drop (length pre + 1)
                (pre ++ (Z.of_nat (length l) :: l) ++ post) = l ++ post).
  { rewrite <- drop_drop. rewrite drop_app_length. reflexivity. }
  simpl in D. rewrite D. rewrite take_app_length.
  rewrite bool_decide_eq_true_2 by reflexivity. reflexivity.
Qed.

Lemma take_succ_load {A} (adj : list A) j l :
  0 <= j -> load adj j = Some l ->
  take (Z.to_nat (j + 1)) adj = take (Z.to_nat j) adj ++ [l].
Proof.
  intros Hj H. unfold load in H. destruct (j <? 0) eqn:E; [lia|].
  replace (Z.to_nat (j + 1)) with (S (Z.to_nat j)) by lia.
  by apply take_S_r.
Qed.

(** One of the two loops, from any [offsets_host] and [meta_host]. *)
Lemma serialize_loop base adj offsets0 meta0 (c : nat) :
  0 <= base ->
  base + Z.of_nat c <= Z.of_nat (length offsets0) ->
  (c <= length adj)%nat ->
  exists offsets,
    for_loop (serialize_vertex base adj) c 0 (offsets0, meta0)
      = Some (offsets, meta0 ++ encode_lists (take c adj)) /\
    length offsets = length offsets0 /\
    (forall k, ~ (base <= k < base + Z.of_nat c) ->
       load offsets k = load offsets0 k) /\
    (forall v, 0 <= v < Z.of_nat c ->
       load offsets (base + v)
       = Some (int_to_uint
                 (Z.of_nat (length (meta0 ++
                    encode_lists (take (Z.to_nat v) adj)))))).
Proof.
  intros Hb Ho Ha.
  pose (Inv := fun (j : Z) (om : list Z * list Z) =>
    om.2 = meta0 ++ encode_lists (take (Z.to_nat j) adj) /\
    length om.1 = length offsets0 /\
    (forall k, ~ (base <= k < base + j) -> load om.1 k = load offsets0 k) /\
    (forall v, 0 <= v < j ->
       load om.1 (base + v)
       = Some (int_to_uint
                 (Z.of_nat (length (meta0 ++
                    encode_lists (take (Z.to_nat v) adj))))))).
  destruct (for_loop_invariant (serialize_vertex base adj) Inv c 0
              (offsets0, meta0)) as ([o m] & E & I1 & I2 & I3 & I4).
  - unfold Inv. simpl. rewrite app_nil_r. repeat split; auto. intros; lia.
  - intros j [o m] Hj (I1 & I2 & I3 & I4). simpl in *.
    assert (Hs : exists o', store o (base + j)
                   (int_to_uint (Z.of_nat (length m))) = Some o').
    { unfold store.
      destruct ((0 <=? base + j) && (base + j <? Z.of_nat (length o))) eqn:X;
        [eauto|]. apply andb_false_iff in X. lia. }
    destruct Hs as (o' & Hs). rewrite Hs. simpl.
    destruct (load_is_Some adj j) as (l & Hl); [lia|].
    rewrite Hl. simpl. eexists. split; [reflexivity|].
    unfold Inv. simpl.
    pose proof (store_inv _ _ _ _ Hs) as (Hr & ->).
    split; [|split; [|split]].
    + rewrite (take_succ_load adj j l) by (lia || assumption).
      rewrite encode_lists_app, I1, <- app_assoc. simpl.
      rewrite app_nil_r. reflexivity.
    + rewrite length_insert. exact I2.
    + intros k Hk. rewrite <- I3 by lia.
      unfold load. destruct (k <? 0) eqn:X; [reflexivity|].
      apply list_lookup_insert_ne. lia.
    + intros v Hv. destruct (Z.eq_dec v j) as [->|Hne].
      * unfold load. destruct (base + j <? 0) eqn:X; [lia|].
        rewrite list_lookup_insert_eq by lia. rewrite I1. reflexivity.
      * rewrite <- I4 by lia.
        unfold load. destruct (base + v <? 0) eqn:X; [reflexivity|].
        apply list_lookup_insert_ne. lia.
  - exists o. simpl in *.
    replace (Z.to_nat (0 + Z.of_nat c)) with c in I1 by lia. subst m.
    split; [exact E|]. split; [exact I2|]. split.
    + intros k Hk. apply I3. lia.
    + intros v Hv. apply I4. lia.
Qed.

Lemma entries_take_le (adj : list (list Z)) k : entries (take k adj) <= entries adj.
Proof.
  rewrite <- (take_drop k adj) at 2. rewrite entries_app.
  pose proof (entries_nonneg (drop k adj)). lia.
Qed.

Lemma entries_elem (adj : list (list Z)) v l :
  load adj v = Some l -> 1 + Z.of_nat (length l) <= entries adj.
Proof.
  intros H. unfold load in H. destruct (v <? 0); [discriminate|].
  rewrite <- (take_drop_middle _ _ _ H), entries_app. simpl.
  pose proof (entries_nonneg (take (Z.to_nat v) adj)).
  pose proof (entries_nonneg (drop (S (Z.to_nat v)) adj)). lia.
Qed.

(** The list of vertex [v] is read back from a buffer that holds the
    lists of [adj] behind [pre] and before [post]. *)
Lemma segment_of_encoded pre adj post v l :
  Z.of_nat (length pre) + entries adj < 2 ^ 32 ->
  load adj v = Some l ->
  segment (pre ++ encode_lists adj ++ post)
    (int_to_uint (Z.of_nat (length (pre ++
        encode_lists (take (Z.to_nat v) adj))))) = Some l.
Proof.
  intros Hsz Hl.
  pose proof (entries_elem _ _ _ Hl) as Hle.
  pose proof (entries_take_le adj (Z.to_nat v)) as Ht.
  pose proof (entries_nonneg (take (Z.to_nat v) adj)) as Ht0.
  unfold load in Hl. destruct (v <? 0) eqn:X; [discriminate|].
  pose proof (take_drop_middle _ _ _ Hl) as Hsplit.
  rewrite <- Hsplit at 1.
  rewrite encode_lists_app. simpl.
  replace (pre ++ (encode_lists (take (Z.to_nat v) adj) ++
             int_to_uint (Z.of_nat (length l)) :: l ++
             encode_lists (drop (S (Z.to_nat v)) adj)) ++ post)
    with ((pre ++ encode_lists (take (Z.to_nat v) adj)) ++
          (int_to_uint (Z.of_nat (length l)) :: l) ++
          (encode_lists (drop (S (Z.to_nat v)) adj) ++ post))
    by (simpl; rewrite <- !app_assoc; simpl; rewrite <- !app_assoc; reflexivity).
  apply segment_at.
  - rewrite length_app, Nat2Z.inj_add, length_encode_lists. lia.
  - lia.
Qed.

(** The two loops one after the other. *)
Lemma serialize_read_back n adjFaces adjEdges :
  Z.of_nat (length adjFaces) = n ->
  Z.of_nat (length adjEdges) = n ->
  2 * n < 2 ^ 31 ->
  entries adjFaces + entries adjEdges < 2 ^ 32 ->
  exists offsets_host meta_host,
    serialize n adjFaces adjEdges = Some (offsets_host, meta_host) /\
    Z.of_nat (length offsets_host) = 2 * n /\
    Z.of_nat (length meta_host) = entries adjFaces + entries adjEdges /\
    forall v, 0 <= v < n ->
      read_back offsets_host meta_host v = load adjFaces v /\
      read_back offsets_host meta_host (n + v) = load adjEdges v.
Proof.
  intros HF HE Hint Hsz. unfold serialize, int_mul, new_vector.
  assert (Hn : 0 <= n) by lia.
  assert (Hi1 : (- 2 ^ 31 <=? 2 * n) = true) by (apply Z.leb_le; lia).
  assert (Hi2 : (2 * n <? 2 ^ 31) = true) by (apply Z.ltb_lt; lia).
  assert (Hi3 : (2 * n <? 0) = false) by (apply Z.ltb_ge; lia).
  rewrite Hi1, Hi2. cbn [andb mbind option_bind]. rewrite Hi3.
  cbn [mbind option_bind].
  destruct (serialize_loop 0 adjFaces
              (replicate (Z.to_nat (2 * n)) 0) [] (Z.to_nat n))
    as (o1 & E1 & L1 & F1 & W1);
    [lia|rewrite length_replicate; lia|lia|].
  rewrite E1. simpl.
  destruct (serialize_loop n adjEdges o1
              (encode_lists (take (Z.to_nat n) adjFaces)) (Z.to_nat n))
    as (o2 & E2 & L2 & F2 & W2);
    [lia|rewrite L1, length_replicate; lia|lia|].
  rewrite E2.
  exists o2, (encode_lists adjFaces ++ encode_lists adjEdges).
  split; [rewrite !firstn_all2 by lia; reflexivity|].
  split; [rewrite L2, L1, length_replicate; lia|].
  split; [rewrite length_app, Nat2Z.inj_add, !length_encode_lists; lia|].
  intros v Hv. unfold read_back. split.
  - rewrite F2 by lia. pose proof (W1 v ltac:(lia)) as W. simpl in W.
    rewrite Z.add_0_l in W. rewrite W. simpl.
    destruct (load_is_Some adjFaces v) as (l & Hl); [lia|]. rewrite Hl.
    pose proof (segment_of_encoded [] adjFaces (encode_lists adjEdges) v l)
      as S. simpl in S. apply S; [|exact Hl].
    pose proof (entries_nonneg adjEdges). lia.
  - rewrite (W2 v) by lia. simpl.
    destruct (load_is_Some adjEdges v) as (l & Hl); [lia|]. rewrite Hl.
    rewrite !firstn_all2 by lia.
    pose proof (segment_of_encoded (encode_lists adjFaces) adjEdges [] v l)
      as S. rewrite !app_nil_r in S. apply S; [|exact Hl].
    rewrite length_encode_lists. lia.
Qed.

(** X7.  When the [int] product [2 * n_vertices] of line 595 does not
    overflow and [meta_host] stays below 2^32 entries, line 595 and the
    two loops of lines 663-673 lay the lists down so that each can be
    read back: slot [v] of [offsets_host] points at the face list of
    vertex [v], slot [n_vertices + v] at its edge list, each stored
    behind its length. *)
Theorem serialized_lists_read_back n adjFaces adjEdges :
  Z.of_nat (length adjFaces) = n ->
  Z.of_nat (length adjEdges) = n ->
  2 * n < 2 ^ 31 ->
  entries adjFaces + entries adjEdges < 2 ^ 32 ->
  exists offsets_host meta_host,
    serialize n adjFaces adjEdges = Some (offsets_host, meta_host) /\
    Z.of_nat (length offsets_host) = 2 * n /\
    Z.of_nat (length meta_host) = entries adjFaces + entries adjEdges /\
    forall v, 0 <= v < n ->
      read_back offsets_host meta_host v = load adjFaces v /\
      read_back offsets_host meta_host (n + v) = load adjEdges v.
Proof. apply serialize_read_back. Qed.

Lemma serialized_lists_read_back_witness :
  exists offsets_host meta_host,
    serialize 3 [[0]; [0]; [0]]
      [[1; 3; NO_FACE; 2; 3; NO_FACE]; [2; 3; NO_FACE]; []]
      = Some (offsets_host, meta_host) /\
    Z.of_nat (length offsets_host) = 2 * 3 /\
    Z.of_nat (length meta_host)
      = entries [[0]; [0]; [0]]
        + entries [[1; 3; NO_FACE; 2; 3; NO_FACE]; [2; 3; NO_FACE]; []] /\
    forall v, 0 <= v < 3 ->
      read_back offsets_host meta_host v = load [[0]; [0]; [0]] v /\
      read_back offsets_host meta_host (3 + v)
      = load [[1; 3; NO_FACE; 2; 3; NO_FACE]; [2; 3; NO_FACE]; []] v.
Proof.
  apply (serialized_lists_read_back 3 [[0]; [0]; [0]]
           [[1; 3; NO_FACE; 2; 3; NO_FACE]; [2; 3; NO_FACE]; []]).
  - reflexivity.
  - reflexivity.
  - lia.
  - by vm_compute.
Defined.

End LayoutFacts.

(** ** What the adjacency lists hold *)

Section IncidenceFacts.

Import Adjacency Incidence.

Lemma note_edge_absent rs o c :
  Forall (fun r : Z * Z * Z => r.1.1 <> o) rs ->
  note_edge rs o c = rs ++ [(o, c, NO_FACE)].
Proof.
  induction 1 as [|[[o' fa] fb] rs Hne _ IH]; simpl in *; [reflexivity|].
  destruct (o' =? o) eqn:E; [apply Z.eqb_eq in E; contradiction|].
  by rewrite IH.
Qed.

Lemma note_edge_present rs k o fa fb c :
  rs !! k = Some (o, fa, fb) ->
  Forall (fun r : Z * Z * Z => r.1.1 <> o) (take k rs) ->
  note_edge rs o c = <[k := (o, fa, c)]> rs.
Proof.
  revert k. induction rs as [|[[o' fa'] fb'] rs IH]; intros k Hk Hpre;
    [done|].
  destruct k as [|k]; simpl in *.
  - injection Hk as -> -> ->. by rewrite Z.eqb_refl.
  - apply Forall_cons in Hpre as [Hne Hpre]. simpl in Hne.
    destruct (o' =? o) eqn:E; [apply Z.eqb_eq in E; contradiction|].
    f_equal. by apply IH.
Qed.

(** [add_edge] on the records of the list it works on. *)
Lemma add_edge_note n i a b adjEdges rs :
  0 <= a < n -> 0 <= b < n -> 0 <= i -> n + i < 2 ^ 32 ->
  Z.of_nat (length adjEdges) = n ->
  load adjEdges (Z.min a b) = Some (flatten rs) ->
  Forall (face_slots_ok n) rs ->
  add_edge n i a b adjEdges
  = Some (<[Z.to_nat (Z.min a b) :=
            flatten (note_edge rs (Z.max a b) (n + i))]> adjEdges).
Proof.
  intros Ha Hb Hi Hni Hlen He Hfs. unfold add_edge.
  rewrite He. simpl. rewrite find_empty_guard.
  assert (Hc : int_to_uint (n + i) = n + i)
    by (unfold int_to_uint; apply Z.mod_small; lia).
  rewrite Hc.
  pose proof (find_flatten n (Z.max a b) rs ltac:(lia) Hfs) as Hfind.
  destruct (find (flatten rs) (Z.max a b)) as [d|].
  - destruct Hfind as (k & fa & fb & -> & Hk & Hpre).
    pose proof (lookup_lt_Some _ _ _ Hk) as Hklt.
    rewrite bool_decide_true by (rewrite length_flatten; lia).
    rewrite store_Some by lia.
    rewrite (insert_flatten rs k _ fa fb) by exact Hk.
    by rewrite (note_edge_present rs k _ fa fb).
  - rewrite store_Some by lia.
    rewrite note_edge_absent by exact Hfind.
    by rewrite flatten_app.
Qed.

Lemma note_edge_others_absent rs o c :
  o ∉ (fun r : Z * Z * Z => r.1.1) <$> rs ->
  note_edge rs o c = rs ++ [(o, c, NO_FACE)].
Proof.
  intros H. apply note_edge_absent. apply Forall_forall. intros r Hr Heq.
  apply H. apply list_elem_of_fmap. exists r. split; [by symmetry|].
  exact Hr.
Qed.

Lemma expected_slots_snoc n faces fa fb i :
  expected_slots n faces = Some (fa, fb) ->
  expected_slots n (faces ++ [i]) = Some (fa, n + i).
Proof.
  destruct faces as [|j rest]; [discriminate|].
  intros H. simpl in H. injection H as <- _.
  change ((j :: rest) ++ [i]) with (j :: (rest ++ [i])).
  unfold expected_slots.
  destruct (rest ++ [i]) eqn:E; [destruct rest; discriminate|].
  rewrite <- E, last_last. reflexivity.
Qed.

Lemma expected_slots_nonempty n faces fa fb :
  expected_slots n faces = Some (fa, fb) -> faces <> [].
Proof. destruct faces; [discriminate|congruence]. Qed.

Lemma edges_hold_ext n adjEdges faces faces' :
  (forall v o, faces v o = faces' v o) ->
  edges_hold n adjEdges faces -> edges_hold n adjEdges faces'.
Proof.
  intros Hext [Hlen H]. split; [exact Hlen|].
  intros v e He. destruct (H v e He) as (rs & -> & Hok & Hnd & Hs & Hin).
  exists rs. repeat split; auto.
  - intros o fa fb Hr. rewrite <- Hext. by apply Hs.
  - intros o Ho. apply Hin. by rewrite Hext.
Qed.

(** One edge of face [i] goes into the lists. *)
Lemma add_edge_holds n i a b adjEdges faces :
  edges_hold n adjEdges faces ->
  0 <= a < n -> 0 <= b < n -> a <> b ->
  0 <= i -> n + i < 2 ^ 32 ->
  exists adjEdges', add_edge n i a b adjEdges = Some adjEdges' /\
                    edges_hold n adjEdges' (note faces a b i).
Proof.
  intros [Hlen H] Ha Hb Hab Hi Hni.
  destruct (load_is_Some adjEdges (Z.min a b)) as [e He]; [lia|].
  destruct (H _ _ He) as (rs & -> & Hok & Hnd & Hs & Hin).
  assert (Hfs : Forall (face_slots_ok n) rs)
    by (eapply Forall_impl; [exact Hok|]; by intros r [_ ?]).
  rewrite (add_edge_note n i a b adjEdges rs) by assumption.
  eexists; split; [reflexivity|].
  split; [by rewrite length_insert|].
  intros v e' Hv.
  destruct (Z.eq_dec v (Z.min a b)) as [->|Hne].
  - (* the list the edge lives in *)
    erewrite load_store_eq in Hv by (apply store_Some; lia).
    injection Hv as <-.
    eexists; split; [reflexivity|].
    destruct (decide (Z.max a b ∈ (fun r : Z * Z * Z => r.1.1) <$> rs))
      as [Hin'|Hnin].
    + (* a record is there: its second slot is written *)
      apply list_elem_of_fmap in Hin' as ([[o fa] fb] & Ho & Hr).
      simpl in Ho. subst o.
      apply list_elem_of_lookup in Hr as (k & Hk).
      assert (Hpre : Forall (fun r : Z * Z * Z => r.1.1 <> Z.max a b)
                       (take k rs)).
      { apply Forall_forall. intros r Hr Heq.
        apply list_elem_of_lookup in Hr as (k' & Hk').
        pose proof (lookup_lt_Some _ _ _ Hk') as Hlt.
        rewrite length_take in Hlt.
        rewrite lookup_take_lt in Hk' by lia.
        assert (k' = k); [|lia].
        eapply NoDup_lookup; [exact Hnd| |].
        - rewrite list_lookup_fmap, Hk'. simpl. rewrite Heq. reflexivity.
        - rewrite list_lookup_fmap, Hk. reflexivity. }
      rewrite (note_edge_present rs k _ fa fb) by assumption.
      assert (Hsame : (fun r : Z * Z * Z => r.1.1)
                        <$> <[k := (Z.max a b, fa, n + i)]> rs
                      = (fun r : Z * Z * Z => r.1.1) <$> rs).
      { rewrite list_fmap_insert. simpl.
        apply list_insert_id. by rewrite list_lookup_fmap, Hk. }
      rewrite Hsame.
      pose proof (Forall_lookup_1 _ _ _ _ Hok Hk) as [Hrk [Hfa Hfb]].
      simpl in *.
      split; [|split; [exact Hnd|split]].
      * apply Forall_insert; [exact Hok|].
        repeat split; simpl; lia.
      * intros o fa' fb' Hr. unfold note.
        apply list_elem_of_lookup in Hr as (k' & Hk').
        destruct (decide (k' = k)) as [->|Hkk].
        -- rewrite list_lookup_insert_eq in Hk'
             by (eapply lookup_lt_Some; exact Hk).
           injection Hk' as <- <- <-.
           rewrite !Z.eqb_refl. simpl.
           eapply expected_slots_snoc. apply Hs.
           apply list_elem_of_lookup. eauto.
        -- rewrite list_lookup_insert_ne in Hk' by congruence.
           assert (o <> Z.max a b).
           { intros ->. apply Hkk.
             eapply NoDup_lookup; [exact Hnd| |].
             - rewrite list_lookup_fmap, Hk'. reflexivity.
             - rewrite list_lookup_fmap, Hk. reflexivity. }
           replace (o =? Z.max a b) with false by (symmetry; lia).
           rewrite andb_false_r. apply Hs.
           apply list_elem_of_lookup. eauto.
      * intros o Ho. unfold note in Ho.
        destruct ((Z.min a b =? Z.min a b) && (o =? Z.max a b)) eqn:E.
        -- apply andb_true_iff in E as [_ E]. apply Z.eqb_eq in E. subst o.
           apply list_elem_of_fmap. eexists. split; [|
             apply list_elem_of_lookup; eauto]. reflexivity.
        -- by apply Hin.
    + (* no record yet: one is added *)
      rewrite note_edge_others_absent by exact Hnin.
      assert (Hnone : faces (Z.min a b) (Z.max a b) = []).
      { destruct (faces (Z.min a b) (Z.max a b)) eqn:E; [reflexivity|].
        exfalso. apply Hnin, Hin. rewrite E. discriminate. }
      split; [|split; [|split]].
      * apply Forall_app; split; [exact Hok|].
        constructor; [|constructor].
        unfold record_ok, face_slots_ok, NO_FACE; simpl. lia.
      * rewrite fmap_app. simpl. apply NoDup_app. split; [exact Hnd|].
        split; [|apply NoDup_singleton].
        intros o Ho Ho'. apply list_elem_of_singleton in Ho'. by subst o.
      * intros o fa fb Hr. unfold note.
        apply elem_of_app in Hr as [Hr|Hr].
        -- assert (o <> Z.max a b).
           { intros ->. apply Hnin. apply list_elem_of_fmap.
             eexists. split; [|exact Hr]. reflexivity. }
           replace (o =? Z.max a b) with false by (symmetry; lia).
           rewrite andb_false_r. by apply Hs.
        -- apply list_elem_of_singleton in Hr. injection Hr as -> -> ->.
           rewrite !Z.eqb_refl. simpl. rewrite Hnone. reflexivity.
      * intros o Ho. unfold note in Ho. rewrite fmap_app.
        apply elem_of_app.
        destruct ((Z.min a b =? Z.min a b) && (o =? Z.max a b)) eqn:E.
        -- apply andb_true_iff in E as [_ E]. apply Z.eqb_eq in E. subst o.
           right. simpl. apply list_elem_of_singleton. reflexivity.
        -- left. by apply Hin.
  - (* the other lists *)
    erewrite load_store_ne in Hv by (try apply store_Some; lia).
    destruct (H _ _ Hv) as (rs' & -> & Hok' & Hnd' & Hs' & Hin').
    exists rs'. split; [reflexivity|]. repeat split; auto.
    + intros o fa fb Hr. unfold note.
      replace (v =? Z.min a b) with false by (symmetry; lia).
      simpl. by apply Hs'.
    + intros o Ho. unfold note in Ho.
      replace (v =? Z.min a b) with false in Ho by (symmetry; lia).
      simpl in Ho. by apply Hin'.
Qed.

Lemma seqZ_succ i : 0 <= i -> seqZ 0 (i + 1) = seqZ 0 i ++ [i].
Proof.
  intros Hi. rewrite seqZ_app by lia. f_equal.
Qed.

Lemma faces_at_succ indices i v :
  0 <= i ->
  faces_at indices (i + 1) v
  = faces_at indices i v ++ (if corner indices v i then [i] else []).
Proof.
  intros Hi. unfold faces_at. by rewrite seqZ_succ, List.filter_app by lia.
Qed.

Lemma faces_on_edge_succ indices i a b :
  0 <= i ->
  faces_on_edge indices (i + 1) a b
  = faces_on_edge indices i a b
    ++ (if corner indices a i && corner indices b i then [i] else []).
Proof.
  intros Hi. unfold faces_on_edge.
  by rewrite seqZ_succ, List.filter_app by lia.
Qed.

Lemma push_back_spec (adj : list (list Z)) v i l :
  load adj v = Some l ->
  push_back adj v i = Some (<[Z.to_nat v := l ++ [i]]> adj).
Proof.
  intros Hl. unfold push_back. rewrite Hl. simpl.
  apply store_Some. by apply load_Some_bound in Hl.
Qed.

Lemma load_insert (adj : list (list Z)) v w l :
  0 <= v < Z.of_nat (length adj) -> 0 <= w ->
  load (<[Z.to_nat v := l]> adj) w
  = if w =? v then Some l else load adj w.
Proof.
  intros Hv Hw. unfold load.
  destruct (w <? 0) eqn:E; [lia|].
  destruct (w =? v) eqn:E'.
  - apply Z.eqb_eq in E'. subst w. apply list_lookup_insert_eq. lia.
  - apply Z.eqb_neq in E'. apply list_lookup_insert_ne. lia.
Qed.

Ltac decide_tests :=
  repeat match goal with
  | |- context [?x =? ?y] =>
      first [ rewrite (proj2 (Z.eqb_eq x y)) by lia
            | rewrite (proj2 (Z.eqb_neq x y)) by lia ]
  | |- context [?x <? ?y] =>
      first [ rewrite (proj2 (Z.ltb_lt x y)) by lia
            | rewrite (proj2 (Z.ltb_ge x y)) by lia ]
  end.

(** The three edges of a face with distinct corners, noted one after
    the other. *)
Lemma note_face indices i v0 v1 v2 :
  0 <= i ->
  face_vertices indices i = Some (v0, v1, v2) ->
  v0 <> v1 -> v0 <> v2 -> v1 <> v2 ->
  forall v o,
    note (note (note (noted_below indices i) v0 v1 i) v0 v2 i) v1 v2 i v o
    = noted_below indices (i + 1) v o.
Proof.
  intros Hi Hfv D01 D02 D12 v o.
  unfold note, noted_below. rewrite faces_on_edge_succ by lia.
  unfold corner. rewrite Hfv.
  assert (O01 : v0 < v1 \/ v1 < v0) by lia.
  assert (O02 : v0 < v2 \/ v2 < v0) by lia.
  assert (O12 : v1 < v2 \/ v2 < v1) by lia.
  assert (Cv : v = v0 \/ v = v1 \/ v = v2 \/ (v <> v0 /\ v <> v1 /\ v <> v2))
    by lia.
  assert (Co : o = v0 \/ o = v1 \/ o = v2 \/ (o <> v0 /\ o <> v1 /\ o <> v2))
    by lia.
  assert (Cvo : v < o \/ o <= v) by lia.
  destruct O01, O02, O12, Cv as [?|[?|[?|?]]], Co as [?|[?|[?|?]]], Cvo;
    try (exfalso; lia); decide_tests; simpl;
    rewrite ?app_nil_r; reflexivity.
Qed.

(** One face goes into both families of lists. *)
Lemma add_face_lists n indices i adj :
  0 <= n -> 0 <= i -> n + i < 2 ^ 32 ->
  face_ok n indices i ->
  lists_inv n indices i adj ->
  exists adj', add_face n indices i adj = Some adj' /\
               lists_inv n indices (i + 1) adj'.
Proof.
  intros Hn Hi Hni
    (i0 & i1 & i2 & H0 & H1 & H2 & R0 & R1 & R2 & D01 & D02 & D12).
  destruct adj as [adjFaces adjEdges]. intros (HF & HL & HE). simpl in *.
  assert (Hu : forall v, 0 <= v < n -> int_to_uint v = v)
    by (intros v Hv; unfold int_to_uint; apply Z.mod_small; lia).
  assert (Hfv : face_vertices indices i
                = Some (vertex_index i0, vertex_index i1, vertex_index i2)).
  { unfold face_vertices. rewrite H0, H1, H2. simpl.
    by rewrite !Hu by assumption. }
  unfold add_face. rewrite H0, H1, H2. simpl.
  rewrite !Hu by assumption.
  set (v0 := vertex_index i0) in *.
  set (v1 := vertex_index i1) in *.
  set (v2 := vertex_index i2) in *.
  rewrite (push_back_spec adjFaces v0 i _ (HL v0 R0)). simpl.
  set (F1 := <[Z.to_nat v0 := faces_at indices i v0 ++ [i]]> adjFaces).
  assert (L1 : forall w, 0 <= w < n ->
            load F1 w = Some (faces_at indices i w
                              ++ (if w =? v0 then [i] else []))).
  { intros w Hw. unfold F1. rewrite load_insert by lia.
    destruct (w =? v0) eqn:E.
    - apply Z.eqb_eq in E. by subst w.
    - rewrite app_nil_r. by apply HL. }
  assert (HF1 : Z.of_nat (length F1) = n)
    by (unfold F1; by rewrite length_insert).
  rewrite (push_back_spec F1 v1 i _ (L1 v1 R1)). simpl.
  set (F2 := <[Z.to_nat v1 := _]> F1).
  assert (L2 : forall w, 0 <= w < n ->
            load F2 w = Some (faces_at indices i w
                              ++ (if (w =? v0) || (w =? v1)
                                  then [i] else []))).
  { intros w Hw. unfold F2. rewrite load_insert by lia.
    destruct (w =? v1) eqn:E.
    - apply Z.eqb_eq in E. subst w.
      replace (v1 =? v0) with false by (symmetry; lia).
      by rewrite app_nil_r.
    - rewrite orb_false_r. by apply L1. }
  assert (HF2 : Z.of_nat (length F2) = n)
    by (unfold F2; by rewrite length_insert).
  rewrite (push_back_spec F2 v2 i _ (L2 v2 R2)). simpl.
  set (F3 := <[Z.to_nat v2 := _]> F2).
  destruct (add_edge_holds n i v0 v1 adjEdges _ HE)
    as (E1 & -> & HE1); [assumption..|]. simpl.
  destruct (add_edge_holds n i v0 v2 E1 _ HE1)
    as (E2 & -> & HE2); [assumption..|]. simpl.
  destruct (add_edge_holds n i v1 v2 E2 _ HE2)
    as (E3 & -> & HE3); [assumption..|]. simpl.
  eexists; split; [reflexivity|]. split; [|split]; simpl.
  - unfold F3. by rewrite length_insert.
  - intros w Hw. unfold F3. rewrite load_insert by lia.
    rewrite faces_at_succ by lia. unfold corner. rewrite Hfv.
    destruct (w =? v2) eqn:E.
    + apply Z.eqb_eq in E. subst w.
      replace (v2 =? v0) with false by (symmetry; lia).
      replace (v2 =? v1) with false by (symmetry; lia).
      simpl. by rewrite app_nil_r.
    + rewrite orb_false_r. by apply L2.
  - eapply edges_hold_ext; [|exact HE3].
    by apply note_face.
Qed.

(** The loop over the faces of a well-formed mesh. *)
Lemma build_lists n_vertices n_faces indices :
  0 <= n_vertices < 2 ^ 31 -> 0 <= n_faces < 2 ^ 31 ->
  mesh_ok n_vertices n_faces indices ->
  exists adj, build n_vertices n_faces indices = Some adj /\
              lists_inv n_vertices indices n_faces adj.
Proof.
  intros Hn Hf Hmesh. unfold build.
  destruct (for_loop_invariant (add_face n_vertices indices)
              (fun i adj => 0 <= i /\ lists_inv n_vertices indices i adj)
              (Z.to_nat n_faces) 0
              (replicate (Z.to_nat n_vertices) [],
               replicate (Z.to_nat n_vertices) []))
    as (adj & Hadj & _ & Hinv).
  - split; [lia|]. split; [|split]; simpl.
    + rewrite length_replicate. lia.
    + intros v Hv. unfold load. destruct (v <? 0) eqn:E; [lia|].
      rewrite lookup_replicate_2 by lia. reflexivity.
    + split; [rewrite length_replicate; lia|].
      intros v e Hv. exists [].
      unfold load in Hv. destruct (v <? 0); [discriminate|].
      apply lookup_replicate in Hv as [-> _].
      split; [reflexivity|]. split; [constructor|].
      split; [constructor|]. split.
      * intros o fa fb Hr. by apply elem_of_nil in Hr.
      * intros o Ho. exfalso. apply Ho. unfold noted_below.
        by destruct (v <? o).
  - intros j t Hj [Hj0 Hinv].
    destruct (add_face_lists n_vertices indices j t) as (t' & Ht' & Hinv');
      [lia|lia|lia|apply Hmesh; lia|assumption|].
    exists t'. split; [assumption|]. split; [lia|assumption].
  - exists adj. split; [assumption|].
    by replace (0 + Z.of_nat (Z.to_nat n_faces)) with n_faces in Hinv by lia.
Qed.

(** X8.  On a mesh whose faces have three distinct vertices in range,
    the face list of every vertex holds the faces that have it for a
    corner, each once and in increasing order. *)
Theorem incident_faces_listed n_vertices n_faces indices :
  0 <= n_vertices < 2 ^ 31 -> 0 <= n_faces < 2 ^ 31 ->
  mesh_ok n_vertices n_faces indices ->
  exists adjFaces adjEdges,
    build n_vertices n_faces indices = Some (adjFaces, adjEdges) /\
    forall v, 0 <= v < n_vertices ->
      load adjFaces v = Some (faces_at indices n_faces v).
Proof.
  intros Hn Hf Hmesh.
  destruct (build_lists n_vertices n_faces indices Hn Hf Hmesh)
    as ([adjFaces adjEdges] & Hb & _ & HL & _).
  exists adjFaces, adjEdges. split; [exact Hb|exact HL].
Qed.

(** X9.  On such a mesh the edge list of a vertex [v] holds one record
    for each vertex [o] above [v] that shares a face with it, and no
    other record. *)
Theorem one_record_per_edge n_vertices n_faces indices :
  0 <= n_vertices < 2 ^ 31 -> 0 <= n_faces < 2 ^ 31 ->
  mesh_ok n_vertices n_faces indices ->
  exists adjFaces adjEdges,
    build n_vertices n_faces indices = Some (adjFaces, adjEdges) /\
    forall v, 0 <= v < n_vertices ->
      exists rs,
        load adjEdges v = Some (flatten rs) /\
        NoDup ((fun r : Z * Z * Z => r.1.1) <$> rs) /\
        forall o, o ∈ (fun r : Z * Z * Z => r.1.1) <$> rs <->
                  v < o /\ faces_on_edge indices n_faces v o <> [].
Proof.
  intros Hn Hf Hmesh.
  destruct (build_lists n_vertices n_faces indices Hn Hf Hmesh)
    as ([adjFaces adjEdges] & Hb & _ & _ & Hlen & HE). simpl in *.
  exists adjFaces, adjEdges. split; [exact Hb|].
  intros v Hv. destruct (load_is_Some adjEdges v) as [e He]; [lia|].
  destruct (HE v e He) as (rs & -> & Hok & Hnd & Hs & Hin).
  exists rs. split; [exact He|]. split; [exact Hnd|].
  intros o. split.
  - intros Ho. apply list_elem_of_fmap in Ho as ([[o' fa] fb] & -> & Hr).
    simpl. pose proof (Hs _ _ _ Hr) as Hx.
    apply expected_slots_nonempty in Hx. unfold noted_below in Hx.
    destruct (v <? o') eqn:E; [|congruence].
    split; [lia|exact Hx].
  - intros [Hvo Hne]. apply Hin. unfold noted_below.
    by replace (v <? o) with true by (symmetry; lia).
Qed.

(** X10.  The record of an edge holds, counted from [n_vertices], the
    first face that has the edge and, if more than one face has it, the
    last one; an edge with one face keeps the mark [NO_FACE]. *)
Theorem edge_record_holds_first_and_last_face n_vertices n_faces indices :
  0 <= n_vertices < 2 ^ 31 -> 0 <= n_faces < 2 ^ 31 ->
  mesh_ok n_vertices n_faces indices ->
  exists adjFaces adjEdges,
    build n_vertices n_faces indices = Some (adjFaces, adjEdges) /\
    forall v e o fa fb,
      load adjEdges v = Some e -> (o, fa, fb) ∈ records e ->
      exists first rest,
        faces_on_edge indices n_faces v o = first :: rest /\
        fa = n_vertices + first /\
        (rest = [] -> fb = NO_FACE) /\
        (rest <> [] -> fb = n_vertices + List.last rest first /\
                       fb <> NO_FACE).
Proof.
  intros Hn Hf Hmesh.
  destruct (build_lists n_vertices n_faces indices Hn Hf Hmesh)
    as ([adjFaces adjEdges] & Hb & _ & _ & Hlen & HE). simpl in *.
  exists adjFaces, adjEdges. split; [exact Hb|].
  intros v e o fa fb He Hr.
  destruct (HE v e He) as (rs & -> & Hok & Hnd & Hs & Hin).
  rewrite records_flatten in Hr.
  pose proof (Hs _ _ _ Hr) as Hx. unfold noted_below in Hx.
  destruct (v <? o); [|discriminate].
  destruct (faces_on_edge indices n_faces v o) as [|first rest] eqn:E;
    [discriminate|].
  simpl in Hx. injection Hx as <- <-.
  exists first, rest. split; [reflexivity|]. split; [reflexivity|].
  split.
  - by intros ->.
  - intros Hne. destruct rest as [|j rest]; [congruence|].
    split; [reflexivity|].
    assert (Hin' : List.last (j :: rest) first
                   ∈ faces_on_edge indices n_faces v o).
    { rewrite E. apply list_elem_of_In.
      destruct (exists_last (l := j :: rest) ltac:(discriminate))
        as (l' & x & ->).
      rewrite last_last. right. apply in_or_app. right. by left. }
    unfold faces_on_edge in Hin'. apply list_elem_of_In in Hin'.
    apply filter_In in Hin' as [Hin' _].
    apply list_elem_of_In, elem_of_seqZ in Hin'.
    unfold NO_FACE. lia.
Qed.

Lemma incident_faces_listed_witness :
  exists adjFaces adjEdges,
    build 4 2 Demo.quad = Some (adjFaces, adjEdges) /\
    forall v, 0 <= v < 4 ->
      load adjFaces v = Some (faces_at Demo.quad 2 v).
Proof.
  apply (incident_faces_listed 4 2 Demo.quad).
  - lia.
  - lia.
  - intros i Hi. assert (i = 0 \/ i = 1) as [->| ->] by lia;
      eexists _, _, _; repeat split; try reflexivity; simpl; lia.
Defined.

Lemma one_record_per_edge_witness :
  exists adjFaces adjEdges,
    build 4 2 Demo.quad = Some (adjFaces, adjEdges) /\
    forall v, 0 <= v < 4 ->
      exists rs,
        load adjEdges v = Some (flatten rs) /\
        NoDup ((fun r : Z * Z * Z => r.1.1) <$> rs) /\
        forall o, o ∈ (fun r : Z * Z * Z => r.1.1) <$> rs <->
                  v < o /\ faces_on_edge Demo.quad 2 v o <> [].
Proof.
  apply (one_record_per_edge 4 2 Demo.quad).
  - lia.
  - lia.
  - intros i Hi. assert (i = 0 \/ i = 1) as [->| ->] by lia;
      eexists _, _, _; repeat split; try reflexivity; simpl; lia.
Defined.

Lemma edge_record_holds_first_and_last_face_witness :
  exists adjFaces adjEdges,
    build 4 2 Demo.quad = Some (adjFaces, adjEdges) /\
    forall v e o fa fb,
      load adjEdges v = Some e -> (o, fa, fb) ∈ records e ->
      exists first rest,
        faces_on_edge Demo.quad 2 v o = first :: rest /\
        fa = 4 + first /\
        (rest = [] -> fb = NO_FACE) /\
        (rest <> [] -> fb = 4 + List.last rest first /\ fb <> NO_FACE).
Proof.
  apply (edge_record_holds_first_and_last_face 4 2 Demo.quad).
  - lia.
  - lia.
  - intros i Hi. assert (i = 0 \/ i = 1) as [->| ->] by lia;
      eexists _, _, _; repeat split; try reflexivity; simpl; lia.
Defined.

(** Three faces around the edge between vertices 0 and 1: its record
    keeps the first and the last. *)
Example fan_edge_keeps_first_and_last :
  (build 5 3 (mesh_of [(0, 1, 2); (0, 1, 3); (1, 0, 4)])) ≫=
    (fun adj => edge_record adj.2 0 1) = Some (1, 5 + 0, 5 + 2).
Proof. by vm_compute. Qed.

(** A loop is undefined when one of its iterations is on every state
    it can be in. *)
Lemma for_loop_fails {S : Type} (body : Z -> S -> option S)
    (P : S -> Prop) (count : nat) (i0 : Z) (s : S) (i : Z) :
  P s ->
  (forall j t t', P t -> body j t = Some t' -> P t') ->
  (forall t, P t -> body i t = None) ->
  i0 <= i < i0 + Z.of_nat count ->
  for_loop body count i0 s = None.
Proof.
  intros Hs Hkeep Hfail. revert i0 s Hs.
  induction count as [|c IH]; intros i0 s Hs Hi; [lia|].
  simpl. destruct (body i0 s) as [t|] eqn:E; [|reflexivity]. simpl.
  destruct (Z.eq_dec i i0) as [->|Hne].
  - rewrite Hfail in E by exact Hs. discriminate.
  - apply IH; [eapply Hkeep; eassumption|lia].
Qed.

Lemma push_back_length (adj adj' : list (list Z)) v i :
  push_back adj v i = Some adj' -> length adj' = length adj.
Proof.
  unfold push_back. destruct (load adj v) as [l|]; [|discriminate]. simpl.
  intros H. apply store_inv in H as [_ ->]. by rewrite length_insert.
Qed.

Lemma push_back_stray (adj : list (list Z)) v i :
  Z.of_nat (length adj) <= v -> push_back adj v i = None.
Proof.
  intros H. unfold push_back. rewrite load_None by lia. reflexivity.
Qed.

Lemma add_face_length n indices i adjFaces adjEdges adjFaces' adjEdges' :
  add_face n indices i (adjFaces, adjEdges) = Some (adjFaces', adjEdges') ->
  length adjFaces' = length adjFaces.
Proof.
  unfold add_face.
  destruct (load indices (3 * i + 0)) as [i0|]; [|discriminate].
  destruct (load indices (3 * i + 1)) as [i1|]; [|discriminate].
  destruct (load indices (3 * i + 2)) as [i2|]; [|discriminate]. simpl.
  destruct (push_back adjFaces _ i) as [F1|] eqn:E1; [|discriminate]. simpl.
  destruct (push_back F1 _ i) as [F2|] eqn:E2; [|discriminate]. simpl.
  destruct (push_back F2 _ i) as [F3|] eqn:E3; [|discriminate]. simpl.
  destruct (add_edge n i _ _ adjEdges) as [G1|]; [|discriminate]. simpl.
  destruct (add_edge n i _ _ G1) as [G2|]; [|discriminate]. simpl.
  destruct (add_edge n i _ _ G2) as [G3|]; [|discriminate]. simpl.
  intros [= <- _].
  apply push_back_length in E1, E2, E3. congruence.
Qed.

(** X11.  A face with a vertex index that is not below [n_vertices] (an
    index of -1 among them, which line 603 turns into 4294967295) makes
    the builder index [adjFaces] outside its bounds. *)
Theorem stray_vertex_index_is_out_of_bounds
    n_vertices n_faces indices i i0 i1 i2 :
  0 <= n_vertices ->
  0 <= i < n_faces ->
  load indices (3 * i + 0) = Some i0 ->
  load indices (3 * i + 1) = Some i1 ->
  load indices (3 * i + 2) = Some i2 ->
  n_vertices <= int_to_uint (vertex_index i0) \/
  n_vertices <= int_to_uint (vertex_index i1) \/
  n_vertices <= int_to_uint (vertex_index i2) ->
  build n_vertices n_faces indices = None.
Proof.
  intros Hn Hi H0 H1 H2 Hstray. unfold build.
  apply (for_loop_fails (add_face n_vertices indices)
           (fun adj => Z.of_nat (length adj.1) = n_vertices) _ _ _ i).
  - simpl. rewrite length_replicate. lia.
  - intros j [F E] [F' E'] HP Hj. simpl in *.
    apply add_face_length in Hj. lia.
  - intros [F E] HP. simpl in HP. unfold add_face.
    rewrite H0, H1, H2. simpl.
    destruct (push_back F _ i) as [F1|] eqn:E1; [|reflexivity]. simpl.
    destruct (push_back F1 _ i) as [F2|] eqn:E2; [|reflexivity]. simpl.
    destruct (push_back F2 _ i) as [F3|] eqn:E3; [|reflexivity]. simpl.
    exfalso.
    pose proof (push_back_length _ _ _ _ E1) as L1.
    pose proof (push_back_length _ _ _ _ E2) as L2.
    destruct Hstray as [Hs|[Hs|Hs]].
    + rewrite push_back_stray in E1 by lia. discriminate.
    + rewrite push_back_stray in E2 by lia. discriminate.
    + rewrite push_back_stray in E3 by lia. discriminate.
  - lia.
Qed.

Lemma stray_vertex_index_is_out_of_bounds_witness :
  build 3 1 [mkIndex 0 (-1) (-1); mkIndex 1 (-1) (-1); mkIndex (-1) (-1) (-1)]
  = None.
Proof.
  apply (stray_vertex_index_is_out_of_bounds 3 1 _ 0
           (mkIndex 0 (-1) (-1)) (mkIndex 1 (-1) (-1))
           (mkIndex (-1) (-1) (-1))).
  - lia.
  - lia.
  - reflexivity.
  - reflexivity.
  - reflexivity.
  - right. right. by vm_compute.
Defined.

Lemma note_edge_Forall (P : Z * Z * Z -> Prop) rs o c :
  Forall P rs ->
  P (o, c, NO_FACE) ->
  (forall fa fb, P (o, fa, fb) -> P (o, fa, c)) ->
  Forall P (note_edge rs o c).
Proof.
  intros Hrs Hnew Hupd.
  induction Hrs as [|[[o' fa] fb] rs Hr Hrs IH]; simpl.
  - by constructor.
  - destruct (Z.eqb_spec o' o) as [->|Hne]; constructor; eauto.
Qed.

Lemma int_to_uint_bounds z : 0 <= int_to_uint z < 2 ^ 32.
Proof. unfold int_to_uint. apply Z.mod_pos_bound. lia. Qed.

Lemma add_edge_plain n i a b adjEdges :
  edges_plain n adjEdges ->
  0 <= a < n -> 0 <= b < n ->
  0 <= i -> n + i < 2 ^ 32 - 1 ->
  exists adjEdges', add_edge n i a b adjEdges = Some adjEdges' /\
                    edges_plain n adjEdges'.
Proof.
  intros [Hlen H] Ha Hb Hi Hni.
  destruct (load_is_Some adjEdges (Z.min a b)) as [e He]; [lia|].
  destruct (H _ _ He) as (rs & -> & Hok).
  assert (Hfs : Forall (face_slots_ok n) rs)
    by (eapply Forall_impl; [exact Hok|]; by intros r [_ ?]).
  rewrite (add_edge_note n i a b adjEdges rs) by (assumption || lia).
  eexists; split; [reflexivity|].
  split; [by rewrite length_insert|].
  intros v e' Hv.
  destruct (Z.eq_dec v (Z.min a b)) as [->|Hne].
  - erewrite load_store_eq in Hv by (apply store_Some; lia).
    injection Hv as <-. eexists; split; [reflexivity|].
    apply note_edge_Forall; [exact Hok| |].
    + unfold face_slots_ok, NO_FACE; simpl. lia.
    + unfold face_slots_ok; simpl. intros fa fb. lia.
  - erewrite load_store_ne in Hv by (try apply store_Some; lia).
    exact (H _ _ Hv).
Qed.

(** X12.  When every face has its three vertex indices below
    [n_vertices], the builder stays inside its vectors, faces with a
    repeated vertex included: the record that line 617 finds always has
    its second face slot inside the list. *)
Theorem builder_is_defined_on_meshes_in_range n_vertices n_faces indices :
  0 <= n_vertices < 2 ^ 31 -> 0 <= n_faces < 2 ^ 31 ->
  (forall i, 0 <= i < n_faces -> face_in_range n_vertices indices i) ->
  exists adjFaces adjEdges,
    build n_vertices n_faces indices = Some (adjFaces, adjEdges) /\
    Z.of_nat (length adjFaces) = n_vertices /\
    Z.of_nat (length adjEdges) = n_vertices /\
    forall v e, load adjEdges v = Some e -> flatten (records e) = e.
Proof.
  intros Hn Hf Hmesh. unfold build.
  destruct (for_loop_invariant (add_face n_vertices indices)
              (fun i adj => 0 <= i /\
                 Z.of_nat (length adj.1) = n_vertices /\
                 edges_plain n_vertices adj.2)
              (Z.to_nat n_faces) 0
              (replicate (Z.to_nat n_vertices) [],
               replicate (Z.to_nat n_vertices) []))
    as ([adjFaces adjEdges] & Hadj & _ & HF & HE).
  - split; [lia|]. simpl. split; [rewrite length_replicate; lia|].
    split; [rewrite length_replicate; lia|].
    intros v e Hv. exists []. split; [|constructor].
    unfold load in Hv. destruct (v <? 0); [discriminate|].
    by apply lookup_replicate in Hv as [-> _].
  - intros j [F E] Hj (Hj0 & HF & HE). simpl in *.
    destruct (Hmesh j ltac:(lia)) as (v0 & v1 & v2 & Hfv & R0 & R1 & R2).
    unfold face_vertices in Hfv. unfold add_face.
    destruct (load indices (3 * j + 0)) as [i0|]; [|discriminate].
    destruct (load indices (3 * j + 1)) as [i1|]; [|discriminate].
    destruct (load indices (3 * j + 2)) as [i2|]; [|discriminate].
    simpl in *. injection Hfv as <- <- <-.
    pose proof (int_to_uint_bounds (vertex_index i0)).
    pose proof (int_to_uint_bounds (vertex_index i1)).
    pose proof (int_to_uint_bounds (vertex_index i2)).
    destruct (push_back_ok n_vertices F _ j HF ltac:(split; [|exact R0]; lia))
      as (F1 & -> & HF1). simpl.
    destruct (push_back_ok n_vertices F1 _ j HF1
                ltac:(split; [|exact R1]; lia)) as (F2 & -> & HF2). simpl.
    destruct (push_back_ok n_vertices F2 _ j HF2
                ltac:(split; [|exact R2]; lia)) as (F3 & -> & HF3). simpl.
    destruct (add_edge_plain n_vertices j _ _ E HE
                ltac:(split; [|exact R0]; lia)
                ltac:(split; [|exact R1]; lia) ltac:(lia) ltac:(lia))
      as (E1 & -> & HE1). simpl.
    destruct (add_edge_plain n_vertices j _ _ E1 HE1
                ltac:(split; [|exact R0]; lia)
                ltac:(split; [|exact R2]; lia) ltac:(lia) ltac:(lia))
      as (E2 & -> & HE2). simpl.
    destruct (add_edge_plain n_vertices j _ _ E2 HE2
                ltac:(split; [|exact R1]; lia)
                ltac:(split; [|exact R2]; lia) ltac:(lia) ltac:(lia))
      as (E3 & -> & HE3). simpl.
    eexists; split; [reflexivity|]. simpl. split; [lia|]. split; assumption.
  - simpl in *. exists adjFaces, adjEdges. split; [exact Hadj|].
    split; [exact HF|]. destruct HE as [HL HE]. split; [exact HL|].
    intros v e Hv. destruct (HE v e Hv) as (rs & -> & _).
    by rewrite records_flatten.
Qed.

Lemma builder_is_defined_on_meshes_in_range_witness :
  exists adjFaces adjEdges,
    build 3 2 (mesh_of [(0, 0, 1); (1, 2, 2)]) = Some (adjFaces, adjEdges) /\
    Z.of_nat (length adjFaces) = 3 /\
    Z.of_nat (length adjEdges) = 3 /\
    forall v e, load adjEdges v = Some e -> flatten (records e) = e.
Proof.
  apply (builder_is_defined_on_meshes_in_range 3 2
           (mesh_of [(0, 0, 1); (1, 2, 2)])).
  - lia.
  - lia.
  - intros i Hi. assert (i = 0 \/ i = 1) as [->| ->] by lia;
      eexists _, _, _; (split; [reflexivity|]); repeat split; by vm_compute.
Defined.

End IncidenceFacts.

(** ** Threads of the two kernels *)

Section WriteFacts.

Import Writes.

Context {A : Type}.
Implicit Types (buf : list A) (ws : list (Z * A)).

Lemma store_None buf i v :
  ~ (0 <= i < Z.of_nat (length buf)) -> store buf i v = None.
Proof.
  intros H. destruct (store buf i v) eqn:E; [|reflexivity].
  apply store_inv in E as [? _]. contradiction.
Qed.

(** Two stores at different indices, in either order. *)
Lemma store_store buf i j v w :
  i <> j ->
  (b ← store buf i v; store b j w) = (b ← store buf j w; store b i v).
Proof.
  intros Hij.
  destruct (decide (0 <= i < Z.of_nat (length buf))) as [Hi|Hi];
    destruct (decide (0 <= j < Z.of_nat (length buf))) as [Hj|Hj].
  - rewrite (store_Some buf i) by lia. rewrite (store_Some buf j) by lia.
    simpl. rewrite !store_Some by (rewrite length_insert; lia).
    f_equal. apply list_insert_insert_ne. lia.
  - rewrite (store_Some buf i) by lia. rewrite (store_None buf j) by lia.
    simpl. apply store_None. rewrite length_insert. lia.
  - rewrite (store_None buf i) by lia. rewrite (store_Some buf j) by lia.
    simpl. symmetry. apply store_None. rewrite length_insert. lia.
  - rewrite (store_None buf i) by lia. rewrite (store_None buf j) by lia.
    reflexivity.
Qed.

Lemma store_overwrite ws : forall buf k v,
  Forall (fun kv => kv.1 <> k) ws ->
  (b ← store buf k v; overwrite ws b) = (b ← overwrite ws buf; store b k v).
Proof.
  induction ws as [|[j w] ws IH]; intros buf k v Hne.
  - simpl. by destruct (store buf k v).
  - apply Forall_cons in Hne as [Hj Hne]. simpl in Hj. simpl.
    transitivity (b ← (b ← store buf k v; store b j w); overwrite ws b).
    { by destruct (store buf k v). }
    rewrite store_store by congruence.
    destruct (store buf j w) as [b|]; simpl; [|reflexivity].
    by apply IH.
Qed.

(** Two sequences of stores that share no index, in either order. *)
Lemma overwrite_overwrite ws ws' : forall buf,
  Forall (fun kv => Forall (fun kv' => kv'.1 <> kv.1) ws') ws ->
  (b ← overwrite ws buf; overwrite ws' b)
  = (b ← overwrite ws' buf; overwrite ws b).
Proof.
  induction ws as [|[k v] ws IH]; intros buf Hd.
  - simpl. by destruct (overwrite ws' buf).
  - apply Forall_cons in Hd as [Hk Hd]. simpl in Hk. simpl.
    transitivity (b ← store buf k v; b ← overwrite ws b; overwrite ws' b).
    { by destruct (store buf k v). }
    transitivity (b ← store buf k v; b ← overwrite ws' b; overwrite ws b).
    { destruct (store buf k v); simpl; [|reflexivity]. by apply IH. }
    transitivity (b ← (b ← store buf k v; overwrite ws' b); overwrite ws b).
    { by destruct (store buf k v). }
    rewrite store_overwrite by exact Hk.
    by destruct (overwrite ws' buf).
Qed.

Lemma within_disjoint size i j ws ws' :
  0 < size -> i <> j -> within size i ws -> within size j ws' ->
  Forall (fun kv : Z * A => Forall (fun kv' : Z * A => kv'.1 <> kv.1) ws') ws.
Proof.
  intros Hs Hij Hi Hj. unfold within in *.
  eapply Forall_impl; [exact Hi|]. intros kv Hkv.
  eapply Forall_impl; [exact Hj|]. intros kv' Hkv'. simpl in *. nia.
Qed.

(** What a sequence of stores leaves as it was. *)
Lemma overwrite_frame ws : forall buf buf',
  overwrite ws buf = Some buf' ->
  length buf' = length buf /\
  forall j, Forall (fun kv => kv.1 <> j) ws -> load buf' j = load buf j.
Proof.
  induction ws as [|[k v] ws IH]; intros buf buf' H; simpl in H.
  - injection H as <-. auto.
  - destruct (store buf k v) as [b|] eqn:E; [|discriminate]. simpl in H.
    destruct (IH _ _ H) as [Hl Hf].
    pose proof (store_inv _ _ _ _ E) as [Hk Hb].
    split; [rewrite Hl, Hb; by rewrite length_insert|].
    intros j Hj. apply Forall_cons in Hj as [Hkj Hj]. simpl in Hkj.
    rewrite Hf by exact Hj. eapply load_store_ne; eassumption.
Qed.

End WriteFacts.

Section ThreadLemmas.

Import Writes.

Lemma own_samples_commute size i j f g :
  0 < size -> i <> j ->
  writes_own_sample size i f -> writes_own_sample size j g ->
  forall result, (r ← f result; g r) = (r ← g result; f r).
Proof.
  intros Hs Hij (owf & Hif & Hf) (owg & Hig & Hg) result.
  destruct owf as [wf|], owg as [wg|].
  - transitivity (r ← overwrite wf result; overwrite wg r).
    { rewrite Hf. simpl. destruct (overwrite wf result); simpl; [|done].
      by rewrite Hg. }
    rewrite (overwrite_overwrite wf wg)
      by (eapply within_disjoint; eauto).
    rewrite Hg. simpl. destruct (overwrite wg result); simpl; [|done].
    by rewrite Hf.
  - rewrite Hg. simpl. destruct (f result); simpl; [|done]. by rewrite Hg.
  - rewrite Hf. simpl. destruct (g result); simpl; [|done]. by rewrite Hf.
  - by rewrite Hf, Hg.
Qed.

Lemma own_sample_frame size idx f result result' :
  writes_own_sample size idx f ->
  f result = Some result' ->
  length result' = length result /\
  forall j, j < idx * size \/ (idx + 1) * size <= j ->
    load result' j = load result j.
Proof.
  intros (ows & Hin & Hf) H. rewrite Hf in H.
  destruct ows as [ws|]; [|discriminate]. simpl in H.
  destruct (overwrite_frame ws _ _ H) as [Hl Hfr].
  split; [exact Hl|]. intros j Hj. apply Hfr.
  eapply Forall_impl; [exact (Hin ws eq_refl)|].
  intros kv Hkv. simpl in *. lia.
Qed.

End ThreadLemmas.

Section Threads.

Import Sampler Resolver Writes.

Variable tex2D : Z -> float -> float -> Cuda.float4.

Lemma resolver_writes_own_sample n_elements n_faces materials material_ids
    training_batch indices texcoords idx :
  writes_own_sample N_OUTPUT_DIMS idx
    (generate_training_target tex2D n_elements n_faces materials
       material_ids training_batch indices texcoords idx).
Proof.
  unfold writes_own_sample, generate_training_target, within, N_OUTPUT_DIMS.
  destruct (idx >=? n_elements).
  { exists (Some []). split; [intros ws [= <-]; constructor|done]. }
  destruct (decode_faceId training_batch (idx * N_INPUT_DIMS)) as [faceId|];
    [|exists None; split; [discriminate|done]].
  simpl. destruct (out_of_range faceId n_faces).
  { exists (Some [(idx * 6 + 0, fzero); (idx * 6 + 1, fzero);
                  (idx * 6 + 2, fzero); (idx * 6 + 3, fzero);
                  (idx * 6 + 4, fzero); (idx * 6 + 5, fzero)]).
    split; [intros ws [= <-]; repeat constructor; simpl; lia|].
    intros result. unfold write_zero_target. simpl.
    repeat (match goal with
            | |- context [store ?b ?k ?v] =>
                destruct (store b k v); simpl; [|reflexivity]
            end); reflexivity. }
  destruct (uv_interp training_batch indices texcoords
              (idx * N_INPUT_DIMS) faceId) as [uv|];
    [|exists None; split; [discriminate|done]].
  simpl.
  destruct (face_material materials material_ids faceId) as [mat|];
    [|exists None; split; [discriminate|done]].
  simpl. unfold write_diffuse, write_bump.
  destruct (valid (map_Kd mat)), (valid (map_Bump mat));
    (eexists (Some [(idx * 6 + 0, _); (idx * 6 + 1, _); (idx * 6 + 2, _);
                    (idx * 6 + 3, _); (idx * 6 + 4, _); (idx * 6 + 5, _)]);
     split; [intros ws [= <-]; repeat constructor; simpl; lia|];
     intros result; simpl;
     repeat (match goal with
             | |- context [store ?b ?k ?v] =>
                 destruct (store b k v); simpl; [|reflexivity]
             end); reflexivity).
Qed.

Lemma sampler_writes_own_sample n_elements n_faces u0 u1 u2 idx :
  writes_own_sample N_INPUT_DIMS idx
    (generate_face_positions n_elements n_faces u0 u1 u2 idx).
Proof.
  unfold writes_own_sample, generate_face_positions, within, N_INPUT_DIMS.
  destruct (idx >=? n_elements).
  { exists (Some []). split; [intros ws [= <-]; constructor|done]. }
  destruct (to_uint (fmul (fmodf_one u0) (of_uint n_faces))) as [faceId|];
    [|exists None; split; [discriminate|done]].
  eexists (Some [(idx * 3 + 0, _); (idx * 3 + 1, _); (idx * 3 + 2, _)]).
  split; [intros ws [= <-]; repeat constructor; simpl; lia|].
  intros result; simpl.
  repeat (match goal with
          | |- context [store ?b ?k ?v] =>
              destruct (store b k v); simpl; [|reflexivity]
          end); reflexivity.
Qed.

(** X13.  Two threads of [generate_training_target] for different
    samples can run in either order: each stores into the six slots of
    its own sample only, values that do not depend on what [result]
    holds, so the outcome is the same, undefined cases included. *)
Theorem target_threads_commute n_elements n_faces materials material_ids
    training_batch indices texcoords i j result :
  i <> j ->
  (r ← generate_training_target tex2D n_elements n_faces materials
         material_ids training_batch indices texcoords i result;
   generate_training_target tex2D n_elements n_faces materials
     material_ids training_batch indices texcoords j r)
  = (r ← generate_training_target tex2D n_elements n_faces materials
           material_ids training_batch indices texcoords j result;
     generate_training_target tex2D n_elements n_faces materials
       material_ids training_batch indices texcoords i r).
Proof.
  intros Hij.
  apply (own_samples_commute N_OUTPUT_DIMS i j);
    [reflexivity|exact Hij| |]; apply resolver_writes_own_sample.
Qed.

(** X14.  Whatever branch a thread of [generate_training_target] takes,
    it keeps the length of [result] and every slot outside the six of
    its own sample. *)
Theorem target_thread_keeps_other_samples n_elements n_faces materials
    material_ids training_batch indices texcoords idx result result' :
  generate_training_target tex2D n_elements n_faces materials material_ids
    training_batch indices texcoords idx result = Some result' ->
  length result' = length result /\
  forall j, j < idx * N_OUTPUT_DIMS \/ (idx + 1) * N_OUTPUT_DIMS <= j ->
    load result' j = load result j.
Proof.
  apply own_sample_frame, resolver_writes_own_sample.
Qed.

(** X15.  Two threads of [generate_face_positions] for different samples,
    each with the draws of its own generator, can run in either
    order. *)
Theorem sampler_threads_commute n_elements n_faces
    (u0 u1 u2 : Z -> float) i j result :
  i <> j ->
  (r ← generate_face_positions n_elements n_faces
         (u0 i) (u1 i) (u2 i) i result;
   generate_face_positions n_elements n_faces (u0 j) (u1 j) (u2 j) j r)
  = (r ← generate_face_positions n_elements n_faces
           (u0 j) (u1 j) (u2 j) j result;
     generate_face_positions n_elements n_faces (u0 i) (u1 i) (u2 i) i r).
Proof.
  intros Hij.
  apply (own_samples_commute N_INPUT_DIMS i j);
    [reflexivity|exact Hij| |]; apply sampler_writes_own_sample.
Qed.

(** X16.  A thread of [generate_face_positions] keeps the length of
    [result] and every slot outside the three of its own sample. *)
Theorem sampler_thread_keeps_other_samples n_elements n_faces u0 u1 u2
    idx result result' :
  generate_face_positions n_elements n_faces u0 u1 u2 idx result
    = Some result' ->
  length result' = length result /\
  forall j, j < idx * N_INPUT_DIMS \/ (idx + 1) * N_INPUT_DIMS <= j ->
    load result' j = load result j.
Proof.
  apply own_sample_frame, sampler_writes_own_sample.
Qed.

(** X17.  For a sample with a face id in range whose material has a valid
    [map_Bump], channels 3..5 are that texture fetched at [(u, 1 - v)]
    for the interpolated coordinate [(u, v)]. *)
Theorem bump_map_channels
    n_elements n_faces materials material_ids training_batch indices
    texcoords idx result faceId mat uv :
  0 <= idx < n_elements ->
  decode_faceId training_batch (idx * N_INPUT_DIMS) = Some faceId ->
  0 <= faceId < n_faces ->
  uv_interp training_batch indices texcoords (idx * N_INPUT_DIMS) faceId
    = Some uv ->
  face_material materials material_ids faceId = Some mat ->
  valid (map_Bump mat) = true ->
  idx * N_OUTPUT_DIMS + (N_OUTPUT_DIMS - 1) < Z.of_nat (length result) ->
  exists result',
    generate_training_target tex2D n_elements n_faces materials material_ids
      training_batch indices texcoords idx result = Some result' /\
    let val := tex2D (texture (map_Bump mat)) (fst uv) (fsub fone (snd uv)) in
    load result' (idx * N_OUTPUT_DIMS + 3) = Some (Cuda.x val) /\
    load result' (idx * N_OUTPUT_DIMS + 4) = Some (Cuda.y val) /\
    load result' (idx * N_OUTPUT_DIMS + 5) = Some (Cuda.z val).
Proof.
  intros Hidx Hdec Hin Huv Hmat Hv Hroom. unfold generate_training_target.
  rewrite thread_guard_false by assumption. rewrite Hdec. simpl.
  pose proof (decode_faceId_range _ _ _ Hdec) as Hr.
  rewrite out_of_range_false by lia.
  rewrite Huv. simpl. rewrite Hmat. simpl.
  unfold N_OUTPUT_DIMS in *.
  destruct (write_diffuse_spec tex2D mat uv result (idx * 6))
    as (r1 & -> & Hl1 & _); [lia|lia|]. simpl.
  destruct (write_bump_spec tex2D mat uv r1 (idx * 6))
    as (r2 & -> & Hl2 & _ & Ht2 & _); [lia|lia|].
  exists r2. split; [reflexivity|]. exact (Ht2 Hv).
Qed.

End Threads.

Section ThreadWitnesses.

Import Sampler Resolver Writes.

Lemma target_threads_commute_witness :
  (r ← generate_training_target Demo.tex2D 2 1 [Demo.flat] [0]
         (Demo.batch 0 ++ Demo.batch 1) Demo.indices Demo.texcoords 0
         (replicate 12 fone);
   generate_training_target Demo.tex2D 2 1 [Demo.flat] [0]
     (Demo.batch 0 ++ Demo.batch 1) Demo.indices Demo.texcoords 1 r)
  = (r ← generate_training_target Demo.tex2D 2 1 [Demo.flat] [0]
           (Demo.batch 0 ++ Demo.batch 1) Demo.indices Demo.texcoords 1
           (replicate 12 fone);
     generate_training_target Demo.tex2D 2 1 [Demo.flat] [0]
       (Demo.batch 0 ++ Demo.batch 1) Demo.indices Demo.texcoords 0 r).
Proof.
  apply (target_threads_commute Demo.tex2D 2 1 [Demo.flat] [0]
           (Demo.batch 0 ++ Demo.batch 1) Demo.indices Demo.texcoords 0 1
           (replicate 12 fone)).
  lia.
Defined.

Lemma target_thread_keeps_other_samples_witness :
  exists result',
    generate_training_target Demo.tex2D 2 1 [Demo.flat] [0]
      (Demo.batch 0 ++ Demo.batch 1) Demo.indices Demo.texcoords 1
      (replicate 12 fone) = Some result' /\
    length result' = 12%nat /\
    forall j, j < 1 * N_OUTPUT_DIMS \/ (1 + 1) * N_OUTPUT_DIMS <= j ->
      load result' j = load (replicate 12 fone) j.
Proof.
  eexists. split; [by vm_compute|].
  apply (target_thread_keeps_other_samples Demo.tex2D 2 1 [Demo.flat] [0]
           (Demo.batch 0 ++ Demo.batch 1) Demo.indices Demo.texcoords 1
           (replicate 12 fone)).
  by vm_compute.
Defined.

Lemma sampler_threads_commute_witness :
  (r ← generate_face_positions 2 10 Demo.draw least_draw least_draw 0
         (replicate 6 fzero);
   generate_face_positions 2 10 Demo.draw least_draw least_draw 1 r)
  = (r ← generate_face_positions 2 10 Demo.draw least_draw least_draw 1
           (replicate 6 fzero);
     generate_face_positions 2 10 Demo.draw least_draw least_draw 0 r).
Proof.
  apply (sampler_threads_commute 2 10 (fun _ => Demo.draw)
           (fun _ => least_draw) (fun _ => least_draw) 0 1
           (replicate 6 fzero)).
  lia.
Defined.

Lemma sampler_thread_keeps_other_samples_witness :
  exists result',
    generate_face_positions 2 10 Demo.draw least_draw least_draw 0
      (replicate 6 fzero) = Some result' /\
    length result' = 6%nat /\
    forall j, j < 0 * N_INPUT_DIMS \/ (0 + 1) * N_INPUT_DIMS <= j ->
      load result' j = load (replicate 6 fzero) j.
Proof.
  eexists. split; [by vm_compute|].
  apply (sampler_thread_keeps_other_samples 2 10 Demo.draw least_draw
           least_draw 0 (replicate 6 fzero)).
  by vm_compute.
Defined.

Lemma bump_map_channels_witness :
  exists result',
    generate_training_target Demo.tex2D 1 1 [Samples.bumpy] [0]
      (Demo.batch 0) Demo.indices Demo.texcoords 0 Demo.result
    = Some result' /\
    let val := Demo.tex2D 9 fzero (fsub fone fzero) in
    load result' (0 * N_OUTPUT_DIMS + 3) = Some (Cuda.x val) /\
    load result' (0 * N_OUTPUT_DIMS + 4) = Some (Cuda.y val) /\
    load result' (0 * N_OUTPUT_DIMS + 5) = Some (Cuda.z val).
Proof.
  apply (bump_map_channels Demo.tex2D 1 1 [Samples.bumpy] [0]
           (Demo.batch 0) Demo.indices Demo.texcoords 0 Demo.result 0
           Samples.bumpy (fzero, fzero)).
  - lia.
  - by vm_compute.
  - lia.
  - by vm_compute.
  - reflexivity.
  - reflexivity.
  - by vm_compute.
Defined.

End ThreadWitnesses.

(** ** The CDF, the reported error, materials and images *)

Section CdfMore.

Import Cdf.

Lemma is_nan_fadd_l a b : is_nan a = true -> is_nan (fadd a b) = true.
Proof. destruct a; try discriminate. intros _. by destruct b. Qed.

Lemma is_nan_fadd_r a b : is_nan b = true -> is_nan (fadd a b) = true.
Proof. destruct b; try discriminate. intros _. by destruct a as [| | |[] ? ?]. Qed.

Lemma is_nan_fdiv_r a b : is_nan b = true -> is_nan (fdiv a b) = true.
Proof. destruct b; try discriminate. intros _. by destruct a. Qed.

Lemma foldl_fadd_nan histogram : forall c,
  is_nan c = true -> is_nan (foldl fadd c histogram) = true.
Proof.
  induction histogram as [|h l IH]; intros c Hc; [exact Hc|].
  simpl. apply IH. by apply is_nan_fadd_l.
Qed.

Lemma area_sum_nan histogram :
  Exists (fun a => is_nan a = true) histogram ->
  is_nan (area_sum histogram) = true.
Proof.
  unfold area_sum. intros H. generalize fzero.
  induction H as [h l Hh|h l _ IH]; intros c; simpl.
  - apply foldl_fadd_nan. by apply is_nan_fadd_r.
  - apply IH.
Qed.

Lemma cdf_loop_nan total histogram : forall c,
  is_nan total = true ->
  Forall (fun p => is_nan p = true) (cdf_loop total c histogram).
Proof.
  induction histogram as [|h l IH]; intros c Ht; simpl; constructor.
  - by apply is_nan_fadd_r, is_nan_fdiv_r.
  - by apply IH.
Qed.

Lemma length_cdf_loop total histogram : forall c,
  length (cdf_loop total c histogram) = length histogram.
Proof.
  induction histogram as [|h l IH]; intros c; simpl; [reflexivity|].
  by rewrite IH.
Qed.

(** X18.  One face with a NaN for its area makes the total a NaN and
    with it every entry of the CDF, those of the faces before it
    included. *)
Theorem nan_area_makes_every_cdf_entry_nan histogram :
  Exists (fun a => is_nan a = true) histogram ->
  is_nan (area_sum histogram) = true /\
  length (build_cdf histogram) = length histogram /\
  Forall (fun p => is_nan p = true) (build_cdf histogram).
Proof.
  intros H. split; [by apply area_sum_nan|]. split.
  - apply length_cdf_loop.
  - apply cdf_loop_nan. by apply area_sum_nan.
Qed.

Lemma nan_area_makes_every_cdf_entry_nan_witness :
  is_nan (area_sum [fone; of_spec S754_nan; fhalf]) = true /\
  length (build_cdf [fone; of_spec S754_nan; fhalf]) = 3%nat /\
  Forall (fun p => is_nan p = true)
    (build_cdf [fone; of_spec S754_nan; fhalf]).
Proof.
  apply (nan_area_makes_every_cdf_entry_nan [fone; of_spec S754_nan; fhalf]).
  apply Exists_cons_tl, Exists_cons_hd. reflexivity.
Defined.

End CdfMore.

Section TrainingMore.

Import Training Report.

Variable loss : Z -> float.

Lemma counter_at_bounds n : 0 <= counter_at n <= 9.
Proof.
  unfold counter_at.
  destruct (Z.leb_spec n 100); [lia|].
  destruct (Z.leb_spec n 1000); Z.div_mod_to_equations; lia.
Qed.

(** A step that prints has added its own loss before. *)
Lemma prints_samples i : 0 <= i -> prints_at i = true -> samples_at i = true.
Proof.
  intros Hi. unfold prints_at, samples_at, interval_at.
  repeat match goal with
         | |- context [?a <=? ?b] => destruct (Z.leb_spec a b)
         | |- context [?a =? ?b] => destruct (Z.eqb_spec a b)
         end; simpl; try reflexivity; try discriminate; try lia.
  all: intros _; exfalso; Z.div_mod_to_equations; lia.
Qed.

(** The sum is 0 whenever no loss has been added since the last
    print. *)
Lemma tmp_loss_reset n :
  0 <= n -> counter_at n = 0 -> tmp_loss (run loss n) = fzero.
Proof.
  revert n. apply (natlike_ind (fun n => counter_at n = 0 ->
                                  tmp_loss (run loss n) = fzero));
    [reflexivity|].
  intros n Hn IH. change (Z.succ n) with (n + 1).
  rewrite run_succ by assumption.
  destruct (run_closed loss n Hn) as (Hint & Hcnt & _).
  rewrite (counter_next loss n Hn). unfold step.
  rewrite (print_loss_closed loss n _ Hn Hint), (accumulates_closed n _ Hint).
  pose proof (counter_at_bounds n) as Hb.
  destruct (prints_at n) eqn:Ep, (samples_at n) eqn:Es; simpl.
  - intros _. by destruct (0 <? n), (interval (run loss n) <? 1000).
  - intros _. by destruct (0 <? n), (interval (run loss n) <? 1000).
  - change (2 ^ 32) with 4294967296. intros H. exfalso.
    Z.div_mod_to_equations. lia.
  - exact IH.
Qed.

(** X19.  Every printed average is over at least one loss: a step that
    prints adds its own loss first, so the counter it divides by is the
    number of losses added since the last print, itself included. *)
Theorem printed_average_counts_its_own_step i :
  0 <= i ->
  print_loss i (run loss i) = true ->
  accumulates i (run loss i) = true /\
  last (printed (step loss i (run loss i)))
  = Some (i, fdiv (fadd (tmp_loss (run loss i)) (loss i))
                  (of_uint (counter_at i + 1))) /\
  1 <= counter_at i + 1 <= 10.
Proof.
  intros Hi Hp.
  destruct (run_closed loss i Hi) as (Hint & Hcnt & _).
  assert (Ha : accumulates i (run loss i) = true).
  { rewrite (accumulates_closed i _ Hint). apply prints_samples; [exact Hi|].
    by rewrite <- (print_loss_closed loss i _ Hi Hint). }
  pose proof (counter_at_bounds i) as Hb.
  split; [exact Ha|]. split; [|lia].
  unfold step. rewrite Hp, Ha. simpl. rewrite Hcnt.
  assert (Hm : (counter_at i + 1) mod 2 ^ 32 = counter_at i + 1)
    by (apply Z.mod_small; lia).
  rewrite Hm.
  destruct (0 <? i), (interval (run loss i) <? 1000); simpl;
    by rewrite last_snoc.
Qed.

(** X20.  When the last step comes right after a print and is not one
    that adds its loss, as with 1051 steps, [res.MSE] is 0 / 0. *)
Theorem mse_of_an_empty_window_is_nan n :
  0 < n ->
  counter_at (n - 1) = 0 ->
  samples_at (n - 1) = false ->
  exists mse, MSE loss n = Some mse /\ is_nan mse = true.
Proof.
  intros Hn Hc Hs. unfold MSE.
  destruct (Z.leb_spec n 0); [lia|].
  destruct (run_closed loss (n - 1) ltac:(lia)) as (Hint & Hcnt & _).
  rewrite (accumulates_closed (n - 1) _ Hint), Hs.
  rewrite Hcnt, Hc, tmp_loss_reset by (lia || exact Hc).
  eexists. split; [reflexivity|]. reflexivity.
Qed.

End TrainingMore.

Lemma printed_average_counts_its_own_step_witness :
  Training.accumulates 1000 (Training.run of_uint 1000) = true /\
  last (Training.printed
          (Training.step of_uint 1000 (Training.run of_uint 1000)))
  = Some (1000, fdiv (fadd (Training.tmp_loss (Training.run of_uint 1000))
                        (of_uint 1000))
                  (of_uint (Training.counter_at 1000 + 1))) /\
  1 <= Training.counter_at 1000 + 1 <= 10.
Proof.
  apply (printed_average_counts_its_own_step of_uint 1000).
  - lia.
  - by vm_compute.
Defined.

Lemma mse_of_an_empty_window_is_nan_witness :
  exists mse, Report.MSE of_uint 1051 = Some mse /\ is_nan mse = true.
Proof.
  apply (mse_of_an_empty_window_is_nan of_uint 1051).
  - lia.
  - reflexivity.
  - reflexivity.
Defined.

Section AssetFacts.

Import Resolver Assets.

Variable tex2D : Z -> float -> float -> Cuda.float4.
Variable load_image : String.string -> image_load.
Variable cudaCreateTextureObject : list float -> Z -> Z -> option Z.

(** A texture whose image does not load is marked invalid, and nothing
    is thrown. *)
Lemma loadTexture_threw path tex w h :
  load_image path = Threw w h ->
  exists tex', loadTexture load_image cudaCreateTextureObject path tex
               = Some tex' /\ valid tex' = false.
Proof. intros H. unfold loadTexture. rewrite H. eauto. Qed.

(** X21.  A material whose diffuse texture file does not load keeps its
    place in [materials]: the samples on its faces get the diffuse
    colour of the .mtl entry in channels 0..2. *)
Theorem unloadable_diffuse_texture_gives_material_colour
    object_basedir mt m w h mat
    n_elements n_faces materials material_ids training_batch indices
    texcoords idx result faceId uv :
  load_image (String.append object_basedir (diffuse_texname mt))
    = Threw w h ->
  load_material load_image cudaCreateTextureObject object_basedir mt m
    = Some mat ->
  0 <= idx < n_elements ->
  decode_faceId training_batch (idx * N_INPUT_DIMS) = Some faceId ->
  0 <= faceId < n_faces ->
  uv_interp training_batch indices texcoords (idx * N_INPUT_DIMS) faceId
    = Some uv ->
  face_material materials material_ids faceId = Some mat ->
  idx * N_OUTPUT_DIMS + (N_OUTPUT_DIMS - 1) < Z.of_nat (length result) ->
  exists result',
    generate_training_target tex2D n_elements n_faces materials material_ids
      training_batch indices texcoords idx result = Some result' /\
    load result' (idx * N_OUTPUT_DIMS + 0) = Some (mt_diffuse mt).1.1 /\
    load result' (idx * N_OUTPUT_DIMS + 1) = Some (mt_diffuse mt).1.2 /\
    load result' (idx * N_OUTPUT_DIMS + 2) = Some (mt_diffuse mt).2.
Proof.
  intros Hload Hmat Hidx Hdec Hin Huv Hfm Hroom.
  unfold load_material in Hmat.
  destruct (loadTexture_threw _ (map_Kd m) w h Hload) as (Kd & HKd & Hv).
  rewrite HKd in Hmat. simpl in Hmat.
  destruct (loadTexture load_image cudaCreateTextureObject
              (String.append object_basedir (bump_texname mt)) (map_Bump m))
    as [Bump|]; [|discriminate].
  simpl in Hmat. injection Hmat as <-.
  destruct (in_range_face_spec tex2D n_elements n_faces materials
              material_ids training_batch indices texcoords idx result
              faceId _ uv Hidx Hdec Hin Huv Hfm Hroom)
    as (result' & Hr & Hd & _).
  exists result'. split; [exact Hr|]. exact (Hd Hv).
Qed.

End AssetFacts.

Section ImageFacts.

Import Image.

Variable gamma_byte : float -> Z.

Lemma pixel_of i c : 0 <= c < 4 -> (4 * i + c) / 4 = i.
Proof. intros Hc. Z.div_mod_to_equations. lia. Qed.

(** X22.  A pixel whose sample has a negative weight [w1] or [w2] gets
    the byte 0 in all four channels, alpha included, whatever the
    input holds. *)
Theorem masked_pixel_is_transparent_black
    num_elements n_channels stride offset input mask pixel c w1 w2 out :
  0 <= c < 4 ->
  4 * pixel + c < num_elements ->
  load mask (pixel * N_INPUT_DIMS + 1) = Some w1 ->
  load mask (pixel * N_INPUT_DIMS + 2) = Some w2 ->
  fltb w1 fzero = true \/ fltb w2 fzero = true ->
  to_ldr gamma_byte num_elements n_channels stride offset input mask
    (4 * pixel + c) out
  = store out (4 * pixel + c) 0.
Proof.
  intros Hc Hi H1 H2 Hneg. unfold to_ldr.
  destruct (4 * pixel + c >=? num_elements) eqn:E; [lia|].
  rewrite pixel_of by lia. rewrite H1. simpl.
  destruct (fltb w1 fzero); simpl; [reflexivity|].
  rewrite H2. simpl.
  destruct Hneg as [Hneg|Hneg]; [discriminate|]. by rewrite Hneg.
Qed.

(** X23.  In the image of channel group [g] (line 145: three channels
    out of [N_OUTPUT_DIMS], from [g * 3] on), a pixel whose sample has
    no negative weight shows the channels [g * 3 + c] of its sample in
    its colour bytes and 255 in its alpha byte. *)
Theorem group_image_pixel width height g data mask pixel c w1 w2 out :
  0 <= pixel -> 0 <= g -> 0 <= c < 4 ->
  pixel * N_OUTPUT_DIMS + g * 3 + 3 < 2 ^ 64 ->
  4 * pixel + c < width * height * 4 ->
  load mask (pixel * N_INPUT_DIMS + 1) = Some w1 ->
  load mask (pixel * N_INPUT_DIMS + 2) = Some w2 ->
  fltb w1 fzero = false -> fltb w2 fzero = false ->
  to_ldr_group gamma_byte width height g data mask (4 * pixel + c) out
  = if c <? 3
    then v ← load data (pixel * N_OUTPUT_DIMS + (g * 3 + c));
         store out (4 * pixel + c) (gamma_byte v)
    else store out (4 * pixel + c) 255.
Proof.
  intros Hp Hg Hc Hsz Hi H1 H2 N1 N2. unfold to_ldr_group, to_ldr.
  destruct (4 * pixel + c >=? width * height * 4) eqn:E; [lia|].
  rewrite pixel_of by lia. rewrite H1. simpl. rewrite N1, H2. simpl.
  rewrite N2.
  replace (4 * pixel + c - pixel * 4) with c by lia.
  destruct (c <? 3) eqn:E3; [|reflexivity].
  rewrite Z.mod_small by (unfold N_OUTPUT_DIMS in *; lia).
  by replace (pixel * N_OUTPUT_DIMS + c + g * 3)
    with (pixel * N_OUTPUT_DIMS + (g * 3 + c)) by lia.
Qed.

End ImageFacts.

Lemma unloadable_diffuse_texture_gives_material_colour_witness :
  exists result',
    Resolver.generate_training_target Demo.tex2D 1 1
      [Samples.plain_loaded] [0] (Demo.batch 0) Demo.indices
      Demo.texcoords 0 Demo.result = Some result' /\
    load result' (0 * N_OUTPUT_DIMS + 0) = Some fhalf /\
    load result' (0 * N_OUTPUT_DIMS + 1) = Some fone /\
    load result' (0 * N_OUTPUT_DIMS + 2) = Some fzero.
Proof.
  apply (unloadable_diffuse_texture_gives_material_colour Demo.tex2D
           Samples.no_image Samples.no_handle String.EmptyString
           Samples.plain Demo.flat 0 0 Samples.plain_loaded
           1 1 [Samples.plain_loaded] [0] (Demo.batch 0) Demo.indices
           Demo.texcoords 0 Demo.result 0 (fzero, fzero)).
  - reflexivity.
  - reflexivity.
  - lia.
  - by vm_compute.
  - lia.
  - by vm_compute.
  - reflexivity.
  - by vm_compute.
Defined.

Lemma masked_pixel_is_transparent_black_witness :
  Image.to_ldr Samples.bytes 8 3 6 0 (replicate 12 fone) Samples.mask
    (4 * 1 + 3) (replicate 8 7)
  = store (replicate 8 7) (4 * 1 + 3) 0.
Proof.
  apply (masked_pixel_is_transparent_black Samples.bytes 8 3 6 0
           (replicate 12 fone) Samples.mask 1 3
           (Ffinite true (2 ^ 23) (-23)) (Ffinite true (2 ^ 23) (-23))
           (replicate 8 7)).
  - lia.
  - lia.
  - reflexivity.
  - reflexivity.
  - left. reflexivity.
Defined.

Lemma group_image_pixel_witness :
  Image.to_ldr_group Samples.bytes 2 1 1 (replicate 12 fone) Samples.mask
    (4 * 0 + 3) (replicate 8 7)
  = store (replicate 8 7) (4 * 0 + 3) 255.
Proof.
  apply (group_image_pixel Samples.bytes 2 1 1 (replicate 12 fone)
           Samples.mask 0 3 fhalf fhalf (replicate 8 7)).
  - lia.
  - lia.
  - lia.
  - by vm_compute.
  - lia.
  - reflexivity.
  - reflexivity.
  - reflexivity.
  - reflexivity.
Defined.

(** ** The stages together *)

Section PipelineFacts.

Import Sampler Resolver Draws Scene.

Variable tex2D : Z -> float -> float -> Cuda.float4.

(** What both writes leave in the six channels of a sample whose face
    id is in range. *)
Lemma in_range_target
    n_elements n_faces materials material_ids training_batch indices
    texcoords idx result faceId mat uv :
  0 <= idx < n_elements ->
  decode_faceId training_batch (idx * N_INPUT_DIMS) = Some faceId ->
  0 <= faceId < n_faces ->
  uv_interp training_batch indices texcoords (idx * N_INPUT_DIMS) faceId
    = Some uv ->
  face_material materials material_ids faceId = Some mat ->
  idx * N_OUTPUT_DIMS + (N_OUTPUT_DIMS - 1) < Z.of_nat (length result) ->
  exists result',
    generate_training_target tex2D n_elements n_faces materials material_ids
      training_batch indices texcoords idx result = Some result' /\
    (load result' (idx * N_OUTPUT_DIMS + 0),
     load result' (idx * N_OUTPUT_DIMS + 1),
     load result' (idx * N_OUTPUT_DIMS + 2))
    = (if valid (map_Kd mat)
       then let val := tex2D (texture (map_Kd mat))
                         (fst uv) (fsub fone (snd uv)) in
            (Some (Cuda.x val), Some (Cuda.y val), Some (Cuda.z val))
       else (Some (fst (fst (diffuse mat))), Some (snd (fst (diffuse mat))),
             Some (snd (diffuse mat)))) /\
    (load result' (idx * N_OUTPUT_DIMS + 3),
     load result' (idx * N_OUTPUT_DIMS + 4),
     load result' (idx * N_OUTPUT_DIMS + 5))
    = (if valid (map_Bump mat)
       then let val := tex2D (texture (map_Bump mat))
                         (fst uv) (fsub fone (snd uv)) in
            (Some (Cuda.x val), Some (Cuda.y val), Some (Cuda.z val))
       else (Some fhalf, Some fhalf, Some fone)).
Proof.
  intros Hidx Hdec Hin Huv Hmat Hroom. unfold generate_training_target.
  rewrite thread_guard_false by assumption. rewrite Hdec. simpl.
  pose proof (decode_faceId_range _ _ _ Hdec) as Hr.
  rewrite out_of_range_false by lia.
  rewrite Huv. simpl. rewrite Hmat. simpl.
  unfold N_OUTPUT_DIMS in *.
  destruct (write_diffuse_spec tex2D mat uv result (idx * 6))
    as (r1 & -> & Hl1 & Hc1 & Ht1 & Hf1); [lia|lia|]. simpl.
  destruct (write_bump_spec tex2D mat uv r1 (idx * 6))
    as (r2 & -> & Hl2 & Hc2 & Ht2 & Hf2); [lia|lia|].
  exists r2. split; [reflexivity|]. split.
  - rewrite !Hf2 by lia. destruct (valid (map_Kd mat)).
    + destruct (Ht1 eq_refl) as (-> & -> & ->). reflexivity.
    + destruct (Hc1 eq_refl) as (-> & -> & ->). reflexivity.
  - destruct (valid (map_Bump mat)).
    + destruct (Ht2 eq_refl) as (-> & -> & ->). reflexivity.
    + destruct (Hc2 eq_refl) as (-> & -> & ->). reflexivity.
Qed.

(** X24.  A training sample goes through both kernels without the
    fallback: for every draw of [curand_uniform], on a mesh whose faces
    all have texture coordinates and a material, the sampler stores a
    sample whose slot 0 the resolver decodes to a face id in range, and
    the target of that sample is defined and comes from the material
    [materials[material_ids[faceId]]] of that face at the interpolated
    coordinate [(u, v)] of the sample: channels 0..2 are the [map_Kd]
    texture at [(u, 1 - v)] when it is valid and the [diffuse] colour
    otherwise, channels 3..5 the [map_Bump] texture at [(u, 1 - v)] when
    it is valid and [(0.5, 0.5, 1.0)] otherwise. *)
Theorem sampled_point_gets_its_material
    n_elements n_faces materials material_ids indices texcoords
    u0 u1 u2 idx training_batch result :
  uniform_draw u0 = true ->
  1 <= n_faces < 2 ^ 24 ->
  0 <= idx < n_elements ->
  idx * N_INPUT_DIMS + 2 < Z.of_nat (length training_batch) ->
  idx * N_OUTPUT_DIMS + (N_OUTPUT_DIMS - 1) < Z.of_nat (length result) ->
  (forall f, 0 <= f < n_faces ->
     face_resolvable materials material_ids indices texcoords f) ->
  exists training_batch' result' faceId uv mat,
    generate_face_positions n_elements n_faces u0 u1 u2 idx training_batch
      = Some training_batch' /\
    decode_faceId training_batch' (idx * N_INPUT_DIMS) = Some faceId /\
    0 <= faceId < n_faces /\
    out_of_range faceId n_faces = false /\
    uv_interp training_batch' indices texcoords (idx * N_INPUT_DIMS) faceId
      = Some uv /\
    face_material materials material_ids faceId = Some mat /\
    generate_training_target tex2D n_elements n_faces materials material_ids
      training_batch' indices texcoords idx result = Some result' /\
    (load result' (idx * N_OUTPUT_DIMS + 0),
     load result' (idx * N_OUTPUT_DIMS + 1),
     load result' (idx * N_OUTPUT_DIMS + 2))
    = (if valid (map_Kd mat)
       then let val := tex2D (texture (map_Kd mat))
                         (fst uv) (fsub fone (snd uv)) in
            (Some (Cuda.x val), Some (Cuda.y val), Some (Cuda.z val))
       else (Some (fst (fst (diffuse mat))), Some (snd (fst (diffuse mat))),
             Some (snd (diffuse mat)))) /\
    (load result' (idx * N_OUTPUT_DIMS + 3),
     load result' (idx * N_OUTPUT_DIMS + 4),
     load result' (idx * N_OUTPUT_DIMS + 5))
    = (if valid (map_Bump mat)
       then let val := tex2D (texture (map_Bump mat))
                         (fst uv) (fsub fone (snd uv)) in
            (Some (Cuda.x val), Some (Cuda.y val), Some (Cuda.z val))
       else (Some fhalf, Some fhalf, Some fone)).
Proof.
  intros Hu Hn Hidx Hroom3 Hroom6 Hscene.
  destruct (sampler_thread_face_id n_elements n_faces u0 u1 u2 idx
              training_batch Hu Hn Hidx ltac:(unfold N_INPUT_DIMS in *; lia))
    as (faceId & batch' & Hs & Hf & Hslot & Hdec & Hout).
  destruct (Hscene faceId Hf)
    as ((i1 & i2 & i3 & L1 & L2 & L3 & T1 & T1' & T2 & T2' & T3 & T3')
        & (mat & Hmat)).
  assert (Hlen : length batch' = length training_batch).
  { unfold generate_face_positions in Hs.
    destruct (idx >=? n_elements); [by injection Hs as <-|].
    destruct (to_uint _) as [k|]; [|discriminate]. simpl in Hs.
    destruct (store training_batch _ _) as [b1|] eqn:E1; [|discriminate].
    simpl in Hs.
    destruct (store b1 _ _) as [b2|] eqn:E2; [|discriminate]. simpl in Hs.
    apply store_inv in E1 as [_ ->], E2 as [_ ->], Hs as [_ ->].
    by rewrite !length_insert. }
  assert (Huv : is_Some (uv_interp batch' indices texcoords
                           (idx * N_INPUT_DIMS) faceId)).
  { unfold uv_interp. rewrite L1, L2, L3. simpl.
    destruct (load_is_Some batch' (idx * N_INPUT_DIMS + 1)) as [w1 ->];
      [unfold N_INPUT_DIMS in *; lia|].
    destruct (load_is_Some batch' (idx * N_INPUT_DIMS + 2)) as [w2 ->];
      [unfold N_INPUT_DIMS in *; lia|].
    simpl.
    destruct (load_is_Some texcoords (2 * texcoord_index i1 + 0))
      as [? ->]; [lia|].
    destruct (load_is_Some texcoords (2 * texcoord_index i1 + 1))
      as [? ->]; [lia|].
    destruct (load_is_Some texcoords (2 * texcoord_index i2 + 0))
      as [? ->]; [lia|].
    destruct (load_is_Some texcoords (2 * texcoord_index i2 + 1))
      as [? ->]; [lia|].
    destruct (load_is_Some texcoords (2 * texcoord_index i3 + 0))
      as [? ->]; [lia|].
    destruct (load_is_Some texcoords (2 * texcoord_index i3 + 1))
      as [? ->]; [lia|].
    simpl. eauto. }
  destruct Huv as [uv Huv].
  destruct (in_range_target n_elements n_faces materials
              material_ids batch' indices texcoords idx result faceId mat uv
              Hidx Hdec Hf Huv Hmat Hroom6)
    as (result' & Hr & Hd & Hb).
  exists batch', result', faceId, uv, mat. auto 10.
Qed.

End PipelineFacts.

Section EncodingFacts.

Import Adjacency Incidence Layout.

(** A loop that returns keeps what each of its iterations keeps. *)
Lemma for_loop_keeps {S : Type} (body : Z -> S -> option S)
    (P : Z -> S -> Prop) (count : nat) : forall i s s',
  P i s ->
  (forall j t t', i <= j < i + Z.of_nat count ->
     P j t -> body j t = Some t' -> P (j + 1) t') ->
  for_loop body count i s = Some s' ->
  P (i + Z.of_nat count) s'.
Proof.
  induction count as [|c IH]; intros i s s' Hs Hstep Hrun; simpl in Hrun.
  - injection Hrun as <-. by replace (i + Z.of_nat 0) with i by lia.
  - destruct (body i s) as [t|] eqn:E; [|discriminate]. simpl in Hrun.
    replace (i + Z.of_nat (Datatypes.S c)) with (i + 1 + Z.of_nat c) by lia.
    apply (IH (i + 1) t s'); [|intros j u u' Hj; apply Hstep; lia|exact Hrun].
    apply (Hstep i s t); [lia|exact Hs|exact E].
Qed.

Lemma entries_insert (adj : list (list Z)) v l l' :
  load adj v = Some l ->
  entries (<[Z.to_nat v := l']> adj)
  = entries adj - Z.of_nat (length l) + Z.of_nat (length l').
Proof.
  intros H. unfold load in H. destruct (v <? 0); [discriminate|].
  pose proof (take_drop_middle _ _ _ H) as Hs.
  rewrite <- Hs at 2. rewrite <- Hs at 1.
  rewrite insert_app_r_alt by (rewrite length_take; lia).
  replace (Z.to_nat v - length (take (Z.to_nat v) adj))%nat with 0%nat
    by (rewrite length_take; apply lookup_lt_Some in H; lia).
  simpl. rewrite !entries_app. simpl. lia.
Qed.

Lemma entries_replicate n : entries (replicate n []) = Z.of_nat n.
Proof. induction n as [|n IH]; simpl; lia. Qed.

Lemma push_back_entries (adj adj' : list (list Z)) v i :
  push_back adj v i = Some adj' -> entries adj' = entries adj + 1.
Proof.
  unfold push_back. destruct (load adj v) as [l|] eqn:E; [|discriminate].
  simpl. intros H. apply store_inv in H as [_ ->].
  rewrite (entries_insert adj v l) by exact E. rewrite length_app. simpl. lia.
Qed.

Lemma add_edge_entries n i a b (adj adj' : list (list Z)) :
  add_edge n i a b adj = Some adj' -> entries adj' <= entries adj + 3.
Proof.
  unfold add_edge.
  destruct (load adj (Z.min a b)) as [e|] eqn:E; [|discriminate]. simpl.
  destruct (if bool_decide (e = []) then None else find e (Z.max a b))
    as [d|].
  - destruct (bool_decide _); [|discriminate]. intros Hst.
    apply store_inv in Hst as [_ ->].
    rewrite (entries_insert adj _ e) by exact E.
    rewrite length_insert. lia.
  - intros Hst. apply store_inv in Hst as [_ ->].
    rewrite (entries_insert adj _ e) by exact E.
    rewrite length_app. simpl. lia.
Qed.

Lemma add_face_entries n indices i F E F' E' :
  add_face n indices i (F, E) = Some (F', E') ->
  entries F' = entries F + 3 /\ entries E' <= entries E + 9.
Proof.
  unfold add_face.
  destruct (load indices (3 * i + 0)) as [i0|]; [|discriminate].
  destruct (load indices (3 * i + 1)) as [i1|]; [|discriminate].
  destruct (load indices (3 * i + 2)) as [i2|]; [|discriminate]. simpl.
  destruct (push_back F _ i) as [F1|] eqn:P1; [|discriminate]. simpl.
  destruct (push_back F1 _ i) as [F2|] eqn:P2; [|discriminate]. simpl.
  destruct (push_back F2 _ i) as [F3|] eqn:P3; [|discriminate]. simpl.
  destruct (add_edge n i _ _ E) as [G1|] eqn:A1; [|discriminate]. simpl.
  destruct (add_edge n i _ _ G1) as [G2|] eqn:A2; [|discriminate]. simpl.
  destruct (add_edge n i _ _ G2) as [G3|] eqn:A3; [|discriminate]. simpl.
  intros [= <- <-].
  apply push_back_entries in P1, P2, P3.
  apply add_edge_entries in A1, A2, A3. lia.
Qed.

(** The size of what the builder returns. *)
Lemma build_entries n_vertices n_faces indices adjFaces adjEdges :
  0 <= n_vertices -> 0 <= n_faces ->
  build n_vertices n_faces indices = Some (adjFaces, adjEdges) ->
  entries adjFaces = n_vertices + 3 * n_faces /\
  entries adjEdges <= n_vertices + 9 * n_faces.
Proof.
  intros Hn Hf Hb. unfold build in Hb.
  pose proof (for_loop_keeps (add_face n_vertices indices)
                (fun i adj => entries adj.1 = n_vertices + 3 * i /\
                              entries adj.2 <= n_vertices + 9 * i)
                (Z.to_nat n_faces) 0
                (replicate (Z.to_nat n_vertices) [],
                 replicate (Z.to_nat n_vertices) [])
                (adjFaces, adjEdges)) as H.
  simpl in H.
  rewrite !entries_replicate in H.
  replace (Z.of_nat (Z.to_nat n_faces)) with n_faces in H by lia.
  apply H; [lia| |exact Hb].
  intros j [F E] [F' E'] Hj [H1 H2] Hstep. simpl in *.
  apply add_face_entries in Hstep. lia.
Qed.

(** X25.  Builder and serialization together: on a mesh whose faces have
    three distinct vertices in range, with the [int] product
    [2 * n_vertices] of line 595 below 2^31 and
    [2 * n_vertices + 12 * n_faces] below 2^32, the buffers handed to
    the encoding are defined, and slot [v] of [offsets_host] points at
    the list of the faces around vertex [v], in increasing order, and
    slot [n_vertices + v] at its edge records. *)
Theorem encoding_receives_the_faces_around_each_vertex
    n_vertices n_faces indices :
  0 <= n_vertices -> 0 <= n_faces ->
  2 * n_vertices < 2 ^ 31 ->
  2 * n_vertices + 12 * n_faces < 2 ^ 32 ->
  mesh_ok n_vertices n_faces indices ->
  exists adjFaces adjEdges offsets_host meta_host,
    build n_vertices n_faces indices = Some (adjFaces, adjEdges) /\
    serialize n_vertices adjFaces adjEdges = Some (offsets_host, meta_host) /\
    Z.of_nat (length meta_host) <= 2 * n_vertices + 12 * n_faces /\
    forall v, 0 <= v < n_vertices ->
      read_back offsets_host meta_host v
        = Some (faces_at indices n_faces v) /\
      read_back offsets_host meta_host (n_vertices + v) = load adjEdges v.
Proof.
  intros Hn Hf Hint Hsz Hmesh.
  destruct (build_lists n_vertices n_faces indices ltac:(lia) ltac:(lia)
              Hmesh) as ([adjFaces adjEdges] & Hb & HF & HL & HE & _).
  simpl in *.
  destruct (build_entries _ _ _ _ _ Hn Hf Hb) as [EF EE].
  destruct (serialize_read_back n_vertices adjFaces adjEdges HF HE
              Hint ltac:(lia)) as (offsets & meta & Hser & _ & Hlen & Hread).
  exists adjFaces, adjEdges, offsets, meta.
  split; [exact Hb|]. split; [exact Hser|]. split; [lia|].
  intros v Hv. destruct (Hread v Hv) as [R1 R2].
  split; [|exact R2]. rewrite R1. by apply HL.
Qed.

End EncodingFacts.

Lemma sampled_point_gets_its_material_witness :
  exists training_batch' result' faceId uv mat,
    Sampler.generate_face_positions 1 1 Demo.draw Sampler.least_draw
      Sampler.least_draw 0 (replicate 3 fzero) = Some training_batch' /\
    Resolver.decode_faceId training_batch' (0 * N_INPUT_DIMS)
      = Some faceId /\
    0 <= faceId < 1 /\
    Resolver.out_of_range faceId 1 = false /\
    Resolver.uv_interp training_batch' Demo.indices Demo.texcoords
      (0 * N_INPUT_DIMS) faceId = Some uv /\
    Resolver.face_material [Demo.flat] [0] faceId = Some mat /\
    Resolver.generate_training_target Demo.tex2D 1 1 [Demo.flat] [0]
      training_batch' Demo.indices Demo.texcoords 0 Demo.result
      = Some result' /\
    (load result' (0 * N_OUTPUT_DIMS + 0),
     load result' (0 * N_OUTPUT_DIMS + 1),
     load result' (0 * N_OUTPUT_DIMS + 2))
    = (if valid (map_Kd mat)
       then let val := Demo.tex2D (texture (map_Kd mat))
                         (fst uv) (fsub fone (snd uv)) in
            (Some (Cuda.x val), Some (Cuda.y val), Some (Cuda.z val))
       else (Some (fst (fst (diffuse mat))), Some (snd (fst (diffuse mat))),
             Some (snd (diffuse mat)))) /\
    (load result' (0 * N_OUTPUT_DIMS + 3),
     load result' (0 * N_OUTPUT_DIMS + 4),
     load result' (0 * N_OUTPUT_DIMS + 5))
    = (if valid (map_Bump mat)
       then let val := Demo.tex2D (texture (map_Bump mat))
                         (fst uv) (fsub fone (snd uv)) in
            (Some (Cuda.x val), Some (Cuda.y val), Some (Cuda.z val))
       else (Some fhalf, Some fhalf, Some fone)).
Proof.
  apply (sampled_point_gets_its_material Demo.tex2D 1 1 [Demo.flat] [0]
           Demo.indices Demo.texcoords Demo.draw Sampler.least_draw
           Sampler.least_draw 0 (replicate 3 fzero) Demo.result).
  - reflexivity.
  - lia.
  - lia.
  - by vm_compute.
  - by vm_compute.
  - intros f Hf. assert (f = 0) as -> by lia. split.
    + eexists _, _, _. repeat split; try reflexivity; by vm_compute.
    + eexists. reflexivity.
Defined.

Lemma encoding_receives_the_faces_around_each_vertex_witness :
  exists adjFaces adjEdges offsets_host meta_host,
    Adjacency.build 4 2 Demo.quad = Some (adjFaces, adjEdges) /\
    Adjacency.serialize 4 adjFaces adjEdges
      = Some (offsets_host, meta_host) /\
    Z.of_nat (length meta_host) <= 2 * 4 + 12 * 2 /\
    forall v, 0 <= v < 4 ->
      Layout.read_back offsets_host meta_host v
        = Some (Incidence.faces_at Demo.quad 2 v) /\
      Layout.read_back offsets_host meta_host (4 + v) = load adjEdges v.
Proof.
  apply (encoding_receives_the_faces_around_each_vertex 4 2 Demo.quad).
  - lia.
  - lia.
  - lia.
  - lia.
  - intros i Hi. assert (i = 0 \/ i = 1) as [->| ->] by lia;
      eexists _, _, _; repeat split; try reflexivity; simpl; lia.
Defined.
